(** * hgserve: the Mercurial command-server client of vscode-hg

    A shallow embedding of [src/hgserve.ts] (class [HgCommandServer]) and the
    properties of its pipe protocol engine.

    The TypeScript class mutates its own fields, the listener tables of the
    [ChildProcess] objects it spawns, the promises it handed out and the local
    variables that the listeners of [attachListeners] close over.  All of this
    is made explicit as one [System] value that every operation transforms.
    JavaScript numbers are modelled by [Z]: every number the code computes is
    an integer below 2^53, where doubles are exact. *)

From Stdlib Require Import ZArith Lia Strings.Byte Strings.Ascii Strings.String.
From stdpp Require Import base list strings gmap pretty.

Local Open Scope Z_scope.

(** ** Node's [Buffer] *)

Module Buffer.

Abbreviation t := (list byte).

Definition byteZ (b : byte) : Z := Z.of_N (Byte.to_N b).

Definition byte_of_Z (z : Z) : byte :=
  default x00 (Byte.of_N (Z.to_N (z mod 256))).

(** [data.length] *)
Definition len (data : t) : Z := Z.of_nat (length data).

(** [data.readUInt8(offset)]; [None] is the [RangeError] Node throws when
    the offset lies outside the buffer. *)
Definition readUInt8 (data : t) (offset : Z) : option Z :=
  if 0 <=? offset then byteZ <$> data !! Z.to_nat offset else None.

(** [data.readUInt32BE(offset)]: four bytes, most significant first;
    [None] is the [RangeError] thrown when fewer than four bytes remain. *)
Definition readUInt32BE (data : t) (offset : Z) : option Z :=
  if 0 <=? offset then
    match drop (Z.to_nat offset) data with
    | b0 :: b1 :: b2 :: b3 :: _ =>
        Some (byteZ b0 * 2 ^ 24 + byteZ b1 * 2 ^ 16 + byteZ b2 * 2 ^ 8 + byteZ b3)
    | _ => None
    end
  else None.

(** [data.readInt32BE(offset)]: the same four bytes in two's complement. *)
Definition readInt32BE (data : t) (offset : Z) : option Z :=
  (fun u => if u <? 2 ^ 31 then u else u - 2 ^ 32) <$> readUInt32BE data offset.

(** The index clamping of [Buffer.prototype.slice]. *)
Definition adjustOffset (offset length : Z) : Z :=
  if offset <? 0 then Z.max 0 (offset + length)
  else if offset <? length then offset
  else length.

(** [data.slice(start, end)]: never throws, both ends are clamped. *)
Definition slice (data : t) (start end_ : Z) : t :=
  let s := adjustOffset start (len data) in
  let e := adjustOffset end_ (len data) in
  take (Z.to_nat (e - s)) (drop (Z.to_nat s) data).

(** The four bytes [readUInt32BE] reads back as [n]. *)
Definition uint32BE (n : Z) : t :=
  [byte_of_Z (n / 2 ^ 24); byte_of_Z (n / 2 ^ 16); byte_of_Z (n / 2 ^ 8); byte_of_Z n].

(** A decoder that [Buffer.toString] can be instantiated with: one
    character per byte, which is what Node's [latin1] does on every buffer
    and what its [utf8] and [ascii] do on 7-bit buffers.  For an encoding
    name that Node does not know, [toString] throws a [TypeError]. *)
Definition knownEncoding (encoding : option string) : bool :=
  match encoding with
  | None => true
  | Some e => bool_decide (e ∈ ["utf8"; "utf-8"; "UTF-8"; "ascii"; "latin1"; "binary"]%string)
  end.

Definition singleByteToString (encoding : option string) (data : t) : option string :=
  if knownEncoding encoding then Some (string_of_list_byte data) else None.

End Buffer.

(** [String.fromCharCode] on a byte value. *)
Definition fromCharCode (c : Z) : ascii := ascii_of_N (Z.to_N c).

(** ** Data model *)

Record IExecutionResult := {
  exitCode : Z;
  stdout : string;
  stderr : string
}.

(** A promise is pending until the first [resolve] or [reject]; later calls
    have no effect. *)
Inductive Promise (T : Type) :=
| Pending
| Fulfilled (value : T)
| Rejected (reason : string).
Arguments Pending {T}.
Arguments Fulfilled {T} value.
Arguments Rejected {T} reason.

(** [result] is the [Deferred] made by [defer]: an index into the promise
    store of the [System]. *)
Record PipelineCommand := {
  cmd : string;
  args : list string;
  result : nat
}.

(** What JavaScript can throw in this file. *)
Inductive Exception :=
| RangeError
| TypeError
| Error (message : string).

(** The variables of [attachListeners] that its listeners share. *)
Record Closure := {
  errorBuffers : list Buffer.t;
  outputBodies : list string;
  errorBodies : list string;
  exitCodeVar : option Z
}.

(** The listeners registered on a child process:
    - [Spawned]: those of [spawnCommandServerProcess], the one-shot reader of
      the first stdout burst included;
    - [Orphaned]: the first burst was read and [start] did not go on;
    - [Listening]: those of [attachListeners] as well;
    - [Detached]: [stop] has removed them. *)
Inductive Listeners := Spawned | Orphaned | Listening | Detached.

(** Calls that reach the stdin of a child process.  The functions of
    [./interaction] that write the frames are not part of this file: their
    calls are recorded with their arguments. *)
Inductive StdinWrite :=
| SendCommand (encoding : option string) (cmd : string) (args : list string)
| SendLineInput (encoding : option string) (response : string)
| StdinEnd.

Record ChildProcess := {
  spawnArgs : list string;
  spawnEnv : gmap string string;
  spawnCwd : string;
  listeners : Listeners;
  started : Promise unit;
  stdin : list StdinWrite;
  vars : Closure
}.

Record HgCommandServer := {
  hgPath : option string;
  hgOpts : list string;
  serverProcess : option nat;
  starting : bool;
  encoding : option string;
  capabilities : option (list string);
  commandQueue : list PipelineCommand;
  stopWhenQueueEmpty : bool
}.

(** A stdout handler parked at [await interaction.handleChoices(stdout, length)]:
    the constants it closed over and its cursor. *)
Record Suspension := {
  k_proc : nat;
  k_data : Buffer.t;
  k_offset : Z;
  k_stdout : string;
  k_length : Z
}.

Record System := {
  this : HgCommandServer;
  procs : list ChildProcess;
  promises : list (Promise IExecutionResult);
  resolved : list (nat * IExecutionResult);
  logged : list string;
  awaiting : list Suspension
}.

(** *** Field updates *)

Definition with_this (f : HgCommandServer → HgCommandServer) (s : System) : System :=
  {| this := f (this s); procs := procs s; promises := promises s;
     resolved := resolved s; logged := logged s; awaiting := awaiting s |}.

Definition with_procs (f : list ChildProcess → list ChildProcess) (s : System) : System :=
  {| this := this s; procs := f (procs s); promises := promises s;
     resolved := resolved s; logged := logged s; awaiting := awaiting s |}.

Definition with_awaiting (f : list Suspension → list Suspension) (s : System) : System :=
  {| this := this s; procs := procs s; promises := promises s;
     resolved := resolved s; logged := logged s; awaiting := f (awaiting s) |}.

Definition log (text : string) (s : System) : System :=
  {| this := this s; procs := procs s; promises := promises s;
     resolved := resolved s; logged := logged s ++ [text]; awaiting := awaiting s |}.

Definition set_serverProcess (p : option nat) (h : HgCommandServer) : HgCommandServer :=
  {| hgPath := hgPath h; hgOpts := hgOpts h; serverProcess := p;
     starting := starting h; encoding := encoding h; capabilities := capabilities h;
     commandQueue := commandQueue h; stopWhenQueueEmpty := stopWhenQueueEmpty h |}.

Definition set_starting (b : bool) (h : HgCommandServer) : HgCommandServer :=
  {| hgPath := hgPath h; hgOpts := hgOpts h; serverProcess := serverProcess h;
     starting := b; encoding := encoding h; capabilities := capabilities h;
     commandQueue := commandQueue h; stopWhenQueueEmpty := stopWhenQueueEmpty h |}.

Definition set_hgPath (path : option string) (h : HgCommandServer) : HgCommandServer :=
  {| hgPath := path; hgOpts := hgOpts h; serverProcess := serverProcess h;
     starting := starting h; encoding := encoding h; capabilities := capabilities h;
     commandQueue := commandQueue h; stopWhenQueueEmpty := stopWhenQueueEmpty h |}.

Definition set_negotiated (caps : list string) (enc : string) (h : HgCommandServer)
  : HgCommandServer :=
  {| hgPath := hgPath h; hgOpts := hgOpts h; serverProcess := serverProcess h;
     starting := starting h; encoding := Some enc; capabilities := Some caps;
     commandQueue := commandQueue h; stopWhenQueueEmpty := stopWhenQueueEmpty h |}.

Definition set_commandQueue (q : list PipelineCommand) (h : HgCommandServer)
  : HgCommandServer :=
  {| hgPath := hgPath h; hgOpts := hgOpts h; serverProcess := serverProcess h;
     starting := starting h; encoding := encoding h; capabilities := capabilities h;
     commandQueue := q; stopWhenQueueEmpty := stopWhenQueueEmpty h |}.

Definition set_stopWhenQueueEmpty (b : bool) (h : HgCommandServer) : HgCommandServer :=
  {| hgPath := hgPath h; hgOpts := hgOpts h; serverProcess := serverProcess h;
     starting := starting h; encoding := encoding h; capabilities := capabilities h;
     commandQueue := commandQueue h; stopWhenQueueEmpty := b |}.

Definition set_listeners (l : Listeners) (c : ChildProcess) : ChildProcess :=
  {| spawnArgs := spawnArgs c; spawnEnv := spawnEnv c; spawnCwd := spawnCwd c;
     listeners := l; started := started c; stdin := stdin c; vars := vars c |}.

Definition set_started (r : Promise unit) (c : ChildProcess) : ChildProcess :=
  {| spawnArgs := spawnArgs c; spawnEnv := spawnEnv c; spawnCwd := spawnCwd c;
     listeners := listeners c; started := r; stdin := stdin c; vars := vars c |}.

Definition write_stdin (w : StdinWrite) (c : ChildProcess) : ChildProcess :=
  {| spawnArgs := spawnArgs c; spawnEnv := spawnEnv c; spawnCwd := spawnCwd c;
     listeners := listeners c; started := started c; stdin := stdin c ++ [w];
     vars := vars c |}.

Definition set_vars (v : Closure) (c : ChildProcess) : ChildProcess :=
  {| spawnArgs := spawnArgs c; spawnEnv := spawnEnv c; spawnCwd := spawnCwd c;
     listeners := listeners c; started := started c; stdin := stdin c; vars := v |}.

(** Update of the child process object [p]. *)
Definition on_proc (p : nat) (f : ChildProcess → ChildProcess) (s : System) : System :=
  with_procs (alter f p) s.

(** ** Promises *)

(** [defer()]: a fresh pending promise, returned by its index. *)
Definition defer (s : System) : nat * System :=
  (length (promises s),
   {| this := this s; procs := procs s; promises := promises s ++ [Pending];
      resolved := resolved s; logged := logged s; awaiting := awaiting s |}).

(** [deferred.resolve(c)]: settles the promise if it is still pending.  The
    continuations of settled promises run in the order of [resolved]. *)
Definition resolve (d : nat) (c : IExecutionResult) (s : System) : System :=
  match promises s !! d with
  | Some Pending =>
      {| this := this s; procs := procs s;
         promises := <[d := Fulfilled c]> (promises s);
         resolved := resolved s ++ [(d, c)]; logged := logged s;
         awaiting := awaiting s |}
  | _ => s
  end.

(** [Promise.reject(reason)]: a fresh promise that is rejected from the start. *)
Definition Promise_reject (reason : string) (s : System) : nat * System :=
  (length (promises s),
   {| this := this s; procs := procs s; promises := promises s ++ [Rejected reason];
      resolved := resolved s; logged := logged s; awaiting := awaiting s |}).

(** The [reject] and [resolve] functions of the promise made in
    [spawnCommandServerProcess]. *)
Definition settle_started (r : Promise unit) (c : ChildProcess) : ChildProcess :=
  match started c with
  | Pending => set_started r c
  | _ => c
  end.

(** ** The command pipeline *)

(** [interaction.serverSendCommand(server, encoding, cmd, args)] *)
Definition serverSendCommand (p : nat) (enc : option string) (cmd : string)
    (args : list string) (s : System) : System :=
  on_proc p (write_stdin (SendCommand enc cmd args)) s.

(** [interaction.serverSendLineInput(server, encoding, text)] *)
Definition serverSendLineInput (p : nat) (enc : option string) (text : string)
    (s : System) : System :=
  on_proc p (write_stdin (SendLineInput enc text)) s.

Definition enqueueCommand (cmd : string) (args : list string) (s : System)
  : nat * System :=
  match serverProcess (this s) with
  | Some p =>
      let '(d, s1) := defer s in
      let command := {| cmd := cmd; args := args; result := d |} in
      let s2 := with_this (fun h => set_commandQueue (commandQueue h ++ [command]) h) s1 in
      let s3 := serverSendCommand p (encoding (this s2)) cmd args s2 in
      (d, s3)
  | None => Promise_reject "HGCommandServer is not started" s
  end.

Definition runcommand (args : list string) (s : System) : nat * System :=
  enqueueCommand "runcommand" args s.

(** [this.commandQueue.shift()] *)
Definition dequeueCommand (s : System) : option PipelineCommand * System :=
  match commandQueue (this s) with
  | [] => (None, s)
  | command :: rest => (Some command, with_this (set_commandQueue rest) s)
  end.

(** ** Stopping *)

Definition stop (force : bool) (s : System) : System :=
  match serverProcess (this s) with
  | None => s
  | Some p =>
      if negb (length (commandQueue (this s)) =? 0)%nat && negb force
      then with_this (set_stopWhenQueueEmpty true) s
      else
        with_this (set_serverProcess None)
          (on_proc p (fun c => write_stdin StdinEnd (set_listeners Detached c)) s)
  end.

(** ** Regular expressions of the handshake

    The two patterns of [parseCapabilitiesAndEncoding] are sequences of
    literals, lazy capturing groups [(.*?)] and a final [$]; they are matched
    by backtracking, as [RegExp.prototype.exec] does. *)

Inductive Pat :=
| Lit (text : string)
| LazyDot
| EndOfInput.

Definition LF : string := String "010" EmptyString.

(** [.] matches every character but a line terminator. *)
Definition lineTerminator (c : ascii) : bool :=
  Ascii.eqb c "010" || Ascii.eqb c "013".

Fixpoint stripPrefix (prefix input : string) : option string :=
  match prefix with
  | EmptyString => Some input
  | String c prefix' =>
      match input with
      | String d input' => if Ascii.eqb c d then stripPrefix prefix' input' else None
      | EmptyString => None
      end
  end.

(** The groups captured by matching [pats] against a prefix of [input],
    shortest lazy groups first. *)
Fixpoint matchHere (pats : list Pat) (input : string) (groups : list string)
  : option (list string) :=
  match pats with
  | [] => Some groups
  | Lit text :: pats' =>
      match stripPrefix text input with
      | Some rest => matchHere pats' rest groups
      | None => None
      end
  | EndOfInput :: pats' =>
      match input with
      | EmptyString => matchHere pats' input groups
      | _ => None
      end
  | LazyDot :: pats' =>
      (fix lazy (taken : string) (input : string) : option (list string) :=
         match matchHere pats' input (groups ++ [taken]) with
         | Some r => Some r
         | None =>
             match input with
             | String c rest =>
                 if lineTerminator c then None
                 else lazy (taken ++ String c EmptyString)%string rest
             | EmptyString => None
             end
         end) EmptyString input
  end.

(** [regex.exec(input)]: the leftmost match. *)
Fixpoint exec (pats : list Pat) (input : string) : option (list string) :=
  match matchHere pats input [] with
  | Some groups => Some groups
  | None =>
      match input with
      | String _ rest => exec pats rest
      | EmptyString => None
      end
  end.

(** [text.split(" ")] *)
Fixpoint split_spaces (current : string) (text : string) : list string :=
  match text with
  | EmptyString => [current]
  | String c rest =>
      if Ascii.eqb c " " then current :: split_spaces EmptyString rest
      else split_spaces (current ++ String c EmptyString)%string rest
  end.

(** [text.replace(/\0/g, "")] *)
Fixpoint removeNUL (text : string) : string :=
  match text with
  | EmptyString => EmptyString
  | String c rest =>
      if Ascii.eqb c "000" then removeNUL rest else String c (removeNUL rest)
  end.

Definition parseCapabilitiesAndEncoding (data : string)
  : Exception + (list string * string) :=
  let first :=
    exec [Lit "capabilities: "; LazyDot; Lit (LF ++ "encoding: "); LazyDot; EndOfInput]
      data in
  let matches :=
    match first with
    | Some m => Some m
    | None =>
        exec [Lit "capabilities: "; LazyDot; Lit (LF ++ "encoding: "); LazyDot;
              Lit LF; LazyDot; EndOfInput] data
    end in
  match matches with
  | Some (caps :: encoding :: _) => inr (split_spaces EmptyString caps, encoding)
  | _ => inl (Error ("Unable to parse capabilities: " ++ data))
  end.

(** [getChanName] is defined at the end of the source and called nowhere. *)
Definition getChanName (chan : ascii) : Exception + string :=
  if Ascii.eqb chan "o" then inr "output"%string
  else if Ascii.eqb chan "r" then inr "result"%string
  else if Ascii.eqb chan "e" then inr "error"%string
  else if Ascii.eqb chan "d" then inr "debug"%string
  else inl (Error ("Unknown channel '" ++ String chan "'")).

Definition LINE_CHANNEL : ascii := "L".
Definition RESULT_CHANNEL : ascii := "r".
Definition OUTPUT_CHANNEL : ascii := "o".
Definition ERROR_CHANNEL : ascii := "e".

(** ** Wire frames

    What the command server writes on its stdout: a channel tag, a
    big-endian 32-bit field and the body.  On the line channel the field is
    the size of the input the server asks for and no body follows; on every
    other channel it is the length of the body, which has four bytes on the
    result channel. *)

Record Frame := {
  tag : ascii;
  size : Z;
  body : Buffer.t
}.

Definition encode (f : Frame) : Buffer.t :=
  byte_of_ascii (tag f) :: Buffer.uint32BE (size f) ++ body f.

Definition encodes (frames : list Frame) : Buffer.t :=
  concat (map encode frames).

Definition wellFormed (f : Frame) : bool :=
  (0 <=? size f) && (size f <? 2 ^ 32) &&
  (if Ascii.eqb (tag f) LINE_CHANNEL then bool_decide (body f = [])
   else (size f =? Buffer.len (body f)) &&
        (if Ascii.eqb (tag f) RESULT_CHANNEL then size f =? 4 else true)).

Definition isLine (f : Frame) : bool := Ascii.eqb (tag f) LINE_CHANNEL.
Definition isResult (f : Frame) : bool := Ascii.eqb (tag f) RESULT_CHANNEL.

Definition outputFrame (body : Buffer.t) : Frame :=
  {| tag := OUTPUT_CHANNEL; size := Buffer.len body; body := body |}.

Definition errorFrame (body : Buffer.t) : Frame :=
  {| tag := ERROR_CHANNEL; size := Buffer.len body; body := body |}.

Definition resultFrame (code : Z) : Frame :=
  {| tag := RESULT_CHANNEL; size := 4; body := Buffer.uint32BE code |}.

Definition lineFrame (requested : Z) : Frame :=
  {| tag := LINE_CHANNEL; size := requested; body := [] |}.

(** The number a result frame carries: the four bytes of its body as an
    unsigned big-endian number, which is how the stdout listener reads them
    ([readUInt32BE], line 247).  A body that holds a negative number in two's
    complement reads as that number plus 2^32. *)
Definition resultCode (f : Frame) : Z :=
  default 0 (Buffer.readUInt32BE (body f) 0).

(** ** The server, over its platform *)

Section Server.

(** [buffer.toString(encoding)]; [None] is the [TypeError] for an encoding
    name Node does not know. *)
Variable toString : option string → Buffer.t → option string.

(** [process.env] and [process.cwd()] of the extension host. *)
Variable process_env : gmap string string.
Variable process_cwd : string.

(** Object spread [{ ...target, ...source }]: the properties of [source]
    are copied last and win. *)
Definition spread (target source : gmap string string) : gmap string string :=
  source ∪ target.

(** The child is always the program [hg]; [path] only selects its working
    directory.  A fresh child process has no listeners. *)
Definition spawnHgServer (h : HgCommandServer) (path : option string) : ChildProcess :=
  let processEnv := spread {[ "HGENCODING"%string := "UTF-8"%string ]} process_env in
  {| spawnArgs := hgOpts h;
     spawnEnv := processEnv;
     spawnCwd := match path with
                 | Some (String _ _ as dir) => dir
                 | _ => process_cwd
                 end;
     listeners := Detached;
     started := Pending;
     stdin := [];
     vars := {| errorBuffers := []; outputBodies := []; errorBodies := [];
                exitCodeVar := None |} |}.

(** The synchronous part of [spawnCommandServerProcess]: the child is
    created and the listeners for its first burst are registered.  The
    index of the new child is [length (procs s)]. *)
Definition spawnCommandServerProcess (path : option string) (s : System) : System :=
  let s1 := with_this (set_starting true) s in
  let process := spawnHgServer (this s1) path in
  with_procs (fun l => l ++ [set_listeners Spawned process]) s1.

(** [start(hgPath)] up to its [await]. *)
Definition start (path : option string) (s : System) : System :=
  spawnCommandServerProcess path (with_this (set_hgPath path) s).

(** [new HgCommandServer(config, logger)] as [HgCommandServer.start] makes it. *)
Definition create (repository : string) : System :=
  {| this := {| hgPath := None;
                hgOpts := ["--config"; "ui.interactive=True"; "serve"; "--cmdserver";
                           "pipe"; "--cwd"; repository]%string;
                serverProcess := None; starting := false; encoding := None;
                capabilities := None; commandQueue := [];
                stopWhenQueueEmpty := false |};
     procs := []; promises := []; resolved := []; logged := []; awaiting := [] |}.

(** *** [attachListeners] *)

Definition reset (v : Closure) : Closure :=
  {| errorBuffers := []; outputBodies := []; errorBodies := []; exitCodeVar := None |}.

Definition attachListeners (s : System) : System :=
  match serverProcess (this s) with
  | None => s
  | Some p => on_proc p (fun c => set_vars (reset (vars c)) (set_listeners Listening c)) s
  end.

(** *** The first stdout burst

    The one-shot listener of [spawnCommandServerProcess], followed by the
    rest of [start] when the promise is fulfilled.  The listener runs from the
    stream, outside the promise's executor: what it throws is returned next to
    the state, and reaches neither [c] nor [e]. *)
Definition firstBurst (p : nat) (data : Buffer.t) (s : System)
  : System * option Exception :=
  let s := with_this (set_starting false) (on_proc p (set_listeners Orphaned) s) in
  match Buffer.readUInt8 data 0 with
  | None => (s, Some RangeError)
  | Some c =>
  let chan := fromCharCode c in
  match Buffer.readUInt32BE data 1 with
  | None => (s, Some RangeError)
  | Some bodyLength =>
  let bodyData := Buffer.slice data 5 (5 + bodyLength) in
  let body : Exception + string :=
    if Ascii.eqb chan "r" then
      match Buffer.readInt32BE bodyData 0 with
      | Some n => inr (pretty n)
      | None => inl RangeError
      end
    else
      match toString (encoding (this s)) bodyData with
      | Some text => inr (removeNUL text)
      | None => inl TypeError
      end in
  match body with
  | inl e => (s, Some e)
  | inr body =>
  match parseCapabilitiesAndEncoding body with
  | inl e => (s, Some e)
  | inr (capabilities, encoding) =>
      let s := with_this (set_negotiated capabilities encoding) s in
      let s :=
        if bool_decide ("runcommand"%string ∈ capabilities) then s
        else on_proc p (settle_started (Rejected "runcommand not available")) s in
      match started <$> procs s !! p with
      | Some Pending =>
          (attachListeners
             (with_this (set_serverProcess (Some p))
                (on_proc p (set_started (Fulfilled ())) s)), None)
      | _ => (s, None)
      end
  end end end end.

(** *** stderr and exit *)

(** [console.error(data)] *)
Definition handleServerError (data : Buffer.t) (s : System) : System :=
  log (string_of_list_byte data) s.

Definition onStderr (p : nat) (data : Buffer.t) (s : System) : System :=
  let early (s : System) :=
    if starting (this s)
    then on_proc p (settle_started (Rejected (string_of_list_byte data))) s
    else handleServerError data s in
  match listeners <$> procs s !! p with
  | Some Spawned | Some Orphaned => early s
  | Some Listening =>
      on_proc p (fun c =>
        set_vars {| errorBuffers := errorBuffers (vars c) ++ [data];
                    outputBodies := outputBodies (vars c);
                    errorBodies := errorBodies (vars c);
                    exitCodeVar := exitCodeVar (vars c) |} c) (early s)
  | _ => s
  end.

(** The exit listener of [attachListeners]; [code] is the exit code as the
    template string prints it. *)
Definition onExit (p : nat) (code : string) (s : System) : System :=
  match listeners <$> procs s !! p with
  | Some Listening =>
      let s := log ("hg command server was closed unexpectedly: " ++ code ++ LF) s in
      let s := stop true s in
      start (hgPath (this s)) s
  | _ => s
  end.

(** *** The stdout listener of [attachListeners] *)

(** How one turn of the [while] loop ends. *)
Inductive Step :=
| Continue (offset : Z) (s : System) (v : Closure)
| Await (stdout : string) (length : Z) (offset : Z) (s : System) (v : Closure)
| Return (s : System) (v : Closure)
| Throw (e : Exception) (s : System) (v : Closure).

(** How a run of the listener ends: the loop is left, the handler is parked
    at its [await], or an exception rejects the promise of the [async]
    function. [OutOfFuel] is for the model only. *)
Inductive Outcome :=
| Finished (s : System) (v : Closure)
| Suspended (k : Suspension) (s : System) (v : Closure)
| Threw (e : Exception) (s : System) (v : Closure)
| OutOfFuel (s : System) (v : Closure).

(** [if (exitCode !== undefined) { ... }] at the end of the loop body. *)
Definition finishFrame (offset : Z) (s : System) (v : Closure) : Step :=
  match exitCodeVar v with
  | None => Continue offset s v
  | Some code =>
      let answer := {| exitCode := code;
                       stdout := String.concat "" (outputBodies v);
                       stderr := String.concat "" (errorBodies v) |} in
      let v := reset v in
      let '(command, s) := dequeueCommand s in
      let s := match command with
               | Some command => resolve (result command) answer s
               | None => s
               end in
      if stopWhenQueueEmpty (this s) && (length (commandQueue (this s)) =? 0)%nat
      then Return (stop false s) v
      else Continue offset s v
  end.

Definition set_exitCode (code : Z) (v : Closure) : Closure :=
  {| errorBuffers := errorBuffers v; outputBodies := outputBodies v;
     errorBodies := errorBodies v; exitCodeVar := Some code |}.

Definition push_outputBodies (body : string) (v : Closure) : Closure :=
  {| errorBuffers := errorBuffers v; outputBodies := outputBodies v ++ [body];
     errorBodies := errorBodies v; exitCodeVar := exitCodeVar v |}.

Definition push_errorBodies (body : string) (v : Closure) : Closure :=
  {| errorBuffers := errorBuffers v; outputBodies := outputBodies v;
     errorBodies := errorBodies v ++ [body]; exitCodeVar := exitCodeVar v |}.

(** [if (chan === OUTPUT_CHANNEL) ... else if (chan === ERROR_CHANNEL) ...] *)
Definition accumulate (chan : ascii) (body : string) (v : Closure) : Closure :=
  if Ascii.eqb chan OUTPUT_CHANNEL then push_outputBodies body v
  else if Ascii.eqb chan ERROR_CHANNEL then push_errorBodies body v
  else v.

(** One turn of [while (offset < data.length)], up to the [await] of the
    line channel when the frame is a line-input request. *)
Definition iteration (data : Buffer.t) (offset : Z) (s : System) (v : Closure) : Step :=
  match Buffer.readUInt8 data offset with
  | None => Throw RangeError s v
  | Some c =>
  let chan := fromCharCode c in
  match Buffer.readUInt32BE data (offset + 1) with
  | None => Throw RangeError s v
  | Some length =>
  let offset := offset + 5 in
  if Ascii.eqb chan RESULT_CHANNEL then
    match Buffer.readUInt32BE data offset with
    | None => Throw RangeError s v
    | Some code => finishFrame (offset + length) s (set_exitCode code v)
    end
  else if Ascii.eqb chan LINE_CHANNEL then
    Await (String.concat "" (outputBodies v)) length offset s v
  else
    let bodySlice := Buffer.slice data offset (offset + length) in
    match toString (encoding (this s)) bodySlice with
    | None => Throw TypeError s v
    | Some body => finishFrame (offset + length) s (accumulate chan body v)
    end
  end end.

(** The rest of the turn once [handleChoices] has answered [response]; [p]
    is the [serverProcess] constant of [attachListeners]. *)
Definition afterAwait (p : nat) (response : string) (offset : Z) (s : System)
    (v : Closure) : Step :=
  let s := serverSendLineInput p (encoding (this s)) response s in
  finishFrame (offset + 0) s v.

Definition proceed (again : Z → System → Closure → Outcome) (p : nat)
    (data : Buffer.t) (step : Step) : Outcome :=
  match step with
  | Continue offset s v => again offset s v
  | Await out length offset s v =>
      Suspended {| k_proc := p; k_data := data; k_offset := offset;
                   k_stdout := out; k_length := length |} s v
  | Return s v => Finished s v
  | Throw e s v => Threw e s v
  end.

(** The [while] loop.  Every turn moves the cursor by five bytes or more,
    so [S (length data)] turns of fuel are never used up (see
    [loop_fuel]). *)
Fixpoint loop (fuel : nat) (p : nat) (data : Buffer.t) (offset : Z) (s : System)
    (v : Closure) : Outcome :=
  if offset <? Buffer.len data then
    match fuel with
    | O => OutOfFuel s v
    | S fuel => proceed (loop fuel p data) p data (iteration data offset s v)
    end
  else Finished s v.

(** The handler resumes where it was parked. *)
Definition resume (k : Suspension) (response : string) (s : System) (v : Closure)
  : Outcome :=
  proceed (loop (S (length (k_data k))) (k_proc k) (k_data k)) (k_proc k) (k_data k)
    (afterAwait (k_proc k) response (k_offset k) s v).

(** The shared variables go back to the closure of [p]'s listeners; a
    parked handler joins the queue of pending [handleChoices] calls. *)
Definition park (p : nat) (o : Outcome) : System :=
  match o with
  | Finished s v | Threw _ s v | OutOfFuel s v => on_proc p (set_vars v) s
  | Suspended k s v => with_awaiting (fun l => l ++ [k]) (on_proc p (set_vars v) s)
  end.

(** A ["data"] event on the stdout of child [p]. *)
Definition onStdout (p : nat) (data : Buffer.t) (s : System) : System :=
  match procs s !! p with
  | Some c =>
      match listeners c with
      | Spawned => fst (firstBurst p data s)
      | Listening => park p (loop (S (length data)) p data 0 s (vars c))
      | _ => s
      end
  | None => s
  end.

(** The oldest pending [handleChoices] call answers.  Between the arrival
    that parked the handler and this event any other event may take place.
    A bridge that rejects instead of answering is not modelled. *)
Definition onAnswer (response : string) (s : System) : System :=
  match awaiting s with
  | [] => s
  | k :: rest =>
      let s := with_awaiting (fun _ => rest) s in
      match procs s !! k_proc k with
      | Some c => park (k_proc k) (resume k response s (vars c))
      | None => s
      end
  end.

(** ** Events *)

Inductive Event :=
| Runcommand (args : list string)
| Stop (force : bool)
| Stdout (p : nat) (data : Buffer.t)
| Stderr (p : nat) (data : Buffer.t)
| Exit (p : nat) (code : string)
| Answer (response : string).

Definition step (s : System) (e : Event) : System :=
  match e with
  | Runcommand args => snd (runcommand args s)
  | Stop force => stop force s
  | Stdout p data => onStdout p data s
  | Stderr p data => onStderr p data s
  | Exit p code => onExit p code s
  | Answer response => onAnswer response s
  end.

Definition run (s : System) (events : list Event) : System :=
  foldl step s events.

(** [HgCommandServer.start(hgPath, repository, logger)] up to its [await]:
    the child is process 0. *)
Definition launch (path repository : string) : System :=
  start (Some path) (create repository).

(** A change of the system under a [Step]. *)
Definition mapStep (F : System → System) (st : Step) : Step :=
  match st with
  | Continue o s v => Continue o (F s) v
  | Await out n o s v => Await out n o (F s) v
  | Return s v => Return (F s) v
  | Throw e s v => Throw e (F s) v
  end.

Definition stateOf (st : Step) : System :=
  match st with
  | Continue _ s _ | Await _ _ _ s _ | Return s _ | Throw _ s _ => s
  end.

Definition setOffset (offset : Z) (st : Step) : Step :=
  match st with
  | Continue _ s v => Continue offset s v
  | Await out n _ s v => Await out n offset s v
  | other => other
  end.

(** What a step leaves alone: the parked handlers and the set of children. *)
Definition sameShape (s s' : System) : Prop :=
  awaiting s' = awaiting s ∧ length (procs s') = length (procs s).

(** The head of the queue, if there is one, is taken off and resolved:
    what [finishFrame] does with a result before it looks at
    [stopWhenQueueEmpty] ([finishFrame_result]). *)
Definition deliverResult (answer : IExecutionResult) (s : System) : System :=
  let '(command, s) := dequeueCommand s in
  match command with
  | Some command => resolve (result command) answer s
  | None => s
  end.

(** The server runs on child [p], whose listeners are attached, and no
    handler is parked. *)
Definition attached (p : nat) (s : System) : Prop :=
  serverProcess (this s) = Some p
  ∧ (∃ c, procs s !! p = Some c ∧ listeners c = Listening)
  ∧ awaiting s = [].

(** The listeners of child [p] are removed and no handler is parked. *)
Definition detached (p : nat) (s : System) : Prop :=
  (∃ c, procs s !! p = Some c ∧ listeners c = Detached) ∧ awaiting s = [].

(** [buffer.toString] knows the negotiated encoding. *)
Definition decodes (s : System) : Prop :=
  ∀ data, is_Some (toString (encoding (this s)) data).

(** ** Arrivals of whole frames

    The listener as it acts on a frame that lies complete in the arrival;
    [next] is the offset of the byte after the frame.  [iteration_frame]
    shows that [iteration] does this on the encoded frame. *)
Definition frameStep (f : Frame) (next : Z) (s : System) (v : Closure) : Step :=
  if isResult f then finishFrame next s (set_exitCode (resultCode f) v)
  else if isLine f then Await (String.concat "" (outputBodies v)) (size f) next s v
  else
    match toString (encoding (this s)) (body f) with
    | None => Throw TypeError s v
    | Some text => finishFrame next s (accumulate (tag f) text v)
    end.

(** An arrival made of whole frames, each line request of which is
    answered before anything else happens. *)
Definition arrival (p : nat) (frames : list Frame) (answers : list string)
  : list Event :=
  Stdout p (encodes frames) :: map Answer answers.

(** The state such an arrival leads to ([run_arrival]). *)
Fixpoint dispatch (p : nat) (frames : list Frame) (answers : list string)
    (s : System) (v : Closure) : System :=
  match frames with
  | [] => on_proc p (set_vars v) s
  | f :: frames =>
      match frameStep f 0 s v with
      | Continue _ s v => dispatch p frames answers s v
      | Await _ _ _ s v =>
          match answers with
          | response :: answers =>
              match afterAwait p response 0 s v with
              | Continue _ s v => dispatch p frames answers s v
              | Await _ _ _ s v | Return s v | Throw _ s v => on_proc p (set_vars v) s
              end
          | [] => on_proc p (set_vars v) s
          end
      | Return s v | Throw _ s v => on_proc p (set_vars v) s
      end
  end.

(** The server runs on child [p], whose listeners are attached and idle:
    no handler is parked and no exit code is waiting to be delivered. *)
Definition running (p : nat) (s : System) : bool :=
  bool_decide (serverProcess (this s) = Some p) &&
  match procs s !! p with
  | Some c =>
      match listeners c, exitCodeVar (vars c) with
      | Listening, None => true
      | _, _ => false
      end
  | None => false
  end &&
  match awaiting s with
  | [] => true
  | _ => false
  end.

(** The same frames, in several arrivals or in one. *)
Definition arrivals (p : nat) (parts : list (list Frame * list string)) : list Event :=
  concat (map (fun part => arrival p (fst part) (snd part)) parts).

Definition joined (p : nat) (parts : list (list Frame * list string)) : list Event :=
  arrival p (concat (map fst parts)) (concat (map snd parts)).

Definition wellFormedPart (part : list Frame * list string) : bool :=
  forallb wellFormed (fst part) &&
  (length (filter isLine (fst part)) =? length (snd part))%nat.

(** *** Sessions: commands and arrivals interleaved *)

(** Every queued command has a promise of its own that is still pending. *)
Definition pendingQueue (s : System) : Prop :=
  NoDup (map result (commandQueue (this s)))
  ∧ ∀ c, c ∈ commandQueue (this s) → promises s !! result c = Some Pending.

(** A promise that is settled in [s] is settled the same way in [s']. *)
Definition settledStable (s s' : System) : Prop :=
  ∀ d r, promises s !! d = Some (Fulfilled r) → promises s' !! d = Some (Fulfilled r).


Inductive Item :=
| Command (args : list string)
| Arrival (frames : list Frame) (answers : list string).

Definition events (p : nat) (trace : list Item) : list Event :=
  concat (map (fun i => match i with
                        | Command args => [Runcommand args]
                        | Arrival frames answers => arrival p frames answers
                        end) trace).

(** The promises that the [runcommand] calls among [es] return. *)
Fixpoint returned (s : System) (es : list Event) : list nat :=
  match es with
  | [] => []
  | Runcommand args :: es => fst (runcommand args s) :: returned (step s (Runcommand args)) es
  | e :: es => returned (step s e) es
  end.

(** The numbers of the result frames of a session, in stream order, each
    read unsigned ([resultCode]). *)
Definition codes (trace : list Item) : list Z :=
  concat (map (fun i => match i with
                        | Command _ => []
                        | Arrival frames _ => map resultCode (filter isResult frames)
                        end) trace).

(** A session is well formed when its frames are, when every line request
    has its answer, and when the server sends no result before the command
    it belongs to was written; [pending] counts the commands that still
    wait for their result. *)
Fixpoint wellFormedTrace (pending : nat) (trace : list Item) : bool :=
  match trace with
  | [] => true
  | Command _ :: trace => wellFormedTrace (S pending) trace
  | Arrival frames answers :: trace =>
      forallb wellFormed frames &&
      (length (filter isLine frames) =? length answers)%nat &&
      (length (filter isResult frames) <=? pending)%nat &&
      wellFormedTrace (pending - length (filter isResult frames)) trace
  end.

(** Nothing can settle the promise of [start] any more: no server process,
    no child that still has the listeners of its first burst or those of
    [attachListeners], no parked handler. *)
Definition stalled (s : System) : Prop :=
  serverProcess (this s) = None
  ∧ starting (this s) = false
  ∧ awaiting s = []
  ∧ Forall (fun c => listeners c = Orphaned ∨ listeners c = Detached) (procs s).

End Server.

(** ** A sample session

    A server started in [/repo]: its first burst announces the capabilities,
    then [hg status] is sent. *)
Module Sample.

Definition toString := Buffer.singleByteToString.
Definition env : gmap string string := ∅.
Definition cwd : string := "/home/user".

Definition hello : Buffer.t :=
  encode (outputFrame (list_byte_of_string
    ("capabilities: getencoding runcommand" ++ LF ++ "encoding: UTF-8"))).

Definition spawned : System := launch env cwd "/usr/bin/hg" "/repo".

Definition ready : System := run toString env cwd spawned [Stdout 0 hello].

Definition busy : System := run toString env cwd ready [Runcommand ["status"%string]].

Definition bytes (text : string) : Buffer.t := list_byte_of_string text.

(** The variables of the listeners when nothing has arrived yet. *)
Definition idle : Closure :=
  {| errorBuffers := []; outputBodies := []; errorBodies := []; exitCodeVar := None |}.

(** Three commands, written ahead of their results; the second one asks a
    question. *)
Definition session : list Item :=
  [ Command ["status"%string];
    Command ["merge"%string];
    Arrival [outputFrame (bytes "M a.txt"); resultFrame 0] [];
    Command ["log"%string];
    Arrival [outputFrame (bytes "keep (l)ocal or take (o)ther?"); lineFrame 4096;
             errorFrame (bytes "merging failed"); resultFrame 1] ["l"%string];
    Arrival [resultFrame 255] [] ].

End Sample.

Abbreviation run_sample := (run Sample.toString Sample.env Sample.cwd).

(** ** Further definitions for the properties of the whole file *)

(** The system an [Outcome] leaves. *)
Definition outcomeState (o : Outcome) : System :=
  match o with
  | Finished s _ | Suspended _ s _ | Threw _ s _ | OutOfFuel s _ => s
  end.

(** A change that touches neither the promises nor the queue. *)
Definition quiet (s s' : System) : Prop :=
  promises s' = promises s
  ∧ resolved s' = resolved s
  ∧ commandQueue (this s') = commandQueue (this s).

(** How the promise store may change: promises are only added, a pending
    promise stays pending or becomes fulfilled, a settled promise stays as it
    is. *)
Definition evolves (s s' : System) : Prop :=
  ∀ d x, promises s !! d = Some x →
    promises s' !! d = Some x
    ∨ (x = Pending ∧ ∃ r, promises s' !! d = Some (Fulfilled r)).

Section Decoded.

Variable toString : option string → Buffer.t → option string.

(** The decoded bodies of the frames of channel [chan], in stream order. *)
Definition texts (enc : option string) (chan : ascii) (frames : list Frame)
  : list string :=
  omap (fun f => if Ascii.eqb (tag f) chan then toString enc (body f) else None) frames.

End Decoded.

(** A frame of a channel that carries a body and ends no command. *)
Definition isData (f : Frame) : bool := negb (isResult f) && negb (isLine f).

(** *** The text of the handshake *)

Fixpoint allChars (P : ascii → bool) (text : string) : bool :=
  match text with
  | EmptyString => true
  | String c rest => P c && allChars P rest
  end.

(** A text without line terminators: what a lazy group [(.*?)] can match. *)
Definition isLineText (text : string) : bool :=
  allChars (fun c => negb (lineTerminator c)) text.

(** A capability token: no space and no line terminator. *)
Definition isToken (text : string) : bool :=
  allChars (fun c => negb (lineTerminator c) && negb (Ascii.eqb c " ")) text.

(** The hello message of the command server for the capabilities [caps]
    and the encoding [enc]. *)
Definition handshakeText (caps : list string) (enc : string) : string :=
  ("capabilities: " ++ String.concat " " caps ++ LF ++ "encoding: " ++ enc)%string.

(** The backtracking loop of a lazy group in [matchHere], by its name
    ([matchHere_lazyDot]). *)
Definition lazyDot (pats : list Pat) (groups : list string)
  : string → string → option (list string) :=
  fix lazy (taken : string) (input : string) : option (list string) :=
    match matchHere pats input (groups ++ [taken]) with
    | Some r => Some r
    | None =>
        match input with
        | String c rest =>
            if lineTerminator c then None
            else lazy (taken ++ String c EmptyString)%string rest
        | EmptyString => None
        end
    end.

(** *** The system without [errorBuffers]

    [errorBuffers] is filled by the stderr listener of [attachListeners] and
    emptied by [reset]; the views below forget what it holds. *)

Definition eraseVars (v : Closure) : Closure :=
  {| errorBuffers := []; outputBodies := outputBodies v;
     errorBodies := errorBodies v; exitCodeVar := exitCodeVar v |}.

Definition eraseChild (c : ChildProcess) : ChildProcess :=
  set_vars (eraseVars (vars c)) c.

Definition erase (s : System) : System :=
  with_procs (fmap eraseChild) s.

Definition eraseStep (st : Step) : Step :=
  match st with
  | Continue o s v => Continue o (erase s) (eraseVars v)
  | Await out n o s v => Await out n o (erase s) (eraseVars v)
  | Return s v => Return (erase s) (eraseVars v)
  | Throw e s v => Throw e (erase s) (eraseVars v)
  end.

Definition eraseOutcome (o : Outcome) : Outcome :=
  match o with
  | Finished s v => Finished (erase s) (eraseVars v)
  | Suspended k s v => Suspended k (erase s) (eraseVars v)
  | Threw e s v => Threw e (erase s) (eraseVars v)
  | OutOfFuel s v => OutOfFuel (erase s) (eraseVars v)
  end.

(** *** Lines of a text *)

Fixpoint hasLF (text : string) : bool :=
  match text with
  | EmptyString => false
  | String c rest => Ascii.eqb c "010" || hasLF rest
  end.

(** What follows the last line feed of [text]. *)
Fixpoint lastLine (text : string) : string :=
  match text with
  | EmptyString => EmptyString
  | String c rest =>
      if hasLF rest then lastLine rest
      else if Ascii.eqb c "010" then rest else text
  end.

(** *** Who listens *)

(** The listeners registered on child [p], if there is such a child. *)
Definition listenersOf (s : System) (p : nat) : option Listeners :=
  listeners <$> procs s !! p.

(** A child that is starting up or serving. *)
Definition isActive (l : option Listeners) : Prop :=
  l = Some Spawned ∨ l = Some Listening.

(** At most one child is starting up or serving, [serverProcess] is the
    child that carries the listeners of [attachListeners], and [starting] is
    set while a child waits for its first burst. *)
Definition coherent (s : System) : Prop :=
  (∀ p q, isActive (listenersOf s p) → isActive (listenersOf s q) → p = q)
  ∧ (∀ p, serverProcess (this s) = Some p ↔ listenersOf s p = Some Listening)
  ∧ (starting (this s) = true ↔ ∃ p, listenersOf s p = Some Spawned).

Definition sameListeners (s s' : System) : Prop :=
  serverProcess (this s') = serverProcess (this s)
  ∧ starting (this s') = starting (this s)
  ∧ ∀ p, listenersOf s' p = listenersOf s p.

(** * Properties *)

(** ** Reading from a buffer *)

Ltac zbool :=
  repeat match goal with
  | H : (_ <=? _) = true |- _ => apply Z.leb_le in H
  | H : (_ <=? _) = false |- _ => apply Z.leb_gt in H
  | H : (_ <? _) = true |- _ => apply Z.ltb_lt in H
  | H : (_ <? _) = false |- _ => apply Z.ltb_ge in H
  | H : (_ =? _) = true |- _ => apply Z.eqb_eq in H
  | H : (_ =? _) = false |- _ => apply Z.eqb_neq in H
  end.

Lemma len_app (a b : Buffer.t) : Buffer.len (a ++ b) = Buffer.len a + Buffer.len b.
Proof. unfold Buffer.len. rewrite length_app. lia. Qed.

Lemma len_nonneg (a : Buffer.t) : 0 <= Buffer.len a.
Proof. unfold Buffer.len. lia. Qed.

Lemma len_cons (b : byte) (a : Buffer.t) : Buffer.len (b :: a) = 1 + Buffer.len a.
Proof. unfold Buffer.len. simpl length. lia. Qed.

Lemma byteZ_range (b : byte) : 0 <= Buffer.byteZ b < 256.
Proof.
  unfold Buffer.byteZ. pose proof (Byte.to_N_bounded b). lia.
Qed.

Lemma byteZ_of_Z (z : Z) : Buffer.byteZ (Buffer.byte_of_Z z) = z mod 256.
Proof.
  unfold Buffer.byteZ, Buffer.byte_of_Z.
  assert (Hr : 0 <= z mod 256 < 256) by (apply Z.mod_pos_bound; lia).
  destruct (Byte.of_N (Z.to_N (z mod 256))) as [b|] eqn:E.
  - apply Byte.to_of_N in E. simpl. rewrite E. lia.
  - apply Byte.of_N_None_iff in E. lia.
Qed.

Lemma fromCharCode_byte (a : ascii) :
  fromCharCode (Buffer.byteZ (byte_of_ascii a)) = a.
Proof.
  unfold fromCharCode, Buffer.byteZ. rewrite N2Z.id.
  rewrite <- ascii_of_byte_via_N. apply ascii_of_byte_of_ascii.
Qed.

Lemma readUInt8_at (pre post : Buffer.t) (b : byte) :
  Buffer.readUInt8 (pre ++ b :: post) (Buffer.len pre) = Some (Buffer.byteZ b).
Proof.
  unfold Buffer.readUInt8, Buffer.len.
  destruct (0 <=? Z.of_nat (length pre)) eqn:E; [|zbool; lia].
  rewrite Nat2Z.id, list_lookup_middle; done.
Qed.

Lemma uint32BE_value (n : Z) :
  0 <= n < 2 ^ 32 →
  (n / 2 ^ 24) mod 256 * 2 ^ 24 + (n / 2 ^ 16) mod 256 * 2 ^ 16
  + (n / 2 ^ 8) mod 256 * 2 ^ 8 + n mod 256 = n.
Proof.
  intros Hn.
  change (2 ^ 24) with 16777216. change (2 ^ 16) with 65536.
  change (2 ^ 8) with 256. change (2 ^ 32) with 4294967296 in Hn.
  Z.to_euclidean_division_equations; lia.
Qed.

Lemma readUInt32BE_at (pre post : Buffer.t) (n : Z) :
  0 <= n < 2 ^ 32 →
  Buffer.readUInt32BE (pre ++ Buffer.uint32BE n ++ post) (Buffer.len pre) = Some n.
Proof.
  intros Hn. unfold Buffer.readUInt32BE, Buffer.len.
  destruct (0 <=? Z.of_nat (length pre)) eqn:E; [|zbool; lia].
  rewrite Nat2Z.id, drop_app_length. unfold Buffer.uint32BE. simpl.
  rewrite !byteZ_of_Z. f_equal. by apply uint32BE_value.
Qed.

Lemma readUInt32BE_short (data : Buffer.t) (offset : Z) :
  Buffer.len data < offset + 4 → Buffer.readUInt32BE data offset = None.
Proof.
  unfold Buffer.readUInt32BE, Buffer.len. intros H.
  destruct (0 <=? offset) eqn:E; [|done].
  assert (Hl : (length (drop (Z.to_nat offset) data) < 4)%nat)
    by (rewrite length_drop; lia).
  destruct (drop (Z.to_nat offset) data) as [|? [|? [|? [|? ?]]]]; simpl in Hl; try done; lia.
Qed.

Lemma adjustOffset_within (x l : Z) : 0 <= x <= l → Buffer.adjustOffset x l = x.
Proof. unfold Buffer.adjustOffset. intros H. repeat case_match; zbool; lia. Qed.

Lemma adjustOffset_beyond (x l : Z) : 0 <= l <= x → Buffer.adjustOffset x l = l.
Proof. unfold Buffer.adjustOffset. intros H. repeat case_match; zbool; lia. Qed.

Lemma slice_at (pre body post : Buffer.t) :
  Buffer.slice (pre ++ body ++ post) (Buffer.len pre) (Buffer.len pre + Buffer.len body)
  = body.
Proof.
  unfold Buffer.slice.
  pose proof (len_nonneg pre). pose proof (len_nonneg body). pose proof (len_nonneg post).
  rewrite !adjustOffset_within by (rewrite !len_app; lia).
  unfold Buffer.len. rewrite Nat2Z.id, drop_app_length.
  replace (Z.to_nat (Z.of_nat (length pre) + Z.of_nat (length body) - Z.of_nat (length pre)))
    with (length body) by lia.
  by rewrite take_app_length.
Qed.

Lemma readUInt32BE_inner (pre body post : Buffer.t) :
  length body = 4%nat →
  Buffer.readUInt32BE (pre ++ body ++ post) (Buffer.len pre) = Buffer.readUInt32BE body 0.
Proof.
  intros Hl. unfold Buffer.readUInt32BE, Buffer.len.
  destruct (0 <=? Z.of_nat (length pre)) eqn:E; [|zbool; lia].
  rewrite Nat2Z.id, drop_app_length.
  destruct body as [|b0 [|b1 [|b2 [|b3 [|]]]]]; simpl in Hl; try lia.
  reflexivity.
Qed.

Lemma len_uint32BE (n : Z) : Buffer.len (Buffer.uint32BE n) = 4.
Proof. reflexivity. Qed.

Lemma len_encode (f : Frame) : Buffer.len (encode f) = 5 + Buffer.len (body f).
Proof. unfold encode. rewrite len_cons, len_app, len_uint32BE. lia. Qed.

(** The header and the body of a frame that lies at [len pre]. *)
Lemma frame_tag_at (pre post : Buffer.t) (f : Frame) :
  fromCharCode <$> Buffer.readUInt8 (pre ++ encode f ++ post) (Buffer.len pre)
  = Some (tag f).
Proof.
  unfold encode. simpl. rewrite readUInt8_at. simpl. by rewrite fromCharCode_byte.
Qed.

Lemma frame_size_at (pre post : Buffer.t) (f : Frame) :
  0 <= size f < 2 ^ 32 →
  Buffer.readUInt32BE (pre ++ encode f ++ post) (Buffer.len pre + 1) = Some (size f).
Proof.
  intros Hn. unfold encode.
  replace (pre ++ (byte_of_ascii (tag f) :: Buffer.uint32BE (size f) ++ body f) ++ post)
    with ((pre ++ [byte_of_ascii (tag f)]) ++ Buffer.uint32BE (size f) ++ body f ++ post)
    by (by rewrite <- !app_assoc).
  replace (Buffer.len pre + 1) with (Buffer.len (pre ++ [byte_of_ascii (tag f)]))
    by (rewrite len_app; reflexivity).
  by apply readUInt32BE_at.
Qed.

Lemma frame_body_split (pre post : Buffer.t) (f : Frame) :
  pre ++ encode f ++ post
  = (pre ++ byte_of_ascii (tag f) :: Buffer.uint32BE (size f)) ++ body f ++ post
  ∧ Buffer.len (pre ++ byte_of_ascii (tag f) :: Buffer.uint32BE (size f))
    = Buffer.len pre + 5.
Proof.
  split.
  - unfold encode. by rewrite <- !app_assoc.
  - rewrite len_app, len_cons, len_uint32BE. lia.
Qed.

Lemma frame_body_at (pre post : Buffer.t) (f : Frame) :
  Buffer.slice (pre ++ encode f ++ post) (Buffer.len pre + 5)
    (Buffer.len pre + 5 + Buffer.len (body f)) = body f.
Proof.
  destruct (frame_body_split pre post f) as [-> <-]. apply slice_at.
Qed.

Lemma frame_code_at (pre post : Buffer.t) (f : Frame) :
  length (body f) = 4%nat →
  Buffer.readUInt32BE (pre ++ encode f ++ post) (Buffer.len pre + 5)
  = Some (resultCode f).
Proof.
  intros Hl. destruct (frame_body_split pre post f) as [-> <-].
  rewrite readUInt32BE_inner by done. unfold resultCode.
  destruct (body f) as [|b0 [|b1 [|b2 [|b3 [|]]]]]; simpl in Hl; try lia.
  reflexivity.
Qed.

(** What [wellFormed] says, case by case. *)
Lemma wellFormed_size (f : Frame) : wellFormed f = true → 0 <= size f < 2 ^ 32.
Proof.
  unfold wellFormed. rewrite !andb_true_iff. intros [[H1 H2] _]. zbool. lia.
Qed.

Lemma wellFormed_line (f : Frame) :
  wellFormed f = true → isLine f = true → body f = [].
Proof.
  unfold wellFormed, isLine. rewrite !andb_true_iff. intros [_ H] E.
  rewrite E in H. by apply bool_decide_eq_true in H.
Qed.

Lemma wellFormed_body (f : Frame) :
  wellFormed f = true → isLine f = false → size f = Buffer.len (body f).
Proof.
  unfold wellFormed, isLine. rewrite !andb_true_iff. intros [_ H] E.
  rewrite E in H. apply andb_true_iff in H as [H _]. by zbool.
Qed.

Lemma wellFormed_result (f : Frame) :
  wellFormed f = true → isResult f = true → size f = 4 ∧ length (body f) = 4%nat.
Proof.
  intros Hw Hr.
  assert (Hl : isLine f = false).
  { unfold isLine, isResult in *. apply Ascii.eqb_eq in Hr. by rewrite Hr. }
  pose proof (wellFormed_body f Hw Hl) as Hb.
  unfold wellFormed, isLine, isResult in *. rewrite !andb_true_iff in Hw.
  destruct Hw as [_ H]. rewrite Hl in H. apply andb_true_iff in H as [_ H].
  rewrite Hr in H. zbool. unfold Buffer.len in Hb. lia.
Qed.

Section Properties.

Variable toString : option string → Buffer.t → option string.
Variable process_env : gmap string string.
Variable process_cwd : string.

Local Abbreviation iteration := (iteration toString).
Local Abbreviation loop := (loop toString).
Local Abbreviation resume := (resume toString).
Local Abbreviation frameStep := (frameStep toString).
Local Abbreviation dispatch := (dispatch toString).
Local Abbreviation onStdout := (onStdout toString).
Local Abbreviation onAnswer := (onAnswer toString).
Local Abbreviation step := (step toString process_env process_cwd).
Local Abbreviation run := (run toString process_env process_cwd).
Local Abbreviation returned := (returned toString process_env process_cwd).

(** ** The listener on a whole frame *)

Lemma iteration_frame (pre post : Buffer.t) (f : Frame) (s : System) (v : Closure) :
  wellFormed f = true →
  iteration (pre ++ encode f ++ post) (Buffer.len pre) s v
  = frameStep f (Buffer.len pre + Buffer.len (encode f)) s v.
Proof.
  intros Hw. pose proof (wellFormed_size f Hw) as Hn.
  unfold iteration, frameStep.
  pose proof (frame_tag_at pre post f) as Ht.
  destruct (Buffer.readUInt8 _ _) as [c|]; [|done].
  simpl in Ht. injection Ht as Ht. rewrite Ht.
  rewrite frame_size_at by done. rewrite len_encode.
  fold (isResult f). fold (isLine f).
  destruct (isResult f) eqn:Er.
  - destruct (wellFormed_result f Hw Er) as [Hs Hl].
    rewrite frame_code_at by done.
    f_equal. unfold Buffer.len. lia.
  - destruct (isLine f) eqn:El.
    + rewrite (wellFormed_line f Hw El). f_equal.
    + rewrite (wellFormed_body f Hw El), frame_body_at.
      destruct (toString _ _); [|done]. f_equal. lia.
Qed.

(** ** Termination of the loop *)

Lemma readUInt32BE_nonneg (data : Buffer.t) (offset n : Z) :
  Buffer.readUInt32BE data offset = Some n → 0 <= n < 2 ^ 32.
Proof.
  unfold Buffer.readUInt32BE. destruct (0 <=? offset); [|done].
  destruct (drop _ _) as [|b0 [|b1 [|b2 [|b3 ?]]]]; try done.
  intros [= <-].
  pose proof (byteZ_range b0). pose proof (byteZ_range b1).
  pose proof (byteZ_range b2). pose proof (byteZ_range b3).
  change (2 ^ 24) with 16777216. change (2 ^ 16) with 65536.
  change (2 ^ 8) with 256. change (2 ^ 32) with 4294967296. lia.
Qed.

Lemma finishFrame_cases (next : Z) (s : System) (v : Closure) :
  (∃ s' v', finishFrame next s v = Continue next s' v')
  ∨ (∃ s' v', finishFrame next s v = Return s' v').
Proof.
  unfold finishFrame. destruct (exitCodeVar v); [|by left; eauto].
  destruct (dequeueCommand s) as [command s']. destruct (_ && _); eauto.
Qed.

Lemma iteration_advances (data : Buffer.t) (offset : Z) (s : System) (v : Closure)
    (offset' : Z) (s' : System) (v' : Closure) :
  iteration data offset s v = Continue offset' s' v' → offset + 5 <= offset'.
Proof.
  unfold iteration.
  destruct (Buffer.readUInt8 _ _); [|done].
  destruct (Buffer.readUInt32BE data (offset + 1)) as [n|] eqn:En; [|done].
  apply readUInt32BE_nonneg in En.
  assert (Hf : ∀ s0 v0, finishFrame (offset + 5 + n) s0 v0 = Continue offset' s' v'
                → offset + 5 <= offset').
  { intros s0 v0 H. destruct (finishFrame_cases (offset + 5 + n) s0 v0)
      as [(? & ? & E)|(? & ? & E)]; rewrite E in H; [|done].
    injection H as <- _ _. lia. }
  destruct (Ascii.eqb _ RESULT_CHANNEL).
  { destruct (Buffer.readUInt32BE data (offset + 5)); [|done]. apply Hf. }
  destruct (Ascii.eqb _ LINE_CHANNEL); [done|].
  destruct (toString _ _); [|done]. apply Hf.
Qed.

Lemma loop_unfold (fuel p : nat) (data : Buffer.t) (offset : Z) (s : System)
    (v : Closure) :
  loop (S fuel) p data offset s v
  = if offset <? Buffer.len data
    then proceed (loop fuel p data) p data (iteration data offset s v)
    else Finished s v.
Proof. reflexivity. Qed.

(** With five bytes of input per unit of fuel the loop does not stop for
    lack of fuel. *)
Lemma loop_fuel (fuel : nat) (p : nat) (data : Buffer.t) (offset : Z) (s : System)
    (v : Closure) :
  Buffer.len data - offset < 5 * Z.of_nat fuel →
  ∀ s' v', loop fuel p data offset s v ≠ OutOfFuel s' v'.
Proof.
  revert offset s v. induction fuel as [|fuel IH]; intros offset s v Hlt s' v'.
  - simpl. destruct (offset <? Buffer.len data) eqn:E; [zbool; lia | done].
  - rewrite loop_unfold. destruct (offset <? Buffer.len data) eqn:E; [|done].
    destruct (iteration data offset s v) as [o1 s1 v1| | |] eqn:Ei; simpl; try done.
    apply iteration_advances in Ei. apply IH. lia.
Qed.

(** The stdout listener always comes to an end. *)
Lemma onStdout_fuel (p : nat) (data : Buffer.t) (s : System) (v : Closure) :
  ∀ s' v', loop (S (length data)) p data 0 s v ≠ OutOfFuel s' v'.
Proof. apply loop_fuel. unfold Buffer.len. lia. Qed.

(** ** The loop on whole frames *)

Lemma loop_frame (fuel p : nat) (pre post : Buffer.t) (f : Frame) (s : System)
    (v : Closure) :
  wellFormed f = true →
  loop (S fuel) p (pre ++ encode f ++ post) (Buffer.len pre) s v
  = proceed (loop fuel p (pre ++ encode f ++ post)) p (pre ++ encode f ++ post)
      (frameStep f (Buffer.len pre + Buffer.len (encode f)) s v).
Proof.
  intros Hw. rewrite loop_unfold.
  destruct (Buffer.len pre <? Buffer.len (pre ++ encode f ++ post)) eqn:E.
  - by rewrite iteration_frame.
  - zbool. rewrite !len_app, len_encode in E.
    pose proof (len_nonneg (body f)). pose proof (len_nonneg post). lia.
Qed.

Lemma loop_end (fuel p : nat) (data : Buffer.t) (offset : Z) (s : System) (v : Closure) :
  Buffer.len data <= offset → loop fuel p data offset s v = Finished s v.
Proof.
  intros H. destruct fuel; simpl; destruct (offset <? Buffer.len data) eqn:E;
    try done; zbool; lia.
Qed.

(** ** Updates of child processes commute *)

Lemma alter_comm {A} (f g : A → A) (p q : nat) (l : list A) :
  (∀ x, f (g x) = g (f x)) → alter f p (alter g q l) = alter g q (alter f p l).
Proof.
  intros H. revert p q.
  induction l as [|x l IH]; intros [|p] [|q]; simpl; f_equal; auto; apply IH.
Qed.

Lemma alter_absorb {A} (f g : A → A) (p : nat) (l : list A) :
  (∀ x, f (g x) = f x) → alter f p (alter g p l) = alter f p l.
Proof.
  intros H. revert p.
  induction l as [|x l IH]; intros [|p]; simpl; f_equal; auto; apply IH.
Qed.

Lemma on_proc_comm (p q : nat) (f g : ChildProcess → ChildProcess) (s : System) :
  (∀ c, f (g c) = g (f c)) → on_proc p f (on_proc q g s) = on_proc q g (on_proc p f s).
Proof.
  intros H. unfold on_proc, with_procs. simpl. f_equal. by apply alter_comm.
Qed.

Lemma on_proc_absorb (p : nat) (f g : ChildProcess → ChildProcess) (s : System) :
  (∀ c, f (g c) = f c) → on_proc p f (on_proc p g s) = on_proc p f s.
Proof.
  intros H. unfold on_proc, with_procs. simpl. f_equal. by apply alter_absorb.
Qed.

Lemma resolve_vars (p : nat) (w : Closure) (d : nat) (c : IExecutionResult) (s : System) :
  resolve d c (on_proc p (set_vars w) s) = on_proc p (set_vars w) (resolve d c s).
Proof.
  unfold resolve. simpl. destruct (promises s !! d) as [[| |]|]; reflexivity.
Qed.

Lemma stop_vars (p : nat) (w : Closure) (force : bool) (s : System) :
  stop force (on_proc p (set_vars w) s) = on_proc p (set_vars w) (stop force s).
Proof.
  unfold stop. simpl. destruct (serverProcess (this s)) as [q|]; [|done].
  destruct (_ && _); [done|].
  change (with_this (set_serverProcess None) (on_proc q ?g (on_proc p ?f s)))
    with (with_this (set_serverProcess None) (on_proc q g (on_proc p f s))).
  rewrite (on_proc_comm q p) by done. reflexivity.
Qed.

Lemma dequeueCommand_vars (p : nat) (w : Closure) (s : System) :
  dequeueCommand (on_proc p (set_vars w) s)
  = (fst (dequeueCommand s), on_proc p (set_vars w) (snd (dequeueCommand s))).
Proof. unfold dequeueCommand. simpl. by destruct (commandQueue (this s)). Qed.

Lemma finishFrame_vars (p : nat) (w : Closure) (next : Z) (s : System) (v : Closure) :
  finishFrame next (on_proc p (set_vars w) s) v
  = mapStep (on_proc p (set_vars w)) (finishFrame next s v).
Proof.
  unfold finishFrame. destruct (exitCodeVar v) as [code|]; [|done].
  rewrite dequeueCommand_vars. destruct (dequeueCommand s) as [command s1]. simpl.
  set (answer := {| exitCode := code |}).
  assert (E : match command with
              | Some command => resolve (result command) answer (on_proc p (set_vars w) s1)
              | None => on_proc p (set_vars w) s1
              end
              = on_proc p (set_vars w)
                  match command with
                  | Some command => resolve (result command) answer s1
                  | None => s1
                  end).
  { destruct command; [apply resolve_vars|done]. }
  rewrite E. set (s2 := match command with Some _ => _ | None => _ end).
  change (this (on_proc p (set_vars w) s2)) with (this s2).
  destruct (_ && _); simpl; [|done]. by rewrite stop_vars.
Qed.

Lemma frameStep_vars (p : nat) (w : Closure) (f : Frame) (next : Z) (s : System)
    (v : Closure) :
  frameStep f next (on_proc p (set_vars w) s) v
  = mapStep (on_proc p (set_vars w)) (frameStep f next s v).
Proof.
  unfold frameStep. destruct (isResult f); [apply finishFrame_vars|].
  destruct (isLine f); [done|]. simpl.
  destruct (toString _ _); [apply finishFrame_vars|done].
Qed.

Lemma afterAwait_vars (p : nat) (w : Closure) (q : nat) (r : string) (o : Z)
    (s : System) (v : Closure) :
  afterAwait q r o (on_proc p (set_vars w) s) v
  = mapStep (on_proc p (set_vars w)) (afterAwait q r o s v).
Proof.
  unfold afterAwait, serverSendLineInput. simpl.
  rewrite (on_proc_comm q p) by done. apply finishFrame_vars.
Qed.

Lemma dispatch_vars (p : nat) (w : Closure) (frames : list Frame)
    (answers : list string) (s : System) (v : Closure) :
  dispatch p frames answers (on_proc p (set_vars w) s) v = dispatch p frames answers s v.
Proof.
  revert answers s v. induction frames as [|f frames IH]; intros answers s v; simpl.
  - by apply on_proc_absorb.
  - rewrite frameStep_vars.
    destruct (frameStep f 0 s v) as [o s1 v1|out n o s1 v1|s1 v1|e s1 v1]; simpl.
    + apply IH.
    + destruct answers as [|r answers]; [by apply on_proc_absorb|].
      rewrite afterAwait_vars.
      destruct (afterAwait p r 0 s1 v1); simpl; first [apply IH | by apply on_proc_absorb].
    + by apply on_proc_absorb.
    + by apply on_proc_absorb.
Qed.

(** ** An arrival of whole frames, event by event *)

Lemma finishFrame_offset (next : Z) (s : System) (v : Closure) :
  finishFrame next s v = setOffset next (finishFrame 0 s v).
Proof.
  unfold finishFrame. destruct (exitCodeVar v); [|done].
  destruct (dequeueCommand s) as [command s1]. by destruct (_ && _).
Qed.

Lemma frameStep_offset (f : Frame) (next : Z) (s : System) (v : Closure) :
  frameStep f next s v = setOffset next (frameStep f 0 s v).
Proof.
  unfold frameStep. destruct (isResult f); [apply finishFrame_offset|].
  destruct (isLine f); [done|].
  destruct (toString _ _); [apply finishFrame_offset|done].
Qed.

Lemma afterAwait_offset (p : nat) (r : string) (next : Z) (s : System) (v : Closure) :
  afterAwait p r next s v = setOffset next (afterAwait p r 0 s v).
Proof.
  unfold afterAwait. rewrite Z.add_0_r. apply finishFrame_offset.
Qed.

Lemma sameShape_refl (s : System) : sameShape s s.
Proof. done. Qed.

Lemma sameShape_trans (s1 s2 s3 : System) :
  sameShape s1 s2 → sameShape s2 s3 → sameShape s1 s3.
Proof. intros [? ?] [? ?]. split; congruence. Qed.

Lemma sameShape_on_proc (p : nat) (g : ChildProcess → ChildProcess) (s : System) :
  sameShape s (on_proc p g s).
Proof. split; [done|]. simpl. apply length_alter. Qed.

Lemma sameShape_stop (force : bool) (s : System) : sameShape s (stop force s).
Proof.
  unfold stop. destruct (serverProcess (this s)); [|done].
  destruct (_ && _); [done|]. split; [done|]. simpl. apply length_alter.
Qed.

Lemma sameShape_resolve (d : nat) (c : IExecutionResult) (s : System) :
  sameShape s (resolve d c s).
Proof. unfold resolve. by destruct (promises s !! d) as [[| |]|]. Qed.

Lemma sameShape_dequeue (s : System) : sameShape s (snd (dequeueCommand s)).
Proof. unfold dequeueCommand. by destruct (commandQueue (this s)). Qed.

Lemma sameShape_finishFrame (next : Z) (s : System) (v : Closure) :
  sameShape s (stateOf (finishFrame next s v)).
Proof.
  unfold finishFrame. destruct (exitCodeVar v); [|done].
  pose proof (sameShape_dequeue s) as H1.
  destruct (dequeueCommand s) as [command s1]. simpl in H1.
  set (s2 := match command with Some _ => _ | None => _ end).
  assert (H2 : sameShape s1 s2) by (destruct command; [apply sameShape_resolve|done]).
  destruct (_ && _); simpl.
  - eapply sameShape_trans; [|apply sameShape_stop].
    by eapply sameShape_trans.
  - by eapply sameShape_trans.
Qed.

Lemma sameShape_frameStep (f : Frame) (next : Z) (s : System) (v : Closure) :
  sameShape s (stateOf (frameStep f next s v)).
Proof.
  unfold frameStep. destruct (isResult f); [apply sameShape_finishFrame|].
  destruct (isLine f); [done|].
  destruct (toString _ _); [apply sameShape_finishFrame|done].
Qed.

Lemma sameShape_afterAwait (p : nat) (r : string) (next : Z) (s : System) (v : Closure) :
  sameShape s (stateOf (afterAwait p r next s v)).
Proof.
  unfold afterAwait. eapply sameShape_trans; [|apply sameShape_finishFrame].
  apply sameShape_on_proc.
Qed.

Lemma frameStep_await (f : Frame) (next : Z) (s : System) (v : Closure)
    (out : string) (n o : Z) (s1 : System) (v1 : Closure) :
  frameStep f next s v = Await out n o s1 v1 →
  isLine f = true ∧ s1 = s ∧ v1 = v.
Proof.
  unfold frameStep. destruct (isResult f).
  { intros H. destruct (finishFrame_cases next s (set_exitCode (resultCode f) v))
      as [(? & ? & E)|(? & ? & E)]; congruence. }
  destruct (isLine f); [by intros [= _ _ _ <- <-]|].
  destruct (toString _ _); [|done].
  intros H. destruct (finishFrame_cases next s (accumulate (tag f) s0 v))
      as [(? & ? & E)|(? & ? & E)]; congruence.
Qed.

Lemma answers_idle (s : System) (answers : list string) :
  awaiting s = [] → foldl step s (map Answer answers) = s.
Proof.
  intros H. induction answers as [|r answers IH]; [done|].
  simpl. unfold onAnswer. by rewrite H.
Qed.

Lemma with_awaiting_pop (s : System) (k : Suspension) :
  awaiting s = [] →
  with_awaiting (fun _ => []) (with_awaiting (fun l => l ++ [k]) s) = s.
Proof. destruct s. simpl. by intros ->. Qed.

Lemma vars_written (p : nat) (v : Closure) (s : System) :
  (p < length (procs s))%nat →
  ∃ c, procs (on_proc p (set_vars v) s) !! p = Some c ∧ vars c = v.
Proof.
  intros H. destruct (lookup_lt_is_Some_2 (procs s) p H) as [c E].
  exists (set_vars v c). split; [|done].
  simpl. by rewrite list_lookup_alter_eq, E.
Qed.

Lemma encodes_cons (f : Frame) (frames : list Frame) :
  encodes (f :: frames) = encode f ++ encodes frames.
Proof. reflexivity. Qed.

Lemma count_cons (P : Frame → bool) (f : Frame) (frames : list Frame) :
  length (filter P (f :: frames))
  = ((if P f then 1 else 0) + length (filter P frames))%nat.
Proof.
  rewrite filter_cons. destruct (P f) eqn:E; case_decide as H; simpl; try done;
    by rewrite E in H.
Qed.

Lemma length_encodes (frames : list Frame) :
  (length frames ≤ length (encodes frames))%nat.
Proof.
  induction frames as [|f l IHl]; [done|].
  rewrite encodes_cons, length_app. unfold encode. simpl. lia.
Qed.

Lemma answer_parked (p : nat) (k : Suspension) (r : string) (s : System) (v : Closure) :
  awaiting s = [] → (p < length (procs s))%nat → k_proc k = p →
  onAnswer r (with_awaiting (fun l => l ++ [k]) (on_proc p (set_vars v) s))
  = park p (resume k r (on_proc p (set_vars v) s) v).
Proof.
  intros Ha Hp Hk. unfold onAnswer.
  cbn [awaiting with_awaiting on_proc with_procs]. rewrite Ha. cbn [app].
  destruct (vars_written p v s Hp) as (c & Ec & Ev).
  match goal with
  | |- context [procs ?x !! _] =>
      change x with (with_awaiting (fun _ => [])
                       (with_awaiting (fun l => l ++ [k]) (on_proc p (set_vars v) s)))
  end.
  rewrite with_awaiting_pop by done. rewrite Hk, Ec, Ev. reflexivity.
Qed.

Lemma afterAwait_cases (p : nat) (r : string) (next : Z) (s : System) (v : Closure) :
  (∃ s' v', afterAwait p r next s v = Continue next s' v')
  ∨ (∃ s' v', afterAwait p r next s v = Return s' v').
Proof. unfold afterAwait. rewrite Z.add_0_r. apply finishFrame_cases. Qed.

Lemma loop_dispatch (p : nat) (frames : list Frame) :
  ∀ (answers : list string) (pre : Buffer.t) (s : System) (v : Closure) (fuel : nat),
  forallb wellFormed frames = true →
  (length (filter isLine frames) ≤ length answers)%nat →
  awaiting s = [] →
  (p < length (procs s))%nat →
  (length frames ≤ fuel)%nat →
  foldl step (park p (loop fuel p (pre ++ encodes frames) (Buffer.len pre) s v))
    (map Answer answers)
  = dispatch p frames answers s v.
Proof.
  induction frames as [|f frames IH]; intros answers pre s v fuel Hw Hn Ha Hp Hf.
  - rewrite loop_end by (simpl; rewrite app_nil_r; lia).
    simpl. by rewrite answers_idle.
  - destruct fuel as [|fuel]; [simpl in Hf; lia|].
    simpl in Hf. assert (Hf' : (length frames ≤ fuel)%nat) by lia.
    simpl in Hw. apply andb_true_iff in Hw as [Hwf Hw].
    rewrite (count_cons isLine) in Hn.
    rewrite encodes_cons, loop_frame by done.
    rewrite frameStep_offset.
    pose proof (sameShape_frameStep f 0 s v) as [Ha1 Hp1].
    cbn [dispatch].
    assert (Hdata : pre ++ encode f ++ encodes frames = (pre ++ encode f) ++ encodes frames)
      by (by rewrite <- app_assoc).
    assert (Hnext : Buffer.len pre + Buffer.len (encode f) = Buffer.len (pre ++ encode f))
      by (by rewrite len_app).
    destruct (frameStep f 0 s v) as [o s1 v1|out n o s1 v1|s1 v1|e s1 v1] eqn:Ef;
      simpl in Ha1, Hp1; cbn [setOffset proceed].
    + rewrite Hdata, Hnext. apply IH; try done; try lia; congruence.
    + apply frameStep_await in Ef as (El & -> & ->).
      rewrite El in Hn.
      destruct answers as [|r answers]; [simpl in Hn; lia|].
      simpl in Hn.
      cbn [park map foldl step].
      rewrite answer_parked by done.
      unfold resume. cbn [k_data k_proc k_offset].
      rewrite afterAwait_offset, afterAwait_vars.
      pose proof (sameShape_afterAwait p r 0 s v) as [Ha2 Hp2].
      destruct (afterAwait_cases p r 0 s v) as [(s3 & v3 & E)|(s3 & v3 & E)];
        rewrite E in *; simpl in Ha2, Hp2; cbn [mapStep setOffset proceed].
      * rewrite Hdata, Hnext.
        rewrite <- (dispatch_vars p v frames answers s3 v3).
        apply IH; try done; try lia.
        -- simpl. congruence.
        -- simpl. rewrite length_alter. lia.
        -- pose proof (length_encodes frames). rewrite length_app. lia.
      * cbn [park]. rewrite on_proc_absorb by done.
        by rewrite answers_idle by (simpl; congruence).
    + cbn [park]. by rewrite answers_idle by (simpl; congruence).
    + cbn [park]. by rewrite answers_idle by (simpl; congruence).
Qed.

(** An arrival of whole frames, its line requests answered, leaves the
    system as [dispatch] says. *)
Lemma run_arrival (p : nat) (frames : list Frame) (answers : list string) (s : System)
    (c : ChildProcess) :
  forallb wellFormed frames = true →
  (length (filter isLine frames) ≤ length answers)%nat →
  awaiting s = [] →
  procs s !! p = Some c →
  listeners c = Listening →
  run s (arrival p frames answers) = dispatch p frames answers s (vars c).
Proof.
  intros Hw Hn Ha Hc Hl. unfold run, arrival. cbn [foldl step].
  unfold onStdout. rewrite Hc, Hl.
  apply (loop_dispatch p frames answers [] s (vars c)); try done.
  - by eapply lookup_lt_Some.
  - pose proof (length_encodes frames). lia.
Qed.

(** ** Delivering a result *)

Lemma finishFrame_none (next : Z) (s : System) (v : Closure) :
  exitCodeVar v = None → finishFrame next s v = Continue next s v.
Proof. unfold finishFrame. by intros ->. Qed.

Lemma finishFrame_result (next : Z) (s : System) (v : Closure) (code : Z) :
  exitCodeVar v = Some code →
  finishFrame next s v
  = let s2 := deliverResult {| exitCode := code;
                               stdout := String.concat "" (outputBodies v);
                               stderr := String.concat "" (errorBodies v) |} s in
    if stopWhenQueueEmpty (this s2) && (length (commandQueue (this s2)) =? 0)%nat
    then Return (stop false s2) (reset v)
    else Continue next s2 (reset v).
Proof.
  unfold finishFrame, deliverResult. intros ->.
  by destruct (dequeueCommand s) as [command s1].
Qed.

Lemma deliverResult_this (answer : IExecutionResult) (s : System) :
  serverProcess (this (deliverResult answer s)) = serverProcess (this s)
  ∧ encoding (this (deliverResult answer s)) = encoding (this s)
  ∧ stopWhenQueueEmpty (this (deliverResult answer s)) = stopWhenQueueEmpty (this s)
  ∧ commandQueue (this (deliverResult answer s)) = tail (commandQueue (this s))
  ∧ procs (deliverResult answer s) = procs s
  ∧ awaiting (deliverResult answer s) = awaiting s.
Proof.
  unfold deliverResult, dequeueCommand.
  destruct (commandQueue (this s)) as [|command rest] eqn:E; [by rewrite E|].
  unfold resolve. simpl. by destruct (promises s !! result command) as [[| |]|].
Qed.

Lemma attached_deliverResult (p : nat) (answer : IExecutionResult) (s : System) :
  attached p s → attached p (deliverResult answer s).
Proof.
  intros (H1 & H2 & H3).
  destruct (deliverResult_this answer s) as (E1 & _ & _ & _ & E2 & E3).
  unfold attached. by rewrite E1, E2, E3.
Qed.

Lemma attached_on_proc (p q : nat) (g : ChildProcess → ChildProcess) (s : System) :
  (∀ c, listeners (g c) = listeners c) → attached p s → attached p (on_proc q g s).
Proof.
  intros Hg (H1 & (c & Hc & Hl) & H3). split; [done|]. split; [|done].
  simpl. destruct (decide (q = p)) as [->|Hne].
  - exists (g c). by rewrite list_lookup_alter_eq, Hc, Hg.
  - exists c. by rewrite list_lookup_alter_ne.
Qed.

(** When the queue has drained, [stop()] tears the server down. *)
Lemma stop_drained (p : nat) (s : System) :
  attached p s → commandQueue (this s) = [] → detached p (stop false s).
Proof.
  intros (H1 & (c & Hc & Hl) & H3) Hq. unfold stop. rewrite H1, Hq. simpl.
  split; [|done]. exists (write_stdin StdinEnd (set_listeners Detached c)).
  simpl. by rewrite list_lookup_alter_eq, Hc.
Qed.

Lemma finishFrame_attached (p : nat) (next : Z) (s : System) (v : Closure) :
  attached p s →
  match finishFrame next s v with
  | Continue _ s' _ => attached p s' ∧ encoding (this s') = encoding (this s)
  | Return s' _ => detached p s'
  | _ => False
  end.
Proof.
  intros Ha. destruct (exitCodeVar v) as [code|] eqn:Ev.
  - rewrite (finishFrame_result next s v code Ev). cbv zeta.
    set (s2 := deliverResult _ s).
    assert (Ha2 : attached p s2) by by apply attached_deliverResult.
    destruct (deliverResult_this {| exitCode := code;
                stdout := String.concat "" (outputBodies v);
                stderr := String.concat "" (errorBodies v) |} s) as (_ & Ee & _).
    fold s2 in Ee.
    destruct (stopWhenQueueEmpty (this s2)); simpl; [|done].
    destruct (length (commandQueue (this s2)) =? 0)%nat eqn:El; [|done].
    apply stop_drained; [done|]. apply Nat.eqb_eq in El.
    by destruct (commandQueue (this s2)).
  - by rewrite finishFrame_none.
Qed.

Lemma frameStep_attached (p : nat) (f : Frame) (next : Z) (s : System) (v : Closure) :
  attached p s → decodes toString s →
  match frameStep f next s v with
  | Continue _ s' _ => attached p s' ∧ encoding (this s') = encoding (this s)
  | Await _ _ _ _ _ => True
  | Return s' _ => detached p s'
  | Throw _ _ _ => False
  end.
Proof.
  intros Ha Hd. unfold frameStep.
  destruct (isResult f).
  { pose proof (finishFrame_attached p next s (set_exitCode (resultCode f) v) Ha).
    by destruct (finishFrame _ _ _). }
  destruct (isLine f); [done|].
  destruct (Hd (body f)) as [text ->].
  pose proof (finishFrame_attached p next s (accumulate (tag f) text v) Ha).
  by destruct (finishFrame _ _ _).
Qed.

Lemma afterAwait_attached (p : nat) (r : string) (next : Z) (s : System) (v : Closure) :
  attached p s →
  match afterAwait p r next s v with
  | Continue _ s' _ => attached p s' ∧ encoding (this s') = encoding (this s)
  | Return s' _ => detached p s'
  | _ => False
  end.
Proof.
  intros Ha. unfold afterAwait, serverSendLineInput.
  set (s1 := on_proc p _ s).
  assert (Ha1 : attached p s1) by by apply attached_on_proc.
  apply (finishFrame_attached p (next + 0) s1 v Ha1).
Qed.

(** Nothing is listening any more: the arrival is lost. *)
Lemma arrival_detached (p : nat) (frames : list Frame) (answers : list string)
    (s : System) :
  detached p s → run s (arrival p frames answers) = s.
Proof.
  intros [(c & Hc & Hl) Ha]. unfold run, arrival.
  cbn [foldl step]. unfold onStdout. rewrite Hc, Hl.
  by apply answers_idle.
Qed.

Lemma detached_vars (p : nat) (v : Closure) (s : System) :
  detached p s → detached p (on_proc p (set_vars v) s).
Proof.
  intros [(c & Hc & Hl) Ha]. split; [|done].
  exists (set_vars v c). simpl. by rewrite list_lookup_alter_eq, Hc.
Qed.

Lemma forallb_app_true {A} (P : A → bool) (l1 l2 : list A) :
  forallb P (l1 ++ l2) = true → forallb P l1 = true ∧ forallb P l2 = true.
Proof. rewrite forallb_app. apply andb_true_iff. Qed.

Lemma dispatch_app (p : nat) (frames1 frames2 : list Frame) (answers2 : list string) :
  forallb wellFormed frames2 = true →
  (length (filter isLine frames2) ≤ length answers2)%nat →
  ∀ (answers1 : list string) (s : System) (v : Closure),
  attached p s → decodes toString s →
  length (filter isLine frames1) = length answers1 →
  dispatch p (frames1 ++ frames2) (answers1 ++ answers2) s v
  = run (dispatch p frames1 answers1 s v) (arrival p frames2 answers2).
Proof.
  intros Hw2 Hn2.
  induction frames1 as [|f frames1 IH]; intros answers1 s v Ha Hd Hn1.
  - destruct answers1; [|done]. cbn [app dispatch].
    destruct Ha as (H1 & (c & Hc & Hl) & H3).
    rewrite (run_arrival p frames2 answers2 _ (set_vars v c)); try done.
    + simpl. by rewrite dispatch_vars.
    + simpl. by rewrite list_lookup_alter_eq, Hc.
  - rewrite (count_cons isLine) in Hn1. cbn [app dispatch].
    pose proof (frameStep_attached p f 0 s v Ha Hd) as Hs.
    destruct (frameStep f 0 s v) as [o s1 v1|out n o s1 v1|s1 v1|e s1 v1] eqn:Ef.
    + destruct Hs as [Ha1 He1]. apply IH; try done.
      * unfold decodes in *. by rewrite He1.
      * apply (f_equal (fun st => match st with Await _ _ _ _ _ => true | _ => false end))
          in Ef.
        destruct (isLine f) eqn:El; [|simpl in Hn1; lia].
        unfold frameStep in Ef. rewrite El in Ef.
        destruct (isResult f) eqn:Er; [|done].
        unfold isLine, isResult in El, Er.
        apply Ascii.eqb_eq in El, Er. rewrite El in Er. done.
    + apply frameStep_await in Ef as (El & -> & ->). rewrite El in Hn1.
      destruct answers1 as [|r answers1]; [done|]. simpl in Hn1.
      cbn [app].
      pose proof (afterAwait_attached p r 0 s v Ha) as Hs2.
      destruct (afterAwait p r 0 s v) as [o3 s3 v3| |s3 v3|]; try done.
      * destruct Hs2 as [Ha3 He3]. apply IH; try done; try lia.
        unfold decodes in *. by rewrite He3.
      * symmetry. by apply arrival_detached, detached_vars.
    + symmetry. by apply arrival_detached, detached_vars.
    + done.
Qed.

Lemma dispatch_attached (p : nat) (frames : list Frame) :
  ∀ (answers : list string) (s : System) (v : Closure),
  attached p s → decodes toString s →
  length (filter isLine frames) = length answers →
  let s' := dispatch p frames answers s v in
  (attached p s' ∧ decodes toString s') ∨ detached p s'.
Proof.
  induction frames as [|f frames IH]; intros answers s v Ha Hd Hn; cbn [dispatch].
  - left. split; [by apply attached_on_proc|done].
  - rewrite (count_cons isLine) in Hn.
    pose proof (frameStep_attached p f 0 s v Ha Hd) as Hs.
    destruct (frameStep f 0 s v) as [o s1 v1|out n o s1 v1|s1 v1|e s1 v1] eqn:Ef.
    + destruct Hs as [Ha1 He1]. apply IH; try done.
      * unfold decodes in *. by rewrite He1.
      * destruct (isLine f) eqn:El; [|simpl in Hn; lia].
        unfold frameStep in Ef. rewrite El in Ef.
        destruct (isResult f) eqn:Er; [|done].
        unfold isLine, isResult in El, Er.
        apply Ascii.eqb_eq in El, Er. rewrite El in Er. done.
    + apply frameStep_await in Ef as (El & -> & ->). rewrite El in Hn.
      destruct answers as [|r answers]; [done|]. simpl in Hn.
      pose proof (afterAwait_attached p r 0 s v Ha) as Hs2.
      destruct (afterAwait p r 0 s v) as [o3 s3 v3| |s3 v3|]; try done.
      * destruct Hs2 as [Ha3 He3]. apply IH; try done; try lia.
        unfold decodes in *. by rewrite He3.
      * right. by apply detached_vars.
    + right. by apply detached_vars.
    + done.
Qed.

Lemma run_app (s : System) (es1 es2 : list Event) :
  run s (es1 ++ es2) = run (run s es1) es2.
Proof. apply foldl_app. Qed.

Lemma arrivals_detached (p : nat) (parts : list (list Frame * list string)) (s : System) :
  detached p s → run s (arrivals p parts) = s.
Proof.
  intros Hd. induction parts as [|part parts IH]; [done|].
  unfold arrivals. cbn [map concat]. rewrite run_app, arrival_detached by done.
  apply IH.
Qed.

Lemma wellFormedPart_spec (part : list Frame * list string) :
  wellFormedPart part = true →
  forallb wellFormed (fst part) = true
  ∧ length (filter isLine (fst part)) = length (snd part).
Proof.
  unfold wellFormedPart. rewrite andb_true_iff, Nat.eqb_eq. done.
Qed.

Lemma joined_wellFormed (parts : list (list Frame * list string)) :
  forallb wellFormedPart parts = true →
  wellFormedPart (concat (map fst parts), concat (map snd parts)) = true.
Proof.
  induction parts as [|part parts IH]; [done|].
  cbn [forallb map concat]. rewrite andb_true_iff. intros [H1 H2].
  apply wellFormedPart_spec in H1 as [Hw Hn].
  apply IH, wellFormedPart_spec in H2 as [Hw2 Hn2]. simpl in Hw2, Hn2.
  unfold wellFormedPart. simpl.
  rewrite forallb_app, Hw, Hw2, filter_app, !length_app, Hn, Hn2. simpl.
  by apply Nat.eqb_eq.
Qed.


(** ** First in, first out *)

Lemma running_spec (p : nat) (s : System) :
  running p s = true →
  attached p s ∧ ∃ c, procs s !! p = Some c ∧ exitCodeVar (vars c) = None.
Proof.
  unfold running, attached. rewrite !andb_true_iff.
  intros [[H1 H2] H3]. apply bool_decide_eq_true in H1.
  destruct (procs s !! p) as [c|]; [|done].
  destruct (listeners c) eqn:El; try done.
  destruct (exitCodeVar (vars c)) eqn:Ee; [done|].
  destruct (awaiting s); [|done]. eauto 10.
Qed.

Lemma running_written (p : nat) (v : Closure) (s : System) :
  attached p s → exitCodeVar v = None → running p (on_proc p (set_vars v) s) = true.
Proof.
  intros (H1 & (c & Hc & Hl) & H3) Hv. unfold running.
  change (this (on_proc p (set_vars v) s)) with (this s).
  change (awaiting (on_proc p (set_vars v) s)) with (awaiting s).
  rewrite H1, H3, bool_decide_eq_true_2 by done.
  change (procs (on_proc p (set_vars v) s)) with (alter (set_vars v) p (procs s)).
  rewrite list_lookup_alter_eq, Hc. simpl. by rewrite Hl, Hv.
Qed.

Lemma finishFrame_running (next : Z) (s : System) (v : Closure) :
  stopWhenQueueEmpty (this s) = false →
  finishFrame next s v
  = match exitCodeVar v with
    | Some code =>
        Continue next
          (deliverResult {| exitCode := code;
                            stdout := String.concat "" (outputBodies v);
                            stderr := String.concat "" (errorBodies v) |} s)
          (reset v)
    | None => Continue next s v
    end.
Proof.
  intros Hf. destruct (exitCodeVar v) as [code|] eqn:Ev.
  - rewrite (finishFrame_result next s v code Ev). cbv zeta.
    destruct (deliverResult_this {| exitCode := code;
                stdout := String.concat "" (outputBodies v);
                stderr := String.concat "" (errorBodies v) |} s) as (_ & _ & -> & _).
    by rewrite Hf.
  - by apply finishFrame_none.
Qed.

Lemma deliverResult_head (answer : IExecutionResult) (s : System)
    (c : PipelineCommand) (rest : list PipelineCommand) :
  commandQueue (this s) = c :: rest →
  promises s !! result c = Some Pending →
  resolved (deliverResult answer s) = resolved s ++ [(result c, answer)]
  ∧ promises (deliverResult answer s) = <[result c := Fulfilled answer]> (promises s).
Proof.
  intros Hq Hp. unfold deliverResult, dequeueCommand. rewrite Hq.
  unfold resolve. simpl. by rewrite Hp.
Qed.

Lemma pendingQueue_deliverResult (answer : IExecutionResult) (s : System) :
  pendingQueue s → pendingQueue (deliverResult answer s).
Proof.
  intros [Hnd Hp]. unfold pendingQueue.
  destruct (deliverResult_this answer s) as (_ & _ & _ & Eq & _). rewrite Eq.
  destruct (commandQueue (this s)) as [|c rest] eqn:E.
  - unfold deliverResult, dequeueCommand. rewrite E. simpl. split; [done|].
    intros c Hc. by apply elem_of_nil in Hc.
  - destruct (deliverResult_head answer s c rest E) as [_ ->].
    { apply Hp. by left. }
    simpl in Hnd. apply NoDup_cons in Hnd as [Hni Hnd]. simpl. split; [done|].
    intros c' Hc'. rewrite list_lookup_insert_ne.
    + apply Hp. by right.
    + intros Heq. apply Hni, list_elem_of_In. rewrite Heq.
      by apply in_map, list_elem_of_In.
Qed.

Lemma settledStable_refl (s : System) : settledStable s s.
Proof. by intros d r. Qed.

Lemma settledStable_trans (s1 s2 s3 : System) :
  settledStable s1 s2 → settledStable s2 s3 → settledStable s1 s3.
Proof. intros H1 H2 d r H. by apply H2, H1. Qed.

Lemma settledStable_deliverResult (answer : IExecutionResult) (s : System) :
  settledStable s (deliverResult answer s).
Proof.
  intros d r H. unfold deliverResult, dequeueCommand.
  destruct (commandQueue (this s)) as [|c rest]; [done|].
  unfold resolve. simpl.
  destruct (promises s !! result c) as [[| |]|] eqn:E; try done.
  simpl. rewrite list_lookup_insert_ne; [done|]. intros Heq. rewrite <- Heq in H.
  congruence.
Qed.

(** What an arrival of whole frames does while the server keeps running
    and every result finds its command. *)
Lemma dispatch_fifo (p : nat) (frames : list Frame) :
  ∀ (answers : list string) (s : System) (v : Closure),
  attached p s → decodes toString s →
  stopWhenQueueEmpty (this s) = false →
  pendingQueue s →
  exitCodeVar v = None →
  forallb wellFormed frames = true →
  length (filter isLine frames) = length answers →
  (length (filter isResult frames) ≤ length (commandQueue (this s)))%nat →
  let s' := dispatch p frames answers s v in
  ∃ results,
    map exitCode results = map resultCode (filter isResult frames)
    ∧ resolved s' = resolved s ++ zip (map result (commandQueue (this s))) results
    ∧ commandQueue (this s') = drop (length results) (commandQueue (this s))
    ∧ Forall (fun '(d, r) => promises s' !! d = Some (Fulfilled r))
        (zip (map result (commandQueue (this s))) results)
    ∧ settledStable s s'
    ∧ length (promises s') = length (promises s)
    ∧ running p s' = true ∧ decodes toString s'
    ∧ stopWhenQueueEmpty (this s') = false ∧ pendingQueue s'.
Proof.
  induction frames as [|f frames IH];
    intros answers s v Ha Hd Hf Hq Hv Hw Hn Hr; cbn [dispatch].
  - exists []. simpl. rewrite zip_with_nil_r, app_nil_r, drop_0.
    split_and!;
      first [done | by apply running_written | exact (settledStable_refl s) | exact Hq].
  - simpl in Hw. apply andb_true_iff in Hw as [Hwf Hw].
    rewrite (count_cons isLine) in Hn. rewrite (count_cons isResult) in Hr.
    unfold frameStep. destruct (isResult f) eqn:Er.
    + (* a result frame: the head of the queue is resolved *)
      assert (El : isLine f = false).
      { unfold isLine, isResult in *. apply Ascii.eqb_eq in Er. by rewrite Er. }
      rewrite El in Hn. simpl in Hn.
      rewrite finishFrame_running by done. simpl exitCodeVar. cbv iota.
      set (answer := {| exitCode := resultCode f |}).
      destruct (commandQueue (this s)) as [|c rest] eqn:Eq; [simpl in Hr; lia|].
      simpl in Hr.
      destruct (deliverResult_this answer s) as (E1 & E2 & E3 & E4 & E5 & E6).
      destruct (deliverResult_head answer s c rest Eq) as [Elog Eprom].
      { apply Hq. rewrite Eq. by left. }
      rewrite Eq in E4. simpl in E4.
      destruct (IH answers (deliverResult answer s) (reset (set_exitCode (resultCode f) v)))
        as (results & R1 & R2 & R3 & R4 & R6 & R7); try done; try lia.
      * by apply attached_deliverResult.
      * unfold decodes in *. by rewrite E2.
      * congruence.
      * by apply pendingQueue_deliverResult.
      * rewrite E4. lia.
      * exists (answer :: results). rewrite (filter_cons isResult).
        case_decide as Hdec; [|by rewrite Er in Hdec].
        cbn [map zip_with length drop]. rewrite R1, R2, Elog, E4, <- app_assoc.
        rewrite R3, E4.
        assert (Hhead : promises (deliverResult answer s) !! result c
                        = Some (Fulfilled answer)).
        { rewrite Eprom. apply list_lookup_insert_eq.
          apply lookup_lt_is_Some. exists Pending. apply Hq. rewrite Eq. by left. }
        destruct R7 as (R7 & R8 & R9 & R10 & R11).
        split_and!; try done.
        -- rewrite E4 in R4. apply Forall_cons. split; [by apply R6|done].
        -- eapply settledStable_trans; [apply settledStable_deliverResult|done].
        -- by rewrite R7, Eprom, length_insert.
    + destruct (isLine f) eqn:El.
      * (* a line request and its answer *)
        destruct answers as [|r answers]; [done|]. simpl in Hn, Hr.
        unfold afterAwait. rewrite finishFrame_running, Hv by done.
        set (s1 := serverSendLineInput p _ r s).
        destruct (IH answers s1 v) as (results & R); try done; try lia.
        -- by apply attached_on_proc.
        -- exists results. rewrite (filter_cons isResult).
           case_decide as Hdec; [by rewrite Er in Hdec|]. done.
      * (* output, error, debug and unknown channels *)
        simpl in Hn, Hr. destruct (Hd (body f)) as [text ->].
        rewrite finishFrame_running by done.
        assert (Hv' : exitCodeVar (accumulate (tag f) text v) = None).
        { unfold accumulate. by repeat case_match. }
        rewrite Hv'.
        destruct (IH answers s (accumulate (tag f) text v)) as (results & R);
          try done; try lia.
        exists results. rewrite (filter_cons isResult).
        case_decide as Hdec; [by rewrite Er in Hdec|]. done.
Qed.

Lemma runcommand_fields (p : nat) (args : list string) (s : System) :
  serverProcess (this s) = Some p →
  let s1 := snd (runcommand args s) in
  fst (runcommand args s) = length (promises s)
  ∧ commandQueue (this s1)
    = commandQueue (this s)
      ++ [{| cmd := "runcommand"; args := args; result := length (promises s) |}]
  ∧ promises s1 = promises s ++ [Pending]
  ∧ resolved s1 = resolved s
  ∧ awaiting s1 = awaiting s
  ∧ procs s1
    = alter (write_stdin (SendCommand (encoding (this s)) "runcommand" args)) p (procs s)
  ∧ serverProcess (this s1) = Some p
  ∧ encoding (this s1) = encoding (this s)
  ∧ stopWhenQueueEmpty (this s1) = stopWhenQueueEmpty (this s).
Proof.
  intros H1. unfold runcommand, enqueueCommand. rewrite H1. simpl. by split_and!.
Qed.

Lemma runcommand_running (p : nat) (args : list string) (s : System) :
  running p s = true → decodes toString s →
  stopWhenQueueEmpty (this s) = false → pendingQueue s →
  let d := fst (runcommand args s) in
  let s1 := snd (runcommand args s) in
  d = length (promises s)
  ∧ map result (commandQueue (this s1)) = map result (commandQueue (this s)) ++ [d]
  ∧ resolved s1 = resolved s
  ∧ settledStable s s1
  ∧ running p s1 = true ∧ decodes toString s1
  ∧ stopWhenQueueEmpty (this s1) = false ∧ pendingQueue s1.
Proof.
  intros Hr Hd Hf [Hnd Hp].
  destruct (running_spec p s Hr) as [Ha (c & Hc & Hv)].
  pose proof Ha as (H1 & _ & H3).
  destruct (runcommand_fields p args s H1)
    as (E0 & E1 & E2 & E3 & E4 & E5 & E6 & E7 & E8).
  cbv zeta. set (s1 := snd (runcommand args s)) in *.
  split_and!; try done.
  - by rewrite E0, E1, map_app.
  - intros d r H. rewrite E2. by apply lookup_app_l_Some.
  - unfold running. rewrite E6, E5, E4, H3, list_lookup_alter_eq, Hc.
    rewrite bool_decide_eq_true_2 by done. simpl.
    destruct Ha as (_ & (c' & Hc' & Hl) & _).
    assert (c' = c) by congruence. subst c'. by rewrite Hl, Hv.
  - unfold decodes in *. by rewrite E7.
  - congruence.
  - unfold pendingQueue. rewrite E1, E2, map_app. split.
    + apply NoDup_app. split_and!; try done.
      * intros d Hin Hd'. apply list_elem_of_singleton in Hd'. subst d.
        apply list_elem_of_In, in_map_iff in Hin as (c' & Hres & Hin).
        apply list_elem_of_In, Hp, lookup_lt_Some in Hin. simpl in Hres. lia.
      * apply NoDup_singleton.
    + intros c' Hin. apply elem_of_app in Hin as [Hin|Hin].
      * apply lookup_app_l_Some. by apply Hp.
      * apply list_elem_of_singleton in Hin. subst c'. simpl.
        by rewrite lookup_app_r, Nat.sub_diag.
Qed.

Lemma returned_app (s : System) (es1 es2 : list Event) :
  returned s (es1 ++ es2) = returned s es1 ++ returned (run s es1) es2.
Proof.
  revert s. induction es1 as [|e es1 IH]; intros s; [done|].
  destruct e; simpl; rewrite IH; done.
Qed.

Lemma returned_arrival (p : nat) (frames : list Frame) (answers : list string)
    (s : System) :
  returned s (arrival p frames answers) = [].
Proof.
  unfold arrival. simpl. generalize (onStdout p (encodes frames) s).
  induction answers as [|r answers IH]; intros s'; [done|]. simpl. apply IH.
Qed.

Lemma Forall_zip_Forall2 {A B} (P : A → B → Prop) (l : list A) (k : list B) :
  length l = length k →
  Forall (fun '(a, b) => P a b) (zip l k) → Forall2 P l k.
Proof.
  revert k. induction l as [|a l IH]; intros [|b k] Hl H; try done; try by constructor.
  simpl in *. apply Forall_cons in H as [H1 H2].
  constructor; [done|]. apply IH; [lia|done].
Qed.

(** A well-formed session from any running state, whatever is queued. *)
Lemma session_fifo (p : nat) (trace : list Item) :
  ∀ s : System,
  running p s = true → decodes toString s →
  stopWhenQueueEmpty (this s) = false → pendingQueue s →
  wellFormedTrace (length (commandQueue (this s))) trace = true →
  let s' := run s (events p trace) in
  let futures := map result (commandQueue (this s)) ++ returned s (events p trace) in
  ∃ results,
    map exitCode results = codes trace
    ∧ resolved s' = resolved s ++ zip futures results
    ∧ Forall (fun '(d, r) => promises s' !! d = Some (Fulfilled r)) (zip futures results)
    ∧ settledStable s s'.
Proof.
  induction trace as [|[args|frames answers] trace IH]; intros s Hr Hd Hf Hq Hw.
  - exists []. simpl. rewrite zip_with_nil_r, app_nil_r.
    split_and!; [done|done|constructor|apply settledStable_refl].
  - cbn [wellFormedTrace] in Hw.
    destruct (runcommand_running p args s Hr Hd Hf Hq)
      as (Ed & Eq & Eres & Est & Hr1 & Hd1 & Hf1 & Hq1).
    change (events p (Command args :: trace)) with (Runcommand args :: events p trace).
    cbn [run foldl returned].
    change (step s (Runcommand args)) with (snd (runcommand args s)).
    set (s1 := snd (runcommand args s)) in *.
    destruct (IH s1) as (results & R1 & R2 & R3 & R4); try done.
    { assert (El : length (commandQueue (this s1)) = S (length (commandQueue (this s)))).
      { apply (f_equal length) in Eq. rewrite length_app, !length_map in Eq.
        simpl in Eq. lia. }
      by rewrite El. }
    exists results. rewrite Eq, <- app_assoc in R2, R3. rewrite Eres in R2.
    split_and!; try done. by eapply settledStable_trans.
  - cbn [wellFormedTrace] in Hw. rewrite !andb_true_iff in Hw.
    destruct Hw as [[[Hwf Hn] Hk] Hw].
    apply Nat.eqb_eq in Hn. apply Nat.leb_le in Hk.
    destruct (running_spec p s Hr) as [Ha (c & Hc & Hv)].
    pose proof Ha as (_ & (c' & Hc' & Hl) & H3).
    assert (c' = c) by congruence. subst c'.
    change (events p (Arrival frames answers :: trace))
      with (arrival p frames answers ++ events p trace).
    rewrite returned_app, returned_arrival, run_app. cbn [app].
    rewrite (run_arrival p frames answers s c) by (done || lia).
    destruct (dispatch_fifo p frames answers s (vars c))
      as (res1 & A1 & A2 & A3 & A4 & A5 & A6 & Hr1 & Hd1 & Hf1 & Hq1); try done.
    set (s1 := dispatch p frames answers s (vars c)) in *.
    assert (Hlen : length res1 = length (filter isResult frames)).
    { apply (f_equal length) in A1. by rewrite !length_map in A1. }
    destruct (IH s1) as (res2 & R1 & R2 & R3 & R4); try done.
    { by rewrite A3, length_drop, Hlen. }
    exists (res1 ++ res2).
    assert (Ezip : zip (map result (commandQueue (this s))
                        ++ returned s1 (events p trace)) (res1 ++ res2)
                   = zip (map result (commandQueue (this s))) res1
                     ++ zip (map result (commandQueue (this s1))
                             ++ returned s1 (events p trace)) res2).
    { rewrite zip_with_app_r.
      rewrite take_app_le, drop_app_le by (rewrite length_map; lia).
      by rewrite zip_with_take_l, A3, skipn_map. }
    rewrite Ezip. split_and!.
    + cbn [codes map concat]. rewrite map_app. f_equal; done.
    + by rewrite R2, A2, <- app_assoc.
    + apply Forall_app. split; [|done].
      eapply Forall_impl; [apply A4|]. intros [d r] H. by apply R4.
    + by eapply settledStable_trans.
Qed.

Lemma resultCode_range (f : Frame) : 0 <= resultCode f < 2 ^ 32.
Proof.
  unfold resultCode. destruct (Buffer.readUInt32BE (body f) 0) as [n|] eqn:E.
  - by apply readUInt32BE_nonneg in E.
  - done.
Qed.

Lemma codes_range (trace : list Item) : Forall (fun n => 0 <= n < 2 ^ 32) (codes trace).
Proof.
  unfold codes. apply Forall_concat, Forall_fmap, Forall_forall.
  intros [args|frames answers] _; [constructor|].
  apply Forall_fmap, Forall_forall. intros f _. apply resultCode_range.
Qed.


(** ** A start that can no longer be settled *)

Lemma stalled_step (s : System) (e : Event) :
  stalled s → stalled (step s e) ∧ procs (step s e) = procs s.
Proof.
  intros Hs. pose proof Hs as (H1 & H2 & H3 & H4).
  rewrite Forall_lookup in H4.
  destruct e as [args|force|p data|p data|p code|r]; simpl.
  - unfold runcommand, enqueueCommand. rewrite H1. by split.
  - unfold stop. rewrite H1. by split.
  - unfold onStdout. destruct (procs s !! p) as [c|] eqn:Ec; [|by split].
    destruct (H4 p c Ec) as [-> | ->]; by split.
  - unfold onStderr. destruct (procs s !! p) as [c|] eqn:Ec; [|by split].
    simpl. destruct (H4 p c Ec) as [-> | ->]; [|by split]. rewrite H2. by split.
  - unfold onExit. destruct (procs s !! p) as [c|] eqn:Ec; [|by split].
    simpl. destruct (H4 p c Ec) as [-> | ->]; by split.
  - unfold onAnswer. rewrite H3. by split.
Qed.

Lemma stalled_run (events : list Event) (s : System) :
  stalled s → procs (run s events) = procs s.
Proof.
  revert s. induction events as [|e events IH]; intros s Hs; [done|].
  destruct (stalled_step s e Hs) as [Hs' Hp]. simpl.
  change (foldl step (step s e) events) with (run (step s e) events).
  by rewrite IH.
Qed.

(** ** The claims *)

Lemma dispatch_promises_final (p : nat) (v : Closure) (s : System) :
  promises (on_proc p (set_vars v) s) = promises s.
Proof. reflexivity. Qed.

Lemma stop_promises (force : bool) (s : System) :
  promises (stop force s) = promises s ∧ resolved (stop force s) = resolved s
  ∧ commandQueue (this (stop force s)) = commandQueue (this s).
Proof.
  unfold stop. destruct (serverProcess (this s)); [|done]. by destruct (_ && _).
Qed.

Lemma vars_after_write (p : nat) (v : Closure) (s : System) :
  (p < length (procs s))%nat →
  vars <$> procs (on_proc p (set_vars v) s) !! p = Some v.
Proof.
  intros H. destruct (vars_written p v s H) as (c & -> & <-). done.
Qed.

(** The result frame of the scenario, on the accumulators that the output
    frame has left. *)
Lemma dispatch_result (p : nat) (code : Z) (s : System) (v : Closure)
    (c : PipelineCommand) :
  0 <= code < 2 ^ 32 →
  commandQueue (this s) = [c] →
  promises s !! result c = Some Pending →
  (p < length (procs s))%nat →
  let answer := {| exitCode := code;
                   stdout := String.concat "" (outputBodies v);
                   stderr := String.concat "" (errorBodies v) |} in
  let s' := dispatch p [resultFrame code] [] s v in
  promises s' !! result c = Some (Fulfilled answer)
  ∧ resolved s' = resolved s ++ [(result c, answer)]
  ∧ vars <$> procs s' !! p = Some (reset v).
Proof.
  intros Hcode Hq Hp Hlt answer s'. subst s'. cbn [dispatch].
  unfold frameStep.
  change (isResult (resultFrame code)) with true. cbv iota.
  assert (Ecode : resultCode (resultFrame code) = code).
  { unfold resultCode, resultFrame. cbn [body].
    change (Buffer.uint32BE code) with ([] ++ Buffer.uint32BE code ++ []).
    change 0 with (Buffer.len []). by rewrite readUInt32BE_at. }
  rewrite Ecode.
  rewrite (finishFrame_result 0 s (set_exitCode code v) code) by done.
  cbv zeta. cbn [outputBodies errorBodies set_exitCode]. fold answer.
  destruct (deliverResult_head answer s c [] Hq Hp) as [Elog Eprom].
  destruct (deliverResult_this answer s) as (_ & _ & _ & _ & Eprocs & _).
  assert (Hful : promises (deliverResult answer s) !! result c = Some (Fulfilled answer)).
  { rewrite Eprom. apply list_lookup_insert_eq. by eapply lookup_lt_Some. }
  assert (Hlt2 : (p < length (procs (deliverResult answer s)))%nat) by by rewrite Eprocs.
  destruct (_ && _).
  - destruct (stop_promises false (deliverResult answer s)) as (E1 & E2 & _).
    rewrite dispatch_promises_final, E1.
    change (resolved (on_proc p ?f ?x)) with (resolved x). rewrite E2.
    split_and!; try done. apply vars_after_write.
    destruct (sameShape_stop false (deliverResult answer s)) as [_ ->]. done.
  - cbn [dispatch]. rewrite dispatch_promises_final.
    change (resolved (on_proc p ?f ?x)) with (resolved x).
    split_and!; try done. by apply vars_after_write.
Qed.

(** C4: one command is enqueued on a server whose accumulators are empty;
    the output frame ["hello"] and the result frame 0 arrive, in one arrival
    or in two.  The promise of the command is fulfilled with
    [{stdout: "hello", stderr: "", exitCode: 0}] and the accumulators are
    empty again. *)
Theorem C4_hello_then_result (p : nat) (args : list string) (s s' : System)
    (c : ChildProcess) :
  running p s = true →
  commandQueue (this s) = [] →
  procs s !! p = Some c →
  outputBodies (vars c) = [] → errorBodies (vars c) = [] →
  toString (encoding (this s)) (list_byte_of_string "hello") = Some "hello"%string →
  let hello := outputFrame (list_byte_of_string "hello") in
  let d := fst (runcommand args s) in
  let s1 := snd (runcommand args s) in
  s' = run s1 [Stdout p (encodes [hello; resultFrame 0])]
  ∨ s' = run s1 [Stdout p (encodes [hello]); Stdout p (encodes [resultFrame 0])] →
  promises s' !! d
  = Some (Fulfilled {| exitCode := 0; stdout := "hello"; stderr := "" |})
  ∧ vars <$> procs s' !! p
    = Some {| errorBuffers := []; outputBodies := []; errorBodies := [];
              exitCodeVar := None |}.
Proof.
  intros Hr Hq Hc Hout Herr Hts hello d s1 Hs'.
  destruct (running_spec p s Hr) as [Ha (c' & Hc' & Hv)].
  assert (c' = c) by congruence. subst c'.
  pose proof Ha as (H1 & (c' & Hc'' & Hl) & H3).
  assert (c' = c) by congruence. subst c'.
  destruct (runcommand_fields p args s H1)
    as (E0 & E1 & E2 & E3 & E4 & E5 & E6 & E7 & E8).
  fold s1 in E1, E2, E3, E4, E5, E6, E7, E8. fold d in E0.
  rewrite Hq in E1. simpl in E1.
  set (c1 := write_stdin (SendCommand (encoding (this s)) "runcommand" args) c).
  assert (Hc1 : procs s1 !! p = Some c1) by (by rewrite E5, list_lookup_alter_eq, Hc).
  assert (Hlt : (p < length (procs s1))%nat) by (by eapply lookup_lt_Some).
  assert (Hpend : promises s1 !! d = Some Pending).
  { by rewrite E2, E0, lookup_app_r, Nat.sub_diag. }
  set (v1 := accumulate OUTPUT_CHANNEL "hello" (vars c)).
  assert (Hstep : ∀ s0, encoding (this s0) = encoding (this s) →
            frameStep hello 0 s0 (vars c) = Continue 0 s0 v1).
  { intros s0 He. unfold frameStep.
    change (isResult hello) with false. change (isLine hello) with false. cbv iota.
    change (body hello) with (list_byte_of_string "hello").
    rewrite He, Hts. by apply finishFrame_none. }
  assert (Hv1 : String.concat "" (outputBodies v1) = "hello"%string
                ∧ String.concat "" (errorBodies v1) = ""%string).
  { unfold v1, accumulate. simpl. by rewrite Hout, Herr. }
  destruct Hv1 as [Ho He].
  destruct (dispatch_result p 0 s1 v1 {| cmd := "runcommand"; args := args; result := d |})
    as (R1 & _ & R3); try done.
  { by rewrite E1, E0. }
  rewrite Ho, He in R1. simpl in R1.
  assert (Hgoal : s' = dispatch p [resultFrame 0] [] s1 v1).
  { destruct Hs' as [->| ->].
    - change [Stdout p (encodes [hello; resultFrame 0])]
        with (arrival p [hello; resultFrame 0] []).
      rewrite (run_arrival p _ _ s1 c1); [|reflexivity|simpl; lia|congruence|done|exact Hl].
      cbn [dispatch]. by rewrite Hstep.
    - change [Stdout p (encodes [hello]); Stdout p (encodes [resultFrame 0])]
        with (arrival p [hello] [] ++ arrival p [resultFrame 0] []).
      rewrite run_app.
      rewrite (run_arrival p _ _ s1 c1); [|reflexivity|simpl; lia|congruence|done|exact Hl].
      cbn [dispatch]. rewrite Hstep by done.
      rewrite (run_arrival p _ _ _ (set_vars v1 c1));
        [|reflexivity|simpl; lia|simpl; congruence| |exact Hl].
      + by rewrite dispatch_vars.
      + simpl. by rewrite list_lookup_alter_eq, Hc1. }
  rewrite Hgoal. split; [done|]. by rewrite R3.
Qed.

(** C10 (as the code has it): a result frame that is decoded while the
    command queue is empty raises no error and settles no promise; the
    accumulators are reset, and the listener goes on with the bytes that
    follow the frame unless [stopWhenQueueEmpty] is set: then it calls
    [stop()] and returns, and the rest of the arrival is not decoded. *)
Theorem C10_result_on_empty_queue (fuel p : nat) (pre post : Buffer.t) (f : Frame)
    (s : System) (v : Closure) :
  wellFormed f = true → isResult f = true →
  commandQueue (this s) = [] →
  loop (S fuel) p (pre ++ encode f ++ post) (Buffer.len pre) s v
  = (if stopWhenQueueEmpty (this s)
     then Finished (stop false s) (reset v)
     else loop fuel p (pre ++ encode f ++ post) (Buffer.len pre + 9) s (reset v))
  ∧ promises (stop false s) = promises s
  ∧ resolved (stop false s) = resolved s.
Proof.
  intros Hw Hr Hq. split; [|by destruct (stop_promises false s) as (? & ? & _)].
  rewrite loop_frame by done. unfold frameStep. rewrite Hr.
  rewrite (finishFrame_result _ s _ (resultCode f)) by done. cbv zeta.
  assert (Ed : ∀ answer, deliverResult answer s = s).
  { intros answer. unfold deliverResult, dequeueCommand. by rewrite Hq. }
  rewrite Ed, Hq.
  destruct (wellFormed_result f Hw Hr) as [_ Hl].
  rewrite len_encode. unfold Buffer.len at 2. rewrite Hl.
  replace (Buffer.len pre + (5 + Z.of_nat 4)) with (Buffer.len pre + 9) by lia.
  by destruct (stopWhenQueueEmpty (this s)).
Qed.

(** C6 (as the code has it): a frame whose channel tag is none of [o],
    [e], [r], [L] - the debug channel [d] and every unknown tag alike - is
    skipped: its body is decoded and dropped, nothing is appended, no
    promise is settled, nothing is thrown, and the listener goes on with
    the next frame. *)
Theorem C6_other_channels_are_skipped (fuel p : nat) (pre post : Buffer.t) (f : Frame)
    (s : System) (v : Closure) (text : string) :
  wellFormed f = true →
  tag f ≠ OUTPUT_CHANNEL → tag f ≠ ERROR_CHANNEL →
  tag f ≠ RESULT_CHANNEL → tag f ≠ LINE_CHANNEL →
  exitCodeVar v = None →
  toString (encoding (this s)) (body f) = Some text →
  loop (S fuel) p (pre ++ encode f ++ post) (Buffer.len pre) s v
  = loop fuel p (pre ++ encode f ++ post) (Buffer.len pre + Buffer.len (encode f)) s v.
Proof.
  intros Hw Ho He Hr Hl Hv Hts.
  rewrite loop_frame by done. unfold frameStep, isResult, isLine, accumulate.
  apply Ascii.eqb_neq in Ho, He, Hr, Hl. rewrite Hr, Hl, Hts, Ho, He.
  by rewrite finishFrame_none.
Qed.

(** C3 (as the code has it): the server process [p] exits while its exit
    listener is registered, that is, no [stop] took the listeners off.  The
    listener logs the exit code, tears the handle down - [serverProcess] is
    cleared, the listeners of [p] are removed and its stdin is ended - and
    spawns a new child with the arguments of the old one.  The commands
    that were pending stay in the queue and their promises are left as they
    were, neither resolved nor rejected - also once the new child has sent
    its first burst, whatever it holds. *)
Theorem C3_exit_leaves_pending_commands (p : nat) (code : string)
    (data : Buffer.t) (s : System) (c : ChildProcess) :
  serverProcess (this s) = Some p →
  procs s !! p = Some c → listeners c = Listening →
  let crashed := onExit process_env process_cwd p code s in
  let child := length (procs s) in
  let restarted := onStdout child data crashed in
  logged crashed
  = logged s ++ ["hg command server was closed unexpectedly: " ++ code ++ LF]%string
  ∧ serverProcess (this crashed) = None
  ∧ procs crashed !! p = Some (write_stdin StdinEnd (set_listeners Detached c))
  ∧ procs crashed !! child
    = Some (set_listeners Spawned
              (spawnHgServer process_env process_cwd (this s) (hgPath (this s))))
  ∧ length (procs crashed) = S (length (procs s))
  ∧ promises crashed = promises s
  ∧ resolved crashed = resolved s
  ∧ commandQueue (this crashed) = commandQueue (this s)
  ∧ promises restarted = promises s
  ∧ resolved restarted = resolved s
  ∧ commandQueue (this restarted) = commandQueue (this s).
Proof.
  intros Hsp Hc Hl crashed child restarted.
  assert (Hlt : (p < length (procs s))%nat) by by eapply lookup_lt_Some.
  set (detach := fun c : ChildProcess => write_stdin StdinEnd (set_listeners Detached c)).
  assert (Ec : crashed
               = start process_env process_cwd (hgPath (this s))
                   (with_this (set_serverProcess None)
                      (on_proc p detach
                         (log ("hg command server was closed unexpectedly: " ++ code ++ LF)
                            s)))).
  { unfold crashed, onExit. rewrite Hc. simpl. rewrite Hl.
    unfold stop. simpl. rewrite Hsp. by rewrite andb_false_r. }
  assert (Hprocs : procs crashed
                   = alter detach p (procs s)
                     ++ [set_listeners Spawned
                           (spawnHgServer process_env process_cwd (this s)
                              (hgPath (this s)))]).
  { by rewrite Ec. }
  assert (Hchild : procs crashed !! child
                   = Some (set_listeners Spawned
                             (spawnHgServer process_env process_cwd (this s)
                                (hgPath (this s))))).
  { rewrite Hprocs. unfold child.
    rewrite lookup_app_r by (rewrite length_alter; lia).
    by rewrite length_alter, Nat.sub_diag. }
  assert (H : promises crashed = promises s ∧ resolved crashed = resolved s
              ∧ commandQueue (this crashed) = commandQueue (this s)).
  { by rewrite Ec. }
  destruct H as (H1 & H2 & H3).
  assert (H' : promises restarted = promises crashed
               ∧ resolved restarted = resolved crashed
               ∧ commandQueue (this restarted) = commandQueue (this crashed)).
  { unfold restarted, onStdout. rewrite Hchild. cbn [listeners set_listeners].
    unfold firstBurst. generalize crashed. intros s0.
    destruct (Buffer.readUInt8 data 0); [|done].
    destruct (Buffer.readUInt32BE data 1); [|done].
    destruct (if Ascii.eqb _ _ then _ else _) as [e|text]; [done|].
    destruct (parseCapabilitiesAndEncoding text) as [e|[caps enc]]; [done|].
    destruct (bool_decide _); by destruct (started <$> _) as [[| |]|]. }
  destruct H' as (H4 & H5 & H6). split_and!; try congruence.
  - by rewrite Ec.
  - by rewrite Ec.
  - rewrite Hprocs, lookup_app_l by (by rewrite length_alter).
    by rewrite list_lookup_alter_eq, Hc.
  - rewrite Hprocs, length_app, length_alter. simpl. lia.
Qed.

(** C8 (as the code has it): the environment of the spawned process is the
    inherited environment, to which [HGENCODING=UTF-8] is added when the
    inherited environment does not define [HGENCODING]; a value that it
    does define is kept. *)
Theorem C8_spawn_environment (h : HgCommandServer) (path : option string)
    (name : string) :
  spawnEnv (spawnHgServer process_env process_cwd h path) !! name
  = match process_env !! name with
    | Some value => Some value
    | None => if decide (name = "HGENCODING"%string) then Some "UTF-8"%string else None
    end.
Proof.
  unfold spawnHgServer, spread. simpl. rewrite lookup_union.
  destruct (process_env !! name) as [value|] eqn:E; simpl.
  - by destruct ({[ _ := _ ]} !! name).
  - case_decide as Hn.
    + subst name. by rewrite lookup_singleton_eq.
    + by rewrite lookup_singleton_ne.
Qed.

(** C9: when no server process is running, [runcommand] returns a promise
    that is rejected from the start with ["HGCommandServer is not
    started"]; no command is queued and nothing is written to any stream:
    but for the new promise the system is unchanged. *)
Theorem C9_enqueue_when_not_running (args : list string) (s : System) :
  serverProcess (this s) = None →
  let d := fst (runcommand args s) in
  let s' := snd (runcommand args s) in
  promises s' !! d = Some (Rejected "HGCommandServer is not started")
  ∧ promises s' = promises s ++ [Rejected "HGCommandServer is not started"]
  ∧ commandQueue (this s') = commandQueue (this s)
  ∧ this s' = this s
  ∧ procs s' = procs s
  ∧ resolved s' = resolved s
  ∧ awaiting s' = awaiting s.
Proof.
  intros H. unfold runcommand, enqueueCommand. rewrite H. simpl.
  split_and!; try done. by rewrite lookup_app_r, Nat.sub_diag.
Qed.

End Properties.

(** ** The sample session: counterexamples and instances *)

Lemma ready_decodes : decodes Sample.toString Sample.ready.
Proof. intros data. by eexists. Qed.

Lemma busy_decodes : decodes Sample.toString Sample.busy.
Proof. intros data. by eexists. Qed.

Lemma ready_attached : attached 0 Sample.ready.
Proof. split_and!; [done| |done]. eexists. split; reflexivity. Qed.

Lemma busy_attached : attached 0 Sample.busy.
Proof. split_and!; [done| |done]. eexists. split; reflexivity. Qed.





(** C3 fails on the code: [hg status] is pending when the server process
    exits; after the exit listener has run, and after the new child has
    sent its capabilities, the promise is still pending - it is not
    rejected - and the command is still in the queue. *)
Lemma C3_counterexample :
  let crashed := run_sample Sample.busy [Exit 0 "1"] in
  let restarted := run_sample crashed [Stdout 1 Sample.hello] in
  promises Sample.busy = [Pending]
  ∧ promises crashed = [Pending]
  ∧ serverProcess (this crashed) = None
  ∧ promises restarted = [Pending]
  ∧ serverProcess (this restarted) = Some 1%nat
  ∧ map result (commandQueue (this restarted)) = [0%nat].
Proof. by vm_compute. Qed.

(** C3, on the sample: the server exits with code 1 while [hg status] is
    pending, and the new child sends its hello message. *)
Lemma C3_exit_leaves_pending_commands_witness :
  let crashed := onExit Sample.env Sample.cwd 0 "1" Sample.busy in
  let restarted := onStdout Sample.toString 1 Sample.hello crashed in
  logged crashed = ["hg command server was closed unexpectedly: 1" ++ LF]%string
  ∧ serverProcess (this crashed) = None
  ∧ listeners <$> procs crashed !! 0%nat = Some Detached
  ∧ listeners <$> procs crashed !! 1%nat = Some Spawned
  ∧ promises restarted = [Pending]
  ∧ map result (commandQueue (this restarted)) = [0%nat].
Proof.
  cbv zeta.
  edestruct (C3_exit_leaves_pending_commands Sample.toString Sample.env Sample.cwd 0 "1"
               Sample.hello Sample.busy)
    as (H1 & H2 & H3 & H4 & _ & _ & _ & _ & H9 & _ & H11).
  - reflexivity.
  - reflexivity.
  - reflexivity.
  - split_and!.
    + exact H1.
    + exact H2.
    + exact (f_equal (fmap listeners) H3).
    + exact (f_equal (fmap listeners) H4).
    + exact H9.
    + exact (f_equal (map result) H11).
Defined.

(** C4, on the sample: the answer to [hg status] in one arrival. *)
Lemma C4_hello_then_result_witness :
  let s' := run_sample (snd (runcommand ["status"%string] Sample.ready))
              [Stdout 0 (encodes [outputFrame (list_byte_of_string "hello");
                                  resultFrame 0])] in
  promises s' !! fst (runcommand ["status"%string] Sample.ready)
  = Some (Fulfilled {| exitCode := 0; stdout := "hello"; stderr := "" |})
  ∧ vars <$> procs s' !! 0%nat
    = Some {| errorBuffers := []; outputBodies := []; errorBodies := [];
              exitCodeVar := None |}.
Proof.
  cbv zeta.
  eapply (C4_hello_then_result Sample.toString Sample.env Sample.cwd 0 ["status"%string]
            Sample.ready).
  - reflexivity.
  - reflexivity.
  - reflexivity.
  - reflexivity.
  - reflexivity.
  - reflexivity.
  - left. reflexivity.
Defined.

(** C5, the code against the claim: the result frame with body
    [ff ff ff ff] is -1 as a big-endian signed integer, which is how the
    first burst reads a result body; the stdout listener reads it with
    [readUInt32BE] and resolves the command with exit code 4294967295. *)
Theorem C5_negative_exit_code_is_read_unsigned :
  let minusOne := {| tag := RESULT_CHANNEL; size := 4; body := [xff; xff; xff; xff] |} in
  wellFormed minusOne = true
  ∧ Buffer.readInt32BE (body minusOne) 0 = Some (-1)
  ∧ promises (run_sample Sample.busy [Stdout 0 (encode minusOne)])
    = [Fulfilled {| exitCode := 4294967295; stdout := ""; stderr := "" |}].
Proof. by vm_compute. Qed.

(** C6 fails on the code: a frame of the unknown channel [x] arrives while
    [hg status] is pending.  The listener finishes without an exception and
    leaves the promise pending; the result frame behind it then resolves the
    command as usual.  [getChanName], which would throw, is not called. *)
Lemma C6_counterexample :
  let unknown := {| tag := "x"; size := 4; body := Sample.bytes "oops" |} in
  wellFormed unknown = true
  ∧ getChanName (tag unknown) = inl (Error "Unknown channel 'x'")
  ∧ loop Sample.toString 2 0 (encode unknown) 0 Sample.busy Sample.idle
    = Finished Sample.busy Sample.idle
  ∧ promises (run_sample Sample.busy [Stdout 0 (encode unknown)]) = [Pending]
  ∧ promises (run_sample Sample.busy [Stdout 0 (encodes [unknown; resultFrame 0])])
    = [Fulfilled {| exitCode := 0; stdout := ""; stderr := "" |}].
Proof.
  by vm_compute.
Qed.

(** C6, on the sample: a frame of the debug channel. *)
Lemma C6_other_channels_are_skipped_witness :
  let debug := {| tag := "d"; size := 3; body := Sample.bytes "dbg" |} in
  let data := [] ++ encode debug ++ encode (resultFrame 0) in
  loop Sample.toString 2 0 data (Buffer.len []) Sample.busy Sample.idle
  = loop Sample.toString 1 0 data (Buffer.len [] + Buffer.len (encode debug))
      Sample.busy Sample.idle.
Proof.
  cbv zeta.
  apply (C6_other_channels_are_skipped Sample.toString 1 0 []
           (encode (resultFrame 0)) {| tag := "d"; size := 3; body := Sample.bytes "dbg" |}
           Sample.busy Sample.idle "dbg").
  - reflexivity.
  - discriminate.
  - discriminate.
  - discriminate.
  - discriminate.
  - reflexivity.
  - reflexivity.
Defined.

(** C7, the code against the claim: the first burst of the child is not the
    capabilities.  [parseCapabilitiesAndEncoding] throws inside the stream
    listener, where neither [c] nor [e] is called: the promise of [start] is
    left pending, and nothing that happens afterwards settles it.  On the
    sibling path, a burst that parses but lacks [runcommand] does reject
    the promise. *)
Theorem C7_unparsable_first_burst_leaves_start_pending :
  let burst := encode (outputFrame (Sample.bytes "abort: no repository found")) in
  let outcome := firstBurst Sample.toString 0 burst Sample.spawned in
  let lacking := encode (outputFrame (Sample.bytes
                   ("capabilities: getencoding" ++ LF ++ "encoding: UTF-8"))) in
  snd outcome = Some (Error "Unable to parse capabilities: abort: no repository found")
  ∧ serverProcess (this (fst outcome)) = None
  ∧ (∀ events, started <$> procs (run_sample (fst outcome) events) !! 0%nat
               = Some Pending)
  ∧ started <$> procs (fst (firstBurst Sample.toString 0 lacking Sample.spawned)) !! 0%nat
    = Some (Rejected "runcommand not available").
Proof.
  cbv zeta. split_and!.
  - by vm_compute.
  - by vm_compute.
  - intros events. rewrite stalled_run; [by vm_compute|].
    split_and!; [by vm_compute|by vm_compute|by vm_compute|].
    vm_compute. repeat constructor.
  - by vm_compute.
Qed.

(** C8 fails on the code: the extension host runs with [HGENCODING=latin1];
    the spread copies the inherited variables over the default, and the
    child sees [latin1]. *)
Lemma C8_counterexample :
  let inherited : gmap string string :=
    {[ "HGENCODING"%string := "latin1"%string ]} in
  spawnEnv (spawnHgServer inherited "/home/user" (this (create "/repo")) (Some "/repo"%string))
    !! "HGENCODING"%string
  = Some "latin1"%string.
Proof. by vm_compute. Qed.

(** C9, before the server is started. *)
Lemma C9_enqueue_when_not_running_witness :
  let s := create "/repo" in
  let d := fst (runcommand ["status"%string] s) in
  let s' := snd (runcommand ["status"%string] s) in
  promises s' !! d = Some (Rejected "HGCommandServer is not started")
  ∧ promises s' = promises s ++ [Rejected "HGCommandServer is not started"]
  ∧ commandQueue (this s') = commandQueue (this s)
  ∧ this s' = this s
  ∧ procs s' = procs s
  ∧ resolved s' = resolved s
  ∧ awaiting s' = awaiting s.
Proof.
  cbv zeta. apply (C9_enqueue_when_not_running ["status"%string] (create "/repo")).
  reflexivity.
Defined.

(** C10 fails on the code: [stop()] is called while [hg status] is
    pending, so [stopWhenQueueEmpty] is set.  An arrival holds a line
    request, a result frame and an output frame ["x"]; its handler is parked
    at the line request when a second arrival brings a result frame, which
    resolves the command and stops the server.  When the bridge answers,
    the parked handler decodes its result frame with the queue empty, and
    returns: the output frame behind it is not decoded.  Without the call of
    [stop()] it is. *)
Lemma C10_counterexample :
  let burst := encodes [lineFrame 4; resultFrame 0; outputFrame (Sample.bytes "x")] in
  let later := [Stdout 0 burst; Stdout 0 (encode (resultFrame 0))] in
  let parked := run_sample Sample.busy (Stop false :: later) in
  stopWhenQueueEmpty (this parked) = true
  ∧ commandQueue (this parked) = []
  ∧ (fun k => (k_offset k, drop 5 (k_data k))) <$> awaiting parked
    = [(5, encodes [resultFrame 0; outputFrame (Sample.bytes "x")])]
  ∧ outputBodies <$> (vars <$> procs (run_sample parked [Answer "yes"]) !! 0%nat)
    = Some []
  ∧ outputBodies <$> (vars <$> procs (run_sample Sample.busy (later ++ [Answer "yes"]))
                               !! 0%nat)
    = Some ["x"%string].
Proof. by vm_compute. Qed.

(** C10, on the sample: the server is idle and sends a result. *)
Lemma C10_result_on_empty_queue_witness :
  let data := [] ++ encode (resultFrame 0) ++ encode (outputFrame (Sample.bytes "x")) in
  loop Sample.toString 2 0 data (Buffer.len []) Sample.ready Sample.idle
  = (if stopWhenQueueEmpty (this Sample.ready)
     then Finished (stop false Sample.ready) (reset Sample.idle)
     else loop Sample.toString 1 0 data (Buffer.len [] + 9) Sample.ready
            (reset Sample.idle))
  ∧ promises (stop false Sample.ready) = promises Sample.ready
  ∧ resolved (stop false Sample.ready) = resolved Sample.ready.
Proof.
  cbv zeta.
  apply (C10_result_on_empty_queue Sample.toString 1 0 [] _ (resultFrame 0)
           Sample.ready Sample.idle); reflexivity.
Defined.

(** * Further properties of hgserve.ts *)

Section Extras.

Variable toString : option string → Buffer.t → option string.
Variable process_env : gmap string string.
Variable process_cwd : string.

Local Abbreviation iteration := (iteration toString).
Local Abbreviation loop := (loop toString).
Local Abbreviation resume := (resume toString).
Local Abbreviation frameStep := (frameStep toString).
Local Abbreviation dispatch := (dispatch toString).
Local Abbreviation onStdout := (onStdout toString).
Local Abbreviation onAnswer := (onAnswer toString).
Local Abbreviation firstBurst := (firstBurst toString).
Local Abbreviation onExit := (onExit process_env process_cwd).
Local Abbreviation step := (step toString process_env process_cwd).
Local Abbreviation run := (run toString process_env process_cwd).

(** ** [stop] *)

(** Calling [stop] twice in a row with the same argument does what calling
    it once does: a deferred stop only sets [stopWhenQueueEmpty] again, and
    after a teardown there is no server process left to stop. *)
Theorem stop_twice (force : bool) (s : System) :
  stop force (stop force s) = stop force s.
Proof.
  destruct (serverProcess (this s)) as [p|] eqn:Ep.
  - destruct (negb (length (commandQueue (this s)) =? 0)%nat && negb force) eqn:Ec.
    + unfold stop. rewrite Ep, Ec. simpl. by rewrite Ep, Ec.
    + unfold stop. rewrite Ep, Ec. by simpl.
  - unfold stop. by rewrite Ep, Ep.
Qed.

(** Once [stop] has torn the server down - it was forced, or nothing was
    queued - the instance has no server process, nothing that the old child
    sends on stdout or stderr is looked at, its exit starts no new child,
    and the commands that were pending keep their unsettled promises. *)
Theorem stop_detaches (p : nat) (force : bool) (s : System) (c : ChildProcess) :
  serverProcess (this s) = Some p →
  procs s !! p = Some c →
  force = true ∨ commandQueue (this s) = [] →
  let s' := stop force s in
  serverProcess (this s') = None
  ∧ listeners <$> procs s' !! p = Some Detached
  ∧ stdin <$> procs s' !! p = Some (stdin c ++ [StdinEnd])
  ∧ (∀ data, onStdout p data s' = s')
  ∧ (∀ data, onStderr p data s' = s')
  ∧ (∀ code, onExit p code s' = s')
  ∧ promises s' = promises s
  ∧ commandQueue (this s') = commandQueue (this s).
Proof.
  intros Hp Hc Hf s'.
  assert (Es' : s' = with_this (set_serverProcess None)
                  (on_proc p (fun c => write_stdin StdinEnd (set_listeners Detached c)) s)).
  { unfold s', stop. rewrite Hp.
    destruct Hf as [-> | ->]; [|done]. by rewrite andb_false_r. }
  assert (El : procs s' !! p = Some (write_stdin StdinEnd (set_listeners Detached c))).
  { rewrite Es'. simpl. by rewrite list_lookup_alter_eq, Hc. }
  split_and!.
  - by rewrite Es'.
  - by rewrite El.
  - by rewrite El.
  - intros data. unfold onStdout. by rewrite El.
  - intros data. unfold onStderr. by rewrite El.
  - intros code. unfold onExit. by rewrite El.
  - by rewrite Es'.
  - by rewrite Es'.
Qed.

(** ** The stdout listener comes to an end *)

(** Every turn of the [while] loop moves the cursor forward by five bytes
    or more - also on the line channel, where [offset += 0] follows the five
    bytes of the header - so the listener leaves the loop after at most
    [data.length / 5 + 1] turns, on every input and in every state, and so
    does a handler that is resumed after its [await]. *)
Theorem listener_terminates (p : nat) (data : Buffer.t) (s : System) (v : Closure)
    (k : Suspension) (r : string) :
  (∀ s' v', loop (S (length data)) p data 0 s v ≠ OutOfFuel s' v')
  ∧ (∀ s' v', resume k r s v ≠ OutOfFuel s' v').
Proof.
  split.
  - apply loop_fuel. unfold Buffer.len. lia.
  - intros s' v'. unfold resume.
    destruct (afterAwait_cases (k_proc k) r (k_offset k) s v)
      as [(s1 & v1 & ->)|(s1 & v1 & ->)]; [|done].
    cbn [proceed].
    destruct (decide (0 <= k_offset k)) as [Hk|Hk].
    + apply loop_fuel. unfold Buffer.len. lia.
    + rewrite loop_unfold. destruct (_ <? _); [|done].
      unfold iteration, Buffer.readUInt8.
      destruct (0 <=? k_offset k) eqn:E; [zbool; lia|done].
Qed.

(** ** What every event preserves *)

Lemma quiet_refl (s : System) : quiet s s.
Proof. done. Qed.

Lemma quiet_trans (s1 s2 s3 : System) : quiet s1 s2 → quiet s2 s3 → quiet s1 s3.
Proof. intros (? & ? & ?) (? & ? & ?). split_and!; congruence. Qed.

Lemma quiet_stop (force : bool) (s : System) : quiet s (stop force s).
Proof.
  unfold stop. destruct (serverProcess (this s)); [|done]. by destruct (_ && _).
Qed.

Lemma quiet_firstBurst (p : nat) (data : Buffer.t) (s : System) :
  quiet s (fst (firstBurst p data s)).
Proof.
  unfold firstBurst.
  destruct (Buffer.readUInt8 data 0); [|done].
  destruct (Buffer.readUInt32BE data 1); [|done].
  destruct (if Ascii.eqb _ _ then _ else _) as [e|text]; [done|].
  destruct (parseCapabilitiesAndEncoding text) as [e|[caps enc]]; [done|].
  destruct (bool_decide _); by destruct (started <$> _) as [[| |]|].
Qed.

Lemma quiet_onStderr (p : nat) (data : Buffer.t) (s : System) :
  quiet s (onStderr p data s).
Proof.
  unfold onStderr. destruct (listeners <$> procs s !! p) as [[| | |]|]; try done;
    by destruct (starting (this s)).
Qed.

Lemma quiet_onExit (p : nat) (code : string) (s : System) :
  quiet s (onExit p code s).
Proof.
  unfold onExit.
  destruct (listeners <$> procs s !! p) as [[| | |]|]; try done.
  unfold start, spawnCommandServerProcess.
  set (s1 := log _ s). destruct (quiet_stop true s1) as (E1 & E2 & E3).
  split_and!; simpl; by rewrite ?E1, ?E2, ?E3.
Qed.

Section Preserved.

(** A property of the system that quiet changes, the delivery of a result
    and [runcommand] preserve is preserved by every event. *)
Variable P : System → Prop.
Hypothesis P_quiet : ∀ s s', quiet s s' → P s → P s'.
Hypothesis P_deliver : ∀ s answer, P s → P (deliverResult answer s).
Hypothesis P_enqueue : ∀ s args, P s → P (snd (runcommand args s)).

Lemma finishFrame_preserves (next : Z) (s : System) (v : Closure) :
  P s → P (stateOf (finishFrame next s v)).
Proof.
  intros H. destruct (exitCodeVar v) as [code|] eqn:Ev.
  - rewrite (finishFrame_result next s v code Ev). cbv zeta.
    set (s2 := deliverResult _ s). assert (H2 : P s2) by by apply P_deliver.
    destruct (_ && _); simpl; [|done].
    eapply P_quiet; [apply quiet_stop|done].
  - by rewrite finishFrame_none.
Qed.

Lemma iteration_preserves (data : Buffer.t) (offset : Z) (s : System) (v : Closure) :
  P s → P (stateOf (iteration data offset s v)).
Proof.
  intros H. unfold iteration.
  destruct (Buffer.readUInt8 _ _); [|done].
  destruct (Buffer.readUInt32BE data (offset + 1)); [|done].
  destruct (Ascii.eqb _ RESULT_CHANNEL).
  { destruct (Buffer.readUInt32BE data (offset + 5)); [|done].
    by apply finishFrame_preserves. }
  destruct (Ascii.eqb _ LINE_CHANNEL); [done|].
  destruct (toString _ _); [|done]. by apply finishFrame_preserves.
Qed.

Lemma loop_preserves (fuel p : nat) (data : Buffer.t) :
  ∀ (offset : Z) (s : System) (v : Closure),
  P s → P (outcomeState (loop fuel p data offset s v)).
Proof.
  induction fuel as [|fuel IH]; intros offset s v H.
  - simpl. by destruct (offset <? Buffer.len data).
  - rewrite loop_unfold. destruct (offset <? Buffer.len data); [|done].
    pose proof (iteration_preserves data offset s v H) as Hi.
    destruct (iteration data offset s v); cbn [proceed outcomeState stateOf] in *;
      try done. by apply IH.
Qed.

Lemma park_preserves (p : nat) (o : Outcome) : P (outcomeState o) → P (park p o).
Proof.
  intros H. destruct o; simpl in *; eapply P_quiet; try apply H; done.
Qed.

Lemma step_preserves (s : System) (e : Event) : P s → P (step s e).
Proof.
  intros H. destruct e as [args|force|p data|p data|p code|r]; simpl.
  - by apply P_enqueue.
  - eapply P_quiet; [apply quiet_stop|done].
  - unfold onStdout. destruct (procs s !! p) as [c|]; [|done].
    destruct (listeners c); try done.
    + eapply P_quiet; [apply quiet_firstBurst|done].
    + by apply park_preserves, loop_preserves.
  - eapply P_quiet; [apply quiet_onStderr|done].
  - eapply P_quiet; [apply quiet_onExit|done].
  - unfold onAnswer. destruct (awaiting s) as [|k rest]; [done|].
    set (s1 := with_awaiting _ s). assert (H1 : P s1) by (by eapply P_quiet; [|apply H]).
    destruct (procs s1 !! k_proc k) as [c|]; [|done].
    apply park_preserves. unfold resume.
    assert (Ha : P (stateOf (afterAwait (k_proc k) r (k_offset k) s1 (vars c)))).
    { unfold afterAwait. apply finishFrame_preserves.
      by eapply P_quiet; [|apply H1]. }
    destruct (afterAwait _ _ _ _ _); cbn [proceed outcomeState stateOf] in *; try done.
    by apply loop_preserves.
Qed.

Lemma run_preserves (events : list Event) : ∀ s, P s → P (run s events).
Proof.
  induction events as [|e events IH]; intros s H; [done|].
  apply IH. by apply step_preserves.
Qed.

End Preserved.

Lemma evolves_refl (s : System) : evolves s s.
Proof. intros d x H. by left. Qed.

Lemma evolves_trans (s1 s2 s3 : System) : evolves s1 s2 → evolves s2 s3 → evolves s1 s3.
Proof.
  intros H12 H23 d x H. destruct (H12 d x H) as [H2|(-> & r & H2)].
  - by apply H23.
  - right. split; [done|]. exists r.
    by destruct (H23 d _ H2) as [?|(? & _)].
Qed.

Lemma evolves_deliverResult (answer : IExecutionResult) (s : System) :
  evolves s (deliverResult answer s).
Proof.
  intros d x H. unfold deliverResult, dequeueCommand.
  destruct (commandQueue (this s)) as [|c rest]; [by left|].
  unfold resolve. simpl.
  destruct (promises s !! result c) as [[| |]|] eqn:E; try by left.
  simpl. destruct (decide (result c = d)) as [Heq|Hne].
  - right. rewrite Heq in E. split; [congruence|]. exists answer.
    rewrite Heq. apply list_lookup_insert_eq. by eapply lookup_lt_Some.
  - left. by rewrite list_lookup_insert_ne.
Qed.

Lemma evolves_runcommand (args : list string) (s : System) :
  evolves s (snd (runcommand args s)).
Proof.
  intros d x H. left. unfold runcommand, enqueueCommand.
  destruct (serverProcess (this s)); simpl; by apply lookup_app_l_Some.
Qed.

(** No event ever rejects the promise of a command, and none changes a
    promise that is settled: whatever the child sends and whatever is
    called, a promise that [runcommand] returned pending is pending or
    fulfilled afterwards, and a fulfilled or rejected promise stays as it
    is.  In particular a crash, a stop and a frame of an unknown channel
    leave the pending promises pending. *)
Theorem promises_are_never_rejected (events : list Event) (s : System) :
  evolves s (run s events).
Proof.
  apply (run_preserves (evolves s)); try apply evolves_refl.
  - intros s1 s2 (E & _ & _) H d x Hd. unfold evolves in H. rewrite E. by apply H.
  - intros s1 answer H. eapply evolves_trans; [apply H|apply evolves_deliverResult].
  - intros s1 args H. eapply evolves_trans; [apply H|apply evolves_runcommand].
Qed.

Lemma pendingQueue_runcommand (args : list string) (s : System) :
  pendingQueue s → pendingQueue (snd (runcommand args s)).
Proof.
  intros [Hnd Hp]. unfold runcommand, enqueueCommand.
  destruct (serverProcess (this s)) as [p|]; unfold pendingQueue; simpl.
  - rewrite map_app. split.
    + apply NoDup_app. split_and!; try done; [|apply NoDup_singleton].
      intros d Hin Hd'. apply list_elem_of_singleton in Hd'. subst d.
      apply list_elem_of_In, in_map_iff in Hin as (c' & Hres & Hin).
      apply list_elem_of_In, Hp, lookup_lt_Some in Hin. simpl in Hres. lia.
    + intros c' Hin. apply elem_of_app in Hin as [Hin|Hin].
      * apply lookup_app_l_Some. by apply Hp.
      * apply list_elem_of_singleton in Hin. subst c'. simpl.
        by rewrite lookup_app_r, Nat.sub_diag.
  - split; [done|]. intros c' Hin. apply lookup_app_l_Some. by apply Hp.
Qed.

(** In every state the instance reaches, each queued command has a promise
    of its own that is still pending: no two commands of the queue share a
    promise, and no promise is settled while its command is still queued. *)
Theorem queued_promises_stay_pending (events : list Event) (s : System) :
  pendingQueue s → pendingQueue (run s events).
Proof.
  apply (run_preserves pendingQueue).
  - intros s1 s2 (E1 & _ & E2) H. unfold pendingQueue in *. by rewrite E1, E2.
  - intros s1 answer H. by apply pendingQueue_deliverResult.
  - intros s1 args H. by apply pendingQueue_runcommand.
Qed.

(** ** Frames that an arrival cuts *)

Lemma slice_to_end (pre rest : Buffer.t) (end_ : Z) :
  Buffer.len (pre ++ rest) <= end_ →
  Buffer.slice (pre ++ rest) (Buffer.len pre) end_ = rest.
Proof.
  intros He. unfold Buffer.slice.
  pose proof (len_nonneg pre). pose proof (len_nonneg rest).
  rewrite (adjustOffset_within (Buffer.len pre)) by (rewrite len_app; lia).
  rewrite (adjustOffset_beyond end_) by (rewrite len_app in *; lia).
  rewrite len_app. unfold Buffer.len. rewrite Nat2Z.id, drop_app_length.
  replace (Z.to_nat (Z.of_nat (length pre) + Z.of_nat (length rest) - Z.of_nat (length pre)))
    with (length rest) by lia.
  apply firstn_all.
Qed.

(** When fewer than five bytes are left at the cursor, [readUInt32BE]
    throws a [RangeError] out of the listener: nothing is appended, no
    promise is settled, and the bytes are not kept for the next arrival. *)
Theorem cut_header_throws (fuel p : nat) (data : Buffer.t) (offset : Z) (s : System)
    (v : Closure) :
  0 <= offset < Buffer.len data →
  Buffer.len data < offset + 5 →
  loop (S fuel) p data offset s v = Threw RangeError s v.
Proof.
  intros [H0 H1] H2. rewrite loop_unfold.
  destruct (offset <? Buffer.len data) eqn:E; [|zbool; lia].
  unfold iteration, Buffer.readUInt8.
  destruct (0 <=? offset) eqn:E0; [|zbool; lia].
  destruct (lookup_lt_is_Some_2 data (Z.to_nat offset)) as [b ->].
  { unfold Buffer.len in H1. lia. }
  simpl. by rewrite readUInt32BE_short by lia.
Qed.

(** The same happens to a result frame whose header is complete while fewer
    than four bytes of its body have arrived. *)
Theorem cut_result_throws (fuel p : nat) (pre part : Buffer.t) (n : Z) (s : System)
    (v : Closure) :
  0 <= n < 2 ^ 32 →
  Buffer.len part < 4 →
  loop (S fuel) p (pre ++ encode {| tag := RESULT_CHANNEL; size := n; body := part |})
    (Buffer.len pre) s v
  = Threw RangeError s v.
Proof.
  intros Hn Hp. set (f := {| tag := RESULT_CHANNEL; size := n; body := part |}).
  rewrite loop_unfold.
  destruct (_ <? _) eqn:E; cycle 1.
  { zbool. rewrite len_app, len_encode in E. cbn [body f] in E.
    pose proof (len_nonneg part). lia. }
  unfold iteration.
  pose proof (frame_tag_at pre [] f) as Ht. rewrite app_nil_r in Ht.
  destruct (Buffer.readUInt8 _ _) as [c|]; [|done]. simpl in Ht. injection Ht as ->.
  pose proof (frame_size_at pre [] f Hn) as Hs. rewrite app_nil_r in Hs. rewrite Hs.
  change (Ascii.eqb (tag f) RESULT_CHANNEL) with true. cbv iota.
  rewrite readUInt32BE_short; [done|].
  rewrite len_app, len_encode. cbn [body f]. lia.
Qed.

(** An output frame whose body is cut is not held back: [slice] clamps, the
    part of the body that has arrived is decoded and appended as if it were
    the whole body, and the listener leaves the loop. *)
Theorem cut_output_is_appended (fuel p : nat) (pre part : Buffer.t) (n : Z) (s : System)
    (v : Closure) (text : string) :
  Buffer.len part <= n < 2 ^ 32 →
  exitCodeVar v = None →
  toString (encoding (this s)) part = Some text →
  loop (S fuel) p (pre ++ encode {| tag := OUTPUT_CHANNEL; size := n; body := part |})
    (Buffer.len pre) s v
  = Finished s (push_outputBodies text v).
Proof.
  intros Hn Hv Hts. set (f := {| tag := OUTPUT_CHANNEL; size := n; body := part |}).
  pose proof (len_nonneg part).
  rewrite loop_unfold.
  destruct (_ <? _) eqn:E; cycle 1.
  { zbool. rewrite len_app, len_encode in E. cbn [body f] in E. lia. }
  unfold iteration.
  pose proof (frame_tag_at pre [] f) as Ht. rewrite app_nil_r in Ht.
  destruct (Buffer.readUInt8 _ _) as [c|]; [|done]. simpl in Ht. injection Ht as ->.
  pose proof (frame_size_at pre [] f) as Hs. rewrite app_nil_r in Hs.
  rewrite Hs by (simpl; lia).
  change (Ascii.eqb (tag f) RESULT_CHANNEL) with false.
  change (Ascii.eqb (tag f) LINE_CHANNEL) with false. cbv iota.
  destruct (frame_body_split pre [] f) as [Ed El]. rewrite !app_nil_r in Ed.
  assert (Esl : Buffer.slice (pre ++ encode f) (Buffer.len pre + 5)
                  (Buffer.len pre + 5 + size f) = part).
  { rewrite Ed, <- El. apply slice_to_end. rewrite len_app, El. cbn [body size f]. lia. }
  rewrite Esl, Hts. unfold accumulate.
  change (Ascii.eqb (tag f) OUTPUT_CHANNEL) with true. cbv iota.
  rewrite finishFrame_none by done. cbn [proceed].
  apply loop_end. rewrite len_app, len_encode. cbn [body size f]. lia.
Qed.

(** ** The line channel *)

(** At a line-input request the handler is parked with the output gathered
    so far and the size the server asks for; the five bytes of the header
    are all it consumes, and nothing behind them is decoded before the
    bridge answers.  The answer is then written to the stdin of the child
    that the listeners were attached to, in the encoding negotiated by then,
    and decoding goes on behind the header. *)
Theorem line_request_waits_for_the_answer (fuel p : nat) (pre post : Buffer.t)
    (f : Frame) (s : System) (v : Closure) :
  wellFormed f = true → isLine f = true →
  let data := pre ++ encode f ++ post in
  let k := {| k_proc := p; k_data := data; k_offset := Buffer.len pre + 5;
              k_stdout := String.concat "" (outputBodies v); k_length := size f |} in
  loop (S fuel) p data (Buffer.len pre) s v = Suspended k s v
  ∧ ∀ (r : string) (s' : System) (v' : Closure),
      exitCodeVar v' = None →
      resume k r s' v'
      = loop (S (length data)) p data (Buffer.len pre + 5)
          (serverSendLineInput p (encoding (this s')) r s') v'.
Proof.
  intros Hw Hl data k. split.
  - unfold data. rewrite loop_frame by done.
    unfold frameStep.
    assert (Er : isResult f = false).
    { unfold isLine, isResult in *. apply Ascii.eqb_eq in Hl. by rewrite Hl. }
    rewrite Er, Hl. cbn [proceed]. unfold k, data.
    rewrite len_encode, (wellFormed_line f Hw Hl). simpl Buffer.len.
    by rewrite Z.add_0_r.
  - intros r s' v' Hv. unfold resume, afterAwait.
    rewrite finishFrame_none by done. cbn [proceed k_proc k_data k_offset k].
    by rewrite Z.add_0_r.
Qed.

(** ** Output and error channels *)

Local Abbreviation texts := (texts toString).

Lemma dispatch_data (p : nat) (frames more : list Frame) (answers : list string) :
  ∀ (s : System) (v : Closure),
  decodes toString s →
  exitCodeVar v = None →
  forallb isData frames = true →
  dispatch p (frames ++ more) answers s v
  = dispatch p more answers s
      {| errorBuffers := errorBuffers v;
         outputBodies := outputBodies v
                         ++ texts (encoding (this s)) OUTPUT_CHANNEL frames;
         errorBodies := errorBodies v
                        ++ texts (encoding (this s)) ERROR_CHANNEL frames;
         exitCodeVar := None |}.
Proof.
  induction frames as [|f frames IH]; intros s v Hd Hv Hf.
  - simpl. rewrite !app_nil_r. destruct v. simpl in Hv. by subst.
  - simpl in Hf. apply andb_true_iff in Hf as [Hf1 Hf].
    unfold isData in Hf1. apply andb_true_iff in Hf1 as [Hr Hl].
    apply negb_true_iff in Hr, Hl.
    cbn [app dispatch]. unfold frameStep.
    rewrite Hr, Hl. destruct (Hd (body f)) as [text Ht]. rewrite Ht.
    assert (Hv' : exitCodeVar (accumulate (tag f) text v) = None).
    { unfold accumulate. by repeat case_match. }
    rewrite finishFrame_none by done. rewrite IH by done. f_equal.
    unfold texts, accumulate. cbn [omap list_omap].
    destruct (Ascii.eqb (tag f) OUTPUT_CHANNEL) eqn:Eo.
    + assert (Ee : Ascii.eqb (tag f) ERROR_CHANNEL = false).
      { apply Ascii.eqb_eq in Eo. by rewrite Eo. }
      rewrite Ee, Ht. simpl. by rewrite <- app_assoc.
    + destruct (Ascii.eqb (tag f) ERROR_CHANNEL) eqn:Ee.
      * rewrite Ht. simpl. by rewrite <- app_assoc.
      * done.
Qed.

Lemma dispatch_result_head (p : nat) (code : Z) (s : System) (v : Closure)
    (c : PipelineCommand) (rest : list PipelineCommand) :
  0 <= code < 2 ^ 32 →
  commandQueue (this s) = c :: rest →
  promises s !! result c = Some Pending →
  (p < length (procs s))%nat →
  let answer := {| exitCode := code;
                   stdout := String.concat "" (outputBodies v);
                   stderr := String.concat "" (errorBodies v) |} in
  let s' := dispatch p [resultFrame code] [] s v in
  promises s' !! result c = Some (Fulfilled answer)
  ∧ resolved s' = resolved s ++ [(result c, answer)]
  ∧ commandQueue (this s') = rest
  ∧ vars <$> procs s' !! p = Some (reset v).
Proof.
  intros Hcode Hq Hp Hlt answer s'. subst s'. cbn [dispatch].
  unfold frameStep.
  change (isResult (resultFrame code)) with true. cbv iota.
  assert (Ecode : resultCode (resultFrame code) = code).
  { unfold resultCode, resultFrame. cbn [body].
    change (Buffer.uint32BE code) with ([] ++ Buffer.uint32BE code ++ []).
    change 0 with (Buffer.len []). by rewrite readUInt32BE_at. }
  rewrite Ecode.
  rewrite (finishFrame_result 0 s (set_exitCode code v) code) by done.
  cbv zeta. cbn [outputBodies errorBodies set_exitCode]. fold answer.
  destruct (deliverResult_head answer s c rest Hq Hp) as [Elog Eprom].
  destruct (deliverResult_this answer s) as (_ & _ & _ & Eq & Eprocs & _).
  rewrite Hq in Eq. simpl in Eq.
  assert (Hful : promises (deliverResult answer s) !! result c = Some (Fulfilled answer)).
  { rewrite Eprom. apply list_lookup_insert_eq. by eapply lookup_lt_Some. }
  assert (Hlt2 : (p < length (procs (deliverResult answer s)))%nat) by by rewrite Eprocs.
  destruct (_ && _).
  - destruct (quiet_stop false (deliverResult answer s)) as (E1 & E2 & E3).
    change (promises (on_proc p ?f ?x)) with (promises x).
    change (resolved (on_proc p ?f ?x)) with (resolved x).
    change (this (on_proc p ?f ?x)) with (this x).
    rewrite E1, E2, E3. split_and!; try done. apply vars_after_write.
    destruct (sameShape_stop false (deliverResult answer s)) as [_ ->]. done.
  - cbn [dispatch].
    change (promises (on_proc p ?f ?x)) with (promises x).
    change (resolved (on_proc p ?f ?x)) with (resolved x).
    change (this (on_proc p ?f ?x)) with (this x).
    split_and!; try done. by apply vars_after_write.
Qed.

(** The bodies that arrive on the output channel and those that arrive on
    the error channel are gathered apart, each in stream order, whatever
    their interleaving and whatever debug or unknown frames lie between
    them; the result frame that follows hands both texts, joined, and its
    number to the oldest queued command, takes that command off the queue
    and empties the accumulators. *)
Theorem output_and_error_are_gathered_apart (p : nat) (frames : list Frame) (code : Z)
    (s : System) (c0 : ChildProcess) (command : PipelineCommand)
    (rest : list PipelineCommand) :
  running p s = true → decodes toString s →
  procs s !! p = Some c0 →
  commandQueue (this s) = command :: rest →
  promises s !! result command = Some Pending →
  forallb wellFormed frames = true →
  forallb isData frames = true →
  0 <= code < 2 ^ 32 →
  let s' := run s [Stdout p (encodes (frames ++ [resultFrame code]))] in
  promises s' !! result command
  = Some (Fulfilled
      {| exitCode := code;
         stdout := String.concat ""
                     (outputBodies (vars c0)
                      ++ texts (encoding (this s)) OUTPUT_CHANNEL frames);
         stderr := String.concat ""
                     (errorBodies (vars c0)
                      ++ texts (encoding (this s)) ERROR_CHANNEL frames) |})
  ∧ commandQueue (this s') = rest
  ∧ vars <$> procs s' !! p
    = Some {| errorBuffers := []; outputBodies := []; errorBodies := [];
              exitCodeVar := None |}.
Proof.
  intros Hr Hd Hc Hq Hp Hw Hf Hcode s'.
  destruct (running_spec p s Hr) as [Ha (c & Hc' & Hv)].
  assert (c = c0) by congruence. subst c.
  pose proof Ha as (_ & (c & Hc'' & Hl) & H3).
  assert (c = c0) by congruence. subst c.
  assert (Hlines : ∀ l : list Frame, forallb isData l = true → filter isLine l = []).
  { induction l as [|f l IHl]; [done|]. simpl. intros H.
    apply andb_true_iff in H as [H1 H2]. rewrite filter_cons.
    unfold isData in H1. apply andb_true_iff in H1 as [_ H1].
    apply negb_true_iff in H1. case_decide as Hdec; [by rewrite H1 in Hdec|].
    by apply IHl. }
  unfold s'.
  change [Stdout p (encodes (frames ++ [resultFrame code]))]
    with (arrival p (frames ++ [resultFrame code]) []).
  rewrite (run_arrival toString process_env process_cwd p _ [] s c0); try done; cycle 1.
  { rewrite forallb_app, Hw. reflexivity. }
  { rewrite filter_app, (Hlines frames Hf). reflexivity. }
  rewrite dispatch_data by done.
  set (v := {| errorBuffers := errorBuffers (vars c0) |}).
  destruct (dispatch_result_head p code s v command rest) as (R1 & _ & R3 & R4);
    try done.
  { by eapply lookup_lt_Some. }
Qed.

(** ** A deferred stop *)

Lemma stop_when_drained (p : nat) (s : System) :
  attached p s → commandQueue (this s) = [] →
  serverProcess (this (stop false s)) = None ∧ detached p (stop false s).
Proof.
  intros Ha Hq. split; [|by apply stop_drained].
  destruct Ha as (H1 & _). unfold stop. by rewrite H1, Hq.
Qed.

Lemma dispatch_drain (p : nat) (frames : list Frame) :
  ∀ (answers : list string) (s : System) (v : Closure),
  attached p s → decodes toString s →
  stopWhenQueueEmpty (this s) = true →
  pendingQueue s →
  exitCodeVar v = None →
  forallb wellFormed frames = true →
  length (filter isLine frames) = length answers →
  length (filter isResult frames) = length (commandQueue (this s)) →
  commandQueue (this s) ≠ [] →
  let s' := dispatch p frames answers s v in
  ∃ results,
    map exitCode results = map resultCode (filter isResult frames)
    ∧ resolved s' = resolved s ++ zip (map result (commandQueue (this s))) results
    ∧ commandQueue (this s') = []
    ∧ serverProcess (this s') = None
    ∧ detached p s'.
Proof.
  induction frames as [|f frames IH];
    intros answers s v Ha Hd Hf Hq Hv Hw Hn Hr Hne; cbn [dispatch].
  - simpl in Hr. by destruct (commandQueue (this s)).
  - simpl in Hw. apply andb_true_iff in Hw as [Hwf Hw].
    rewrite (count_cons isLine) in Hn. rewrite (count_cons isResult) in Hr.
    unfold frameStep. destruct (isResult f) eqn:Er.
    + assert (El : isLine f = false).
      { unfold isLine, isResult in *. apply Ascii.eqb_eq in Er. by rewrite Er. }
      rewrite El in Hn. simpl in Hn.
      rewrite (finishFrame_result 0 s _ (resultCode f)) by done. cbv zeta.
      set (answer := {| exitCode := resultCode f |}).
      destruct (commandQueue (this s)) as [|c rest] eqn:Eq; [done|].
      simpl in Hr.
      destruct (deliverResult_this answer s) as (E1 & E2 & E3 & E4 & E5 & E6).
      destruct (deliverResult_head answer s c rest Eq) as [Elog Eprom].
      { apply Hq. rewrite Eq. by left. }
      rewrite Eq in E4. cbn [tail] in E4. rewrite E3, Hf, E4.
      assert (Ha2 : attached p (deliverResult answer s))
        by by apply attached_deliverResult.
      destruct rest as [|c2 rest].
      * (* the last queued command: the server stops *)
        cbn [length Nat.eqb andb].
        destruct (stop_when_drained p (deliverResult answer s) Ha2 E4) as [Hs Hdet].
        destruct (quiet_stop false (deliverResult answer s)) as (Q1 & Q2 & Q3).
        exists [answer]. rewrite (filter_cons isResult).
        case_decide as Hdec; [|by rewrite Er in Hdec].
        assert (Hnil : filter isResult frames = []).
        { apply length_zero_iff_nil. simpl in Hr. lia. }
        rewrite Hnil. split_and!.
        -- done.
        -- change (resolved (on_proc p ?g ?x)) with (resolved x).
           by rewrite Q2, Elog.
        -- change (this (on_proc p ?g ?x)) with (this x). by rewrite Q3.
        -- done.
        -- by apply detached_vars.
      * cbn [length Nat.eqb andb].
        assert (Hd2 : decodes toString (deliverResult answer s))
          by (unfold decodes in *; by rewrite E2).
        assert (Hf2 : stopWhenQueueEmpty (this (deliverResult answer s)) = true)
          by congruence.
        assert (Hq2 : pendingQueue (deliverResult answer s))
          by by apply pendingQueue_deliverResult.
        assert (Hr2 : length (filter isResult frames)
                      = length (commandQueue (this (deliverResult answer s))))
          by (rewrite E4; simpl in *; lia).
        assert (Hne2 : commandQueue (this (deliverResult answer s)) ≠ [])
          by by rewrite E4.
        destruct (IH answers (deliverResult answer s)
                    (reset (set_exitCode (resultCode f) v)) Ha2 Hd2 Hf2 Hq2 eq_refl Hw Hn
                    Hr2 Hne2)
          as (results & R1 & R2 & R3 & R4 & R5).
        exists (answer :: results). rewrite (filter_cons isResult).
        case_decide as Hdec; [|by rewrite Er in Hdec].
        cbn [map zip_with]. rewrite R1, R2, Elog, E4, <- app_assoc.
        by split_and!.
    + destruct (isLine f) eqn:El.
      * destruct answers as [|r answers]; [done|]. simpl in Hn, Hr.
        unfold afterAwait. rewrite finishFrame_none by done.
        set (s1 := serverSendLineInput p _ r s).
        destruct (IH answers s1 v) as (results & R); try done; try lia.
        -- by apply attached_on_proc.
        -- exists results. rewrite (filter_cons isResult).
           case_decide as Hdec; [by rewrite Er in Hdec|]. done.
      * simpl in Hn, Hr. destruct (Hd (body f)) as [text ->].
        assert (Hv' : exitCodeVar (accumulate (tag f) text v) = None).
        { unfold accumulate. by repeat case_match. }
        rewrite finishFrame_none by done.
        destruct (IH answers s (accumulate (tag f) text v)) as (results & R);
          try done; try lia.
        exists results. rewrite (filter_cons isResult).
        case_decide as Hdec; [by rewrite Er in Hdec|]. done.
Qed.

(** [stop()] on a server with queued commands tears nothing down: it sets
    [stopWhenQueueEmpty] and the child goes on serving.  The results that
    arrive afterwards are delivered in queue order, and with the result of
    the last queued command the listener closes the stdin of the child,
    removes the listeners and releases the process: the deferred stop loses
    no command. *)
Theorem deferred_stop_drains_the_queue (p : nat) (frames : list Frame)
    (answers : list string) (s : System) :
  running p s = true → decodes toString s →
  pendingQueue s →
  commandQueue (this s) ≠ [] →
  forallb wellFormed frames = true →
  length (filter isLine frames) = length answers →
  length (filter isResult frames) = length (commandQueue (this s)) →
  let stopping := stop false s in
  let s' := run stopping (arrival p frames answers) in
  stopping = with_this (set_stopWhenQueueEmpty true) s
  ∧ ∃ results,
      map exitCode results = map resultCode (filter isResult frames)
      ∧ resolved s' = resolved s ++ zip (map result (commandQueue (this s))) results
      ∧ commandQueue (this s') = []
      ∧ serverProcess (this s') = None
      ∧ listeners <$> procs s' !! p = Some Detached.
Proof.
  intros Hr Hd Hq Hne Hw Hn Hk stopping s'.
  destruct (running_spec p s Hr) as [Ha (c & Hc & Hv)].
  pose proof Ha as (H1 & (c' & Hc' & Hl) & H3).
  assert (c' = c) by congruence. subst c'.
  assert (Es : stopping = with_this (set_stopWhenQueueEmpty true) s).
  { unfold stopping, stop. rewrite H1.
    destruct (commandQueue (this s)); [done|reflexivity]. }
  split; [done|]. unfold s'. rewrite Es.
  rewrite (run_arrival toString process_env process_cwd p frames answers _ c);
    try done; try lia.
  destruct (dispatch_drain p frames answers (with_this (set_stopWhenQueueEmpty true) s)
              (vars c)) as (results & R1 & R2 & R3 & R4 & (c2 & Hc2 & Hl2) & _);
    try done.
  exists results. split_and!; try done. by rewrite Hc2, <- Hl2.
Qed.

(** ** The handshake *)

Lemma string_app_cons (c : ascii) (a b : string) :
  (String c a ++ b)%string = String c (a ++ b).
Proof. reflexivity. Qed.

Lemma string_app_nil_l (a : string) : ("" ++ a)%string = a.
Proof. reflexivity. Qed.

Lemma string_app_nil_r (a : string) : (a ++ "")%string = a.
Proof. induction a as [|c a IH]; [done|]. by rewrite string_app_cons, IH. Qed.

Lemma string_app_assoc (a b c : string) : ((a ++ b) ++ c)%string = (a ++ b ++ c)%string.
Proof. induction a as [|x a IH]; [done|]. by rewrite !string_app_cons, IH. Qed.

Lemma stripPrefix_app (prefix rest : string) :
  stripPrefix prefix (prefix ++ rest) = Some rest.
Proof.
  induction prefix as [|c prefix IH]; [done|].
  rewrite string_app_cons. simpl. by rewrite Ascii.eqb_refl.
Qed.

Lemma matchHere_lazyDot (pats : list Pat) (input : string) (groups : list string) :
  matchHere (LazyDot :: pats) input groups = lazyDot pats groups "" input.
Proof. reflexivity. Qed.

Lemma lazyDot_unfold (pats : list Pat) (groups : list string) (taken input : string) :
  lazyDot pats groups taken input
  = match matchHere pats input (groups ++ [taken]) with
    | Some r => Some r
    | None =>
        match input with
        | String c rest =>
            if lineTerminator c then None
            else lazyDot pats groups (taken ++ String c EmptyString) rest
        | EmptyString => None
        end
    end.
Proof. by destruct input. Qed.

(** A lazy group runs over a text without line terminators when what
    follows the group in the pattern matches at none of its characters. *)
Lemma lazyDot_skip (pats : list Pat) (groups : list string) (text : string) :
  (∀ c u g, lineTerminator c = false → matchHere pats (String c u) g = None) →
  isLineText text = true →
  ∀ taken rest,
  lazyDot pats groups taken (text ++ rest) = lazyDot pats groups (taken ++ text) rest.
Proof.
  intros Hp. induction text as [|c text IH]; intros Ht taken rest.
  - by rewrite string_app_nil_r.
  - unfold isLineText in *. cbn [allChars] in Ht.
    apply andb_true_iff in Ht as [Hc Ht]. apply negb_true_iff in Hc.
    rewrite lazyDot_unfold, string_app_cons, Hp, Hc by done.
    rewrite IH by done. by rewrite string_app_assoc.
Qed.

Lemma exec_here (pats : list Pat) (input : string) (groups : list string) :
  matchHere pats input [] = Some groups → exec pats input = Some groups.
Proof. intros H. destruct input; simpl; by rewrite H. Qed.

Lemma split_spaces_token (token : string) :
  isToken token = true →
  ∀ current rest,
  split_spaces current (token ++ rest) = split_spaces (current ++ token) rest.
Proof.
  induction token as [|c token IH]; intros Ht current rest.
  - by rewrite string_app_nil_r.
  - unfold isToken in *. cbn [allChars] in Ht. apply andb_true_iff in Ht as [Hc Ht].
    apply andb_true_iff in Hc as [_ Hc]. apply negb_true_iff in Hc.
    rewrite string_app_cons. cbn [split_spaces]. rewrite Hc, IH by done.
    by rewrite string_app_assoc.
Qed.

Lemma split_spaces_concat (caps : list string) :
  caps ≠ [] → forallb isToken caps = true →
  split_spaces "" (String.concat " " caps) = caps.
Proof.
  induction caps as [|token caps IH]; intros Hne Ht; [done|].
  simpl in Ht. apply andb_true_iff in Ht as [Ht Hts].
  destruct caps as [|token2 caps].
  - simpl. rewrite <- (string_app_nil_r token) at 1.
    by rewrite split_spaces_token.
  - change (String.concat " " (token :: token2 :: caps))
      with (token ++ String " " (String.concat " " (token2 :: caps)))%string.
    rewrite split_spaces_token by done. cbn [split_spaces].
    change (Ascii.eqb " " " ") with true. cbv iota. by rewrite string_app_nil_l, IH.
Qed.

Lemma isLineText_app (a b : string) :
  isLineText a = true → isLineText b = true → isLineText (a ++ b) = true.
Proof.
  intros Ha Hb. induction a as [|c a IH]; [done|].
  rewrite string_app_cons. unfold isLineText in *. cbn [allChars] in *.
  apply andb_true_iff in Ha as [Hc Ha]. by rewrite Hc, IH.
Qed.

Lemma isToken_isLineText (token : string) : isToken token = true → isLineText token = true.
Proof.
  induction token as [|c token IH]; [done|].
  unfold isToken, isLineText in *. cbn [allChars]. intros H.
  apply andb_true_iff in H as [Hc H]. apply andb_true_iff in Hc as [Hc _].
  by rewrite Hc, IH.
Qed.

Lemma isLineText_concat (caps : list string) :
  forallb isToken caps = true → isLineText (String.concat " " caps) = true.
Proof.
  induction caps as [|token caps IH]; [done|]. simpl. intros H.
  apply andb_true_iff in H as [Ht H].
  destruct caps as [|token2 caps]; [by apply isToken_isLineText|].
  apply isLineText_app; [by apply isToken_isLineText|].
  apply (isLineText_app " "); [done|by apply IH].
Qed.

(** The first pattern matches the hello message at its first character. *)
Lemma hello_matches (caps : list string) (enc : string) :
  forallb isToken caps = true →
  isLineText enc = true →
  exec [Lit "capabilities: "; LazyDot; Lit (LF ++ "encoding: "); LazyDot; EndOfInput]
    (handshakeText caps enc)
  = Some [String.concat " " caps; enc].
Proof.
  intros Ht He. apply exec_here. unfold handshakeText.
  set (text := String.concat " " caps).
  cbn [matchHere]. rewrite stripPrefix_app.
  change ((fix lazy (taken input : string) {struct input} := _) "" ?i)
    with (lazyDot [Lit (LF ++ "encoding: "); LazyDot; EndOfInput] [] "" i).
  rewrite lazyDot_skip; cycle 1.
  { intros c u g Hc. change (LF ++ "encoding: ")%string with (String "010" "encoding: ").
    cbn [matchHere stripPrefix].
    destruct (Ascii.eqb "010" c) eqn:E; [|done].
    apply Ascii.eqb_eq in E. subst c. done. }
  { by apply isLineText_concat. }
  rewrite lazyDot_unfold, string_app_nil_l. cbn [app].
  rewrite <- string_app_assoc.
  cbn [matchHere]. rewrite stripPrefix_app.
  change ((fix lazy (taken input : string) {struct input} := _) "" ?i)
    with (lazyDot [EndOfInput] [text] "" i).
  rewrite <- (string_app_nil_r enc) at 1.
  rewrite lazyDot_skip; [|by intros|done].
  by rewrite lazyDot_unfold.
Qed.

(** [parseCapabilitiesAndEncoding] reads the hello message back: from
    ["capabilities: " + caps.join(" ") + "\nencoding: " + enc] it returns
    the tokens [caps] and the name [enc], provided there is a token, no
    token holds a space or a line terminator and the name holds no line
    terminator. *)
Theorem parse_reads_the_hello_message (caps : list string) (enc : string) :
  caps ≠ [] →
  forallb isToken caps = true →
  isLineText enc = true →
  parseCapabilitiesAndEncoding (handshakeText caps enc) = inr (caps, enc).
Proof.
  intros Hne Ht He. unfold parseCapabilitiesAndEncoding.
  rewrite hello_matches by done. cbv iota.
  by rewrite split_spaces_concat.
Qed.

Lemma firstBurst_parsed (p : nat) (f : Frame) (more : Buffer.t) (s : System)
    (text : string) (caps : list string) (enc : string) :
  wellFormed f = true → isResult f = false → isLine f = false →
  toString (encoding (this s)) (body f) = Some text →
  parseCapabilitiesAndEncoding (removeNUL text) = inr (caps, enc) →
  firstBurst p (encode f ++ more) s
  = let s1 := with_this (set_starting false) (on_proc p (set_listeners Orphaned) s) in
    let s2 := with_this (set_negotiated caps enc) s1 in
    let s3 := if bool_decide ("runcommand"%string ∈ caps) then s2
              else on_proc p (settle_started (Rejected "runcommand not available")) s2 in
    match started <$> procs s3 !! p with
    | Some Pending =>
        (attachListeners
           (with_this (set_serverProcess (Some p))
              (on_proc p (set_started (Fulfilled ())) s3)), None)
    | _ => (s3, None)
    end.
Proof.
  intros Hw Hr Hl Hts Hparse. unfold firstBurst.
  pose proof (frame_tag_at [] more f) as Ht.
  change ([] ++ encode f ++ more) with (encode f ++ more) in Ht.
  change (Buffer.len []) with 0 in Ht.
  destruct (Buffer.readUInt8 (encode f ++ more) 0) as [c0|]; [|done].
  simpl in Ht. injection Ht as Ht. rewrite Ht.
  pose proof (frame_size_at [] more f (wellFormed_size f Hw)) as Hs.
  change ([] ++ encode f ++ more) with (encode f ++ more) in Hs.
  change (Buffer.len [] + 1) with 1 in Hs. rewrite Hs.
  pose proof (frame_body_at [] more f) as Hb.
  change ([] ++ encode f ++ more) with (encode f ++ more) in Hb.
  change (Buffer.len [] + 5) with 5 in Hb.
  rewrite <- (wellFormed_body f Hw Hl) in Hb. rewrite Hb.
  change (Ascii.eqb (tag f) "r") with (isResult f). rewrite Hr.
  change (encoding (this (with_this (set_starting false) ?x))) with (encoding (this x)).
  change (encoding (this (on_proc p ?g s))) with (encoding (this s)).
  rewrite Hts, Hparse. reflexivity.
Qed.

(** The first burst of a child whose first frame carries the hello message:
    [starting] is cleared and the capabilities and the encoding are stored.
    When [runcommand] is among the capabilities, the promise of [start] is
    fulfilled, the child becomes the server process and its listeners are
    attached with empty accumulators.  When it is not, the promise is
    rejected with ["runcommand not available"] and the instance stays
    without a server process, but keeps the capabilities and the encoding it
    has stored.  Whatever follows the first frame in the burst is not
    decoded, and neither the queue nor the promises of commands change. *)
Theorem first_burst_negotiates (p : nat) (f : Frame) (more : Buffer.t) (s : System)
    (c : ChildProcess) (text : string) (caps : list string) (enc : string) :
  procs s !! p = Some c → listeners c = Spawned → started c = Pending →
  wellFormed f = true → isResult f = false → isLine f = false →
  toString (encoding (this s)) (body f) = Some text →
  removeNUL text = handshakeText caps enc →
  caps ≠ [] → forallb isToken caps = true → isLineText enc = true →
  let s' := onStdout p (encode f ++ more) s in
  let negotiated := set_negotiated caps enc (set_starting false (this s)) in
  promises s' = promises s
  ∧ resolved s' = resolved s
  ∧ if bool_decide ("runcommand"%string ∈ caps)
    then this s' = set_serverProcess (Some p) negotiated
         ∧ procs s' !! p
           = Some (set_vars {| errorBuffers := []; outputBodies := [];
                               errorBodies := []; exitCodeVar := None |}
                     (set_listeners Listening (set_started (Fulfilled ()) c)))
    else this s' = negotiated
         ∧ procs s' !! p
           = Some (set_started (Rejected "runcommand not available")
                     (set_listeners Orphaned c)).
Proof.
  intros Hc Hl Hst Hw Hr Hli Hts Htext Hne Htok Henc s' negotiated.
  destruct (quiet_firstBurst p (encode f ++ more) s) as (Q1 & Q2 & _).
  assert (Es' : s' = fst (firstBurst p (encode f ++ more) s)).
  { unfold s', onStdout. by rewrite Hc, Hl. }
  rewrite Es'. split; [done|]. split; [done|].
  rewrite (firstBurst_parsed p f more s text caps enc); try done; cycle 1.
  { rewrite Htext. unfold parseCapabilitiesAndEncoding.
    rewrite hello_matches by done. cbv iota. by rewrite split_spaces_concat. }
  cbv zeta. destruct (bool_decide _).
  - cbn [procs with_this on_proc with_procs].
    rewrite list_lookup_alter_eq, Hc. cbn [fmap option_fmap option_map started set_listeners].
    rewrite Hst. cbn [fst]. unfold attachListeners.
    cbn [this with_this serverProcess set_serverProcess on_proc with_procs procs].
    split; [done|].
    rewrite !list_lookup_alter_eq, Hc. reflexivity.
  - cbn [procs with_this on_proc with_procs].
    rewrite !list_lookup_alter_eq, Hc.
    unfold settle_started. simpl. rewrite Hst. simpl.
    split; [done|].
    rewrite !list_lookup_alter_eq, Hc. simpl. by rewrite Hst.
Qed.

(** ** Failures around the start *)

(** Once the promise of [start] is settled, the first burst registers
    nothing on the child, whatever it holds. *)
Lemma firstBurst_settled (p : nat) (data : Buffer.t) (s : System) (c : ChildProcess) :
  procs s !! p = Some c → started c ≠ Pending →
  let s' := fst (firstBurst p data s) in
  procs s' !! p = Some (set_listeners Orphaned c)
  ∧ serverProcess (this s') = serverProcess (this s)
  ∧ starting (this s') = false.
Proof.
  intros Hc Hst.
  set (s0 := with_this (set_starting false) (on_proc p (set_listeners Orphaned) s)).
  assert (H0 : procs s0 !! p = Some (set_listeners Orphaned c)
               ∧ serverProcess (this s0) = serverProcess (this s)
               ∧ starting (this s0) = false).
  { unfold s0. cbn. by rewrite list_lookup_alter_eq, Hc. }
  unfold firstBurst. fold s0. clearbody s0.
  destruct (Buffer.readUInt8 data 0); [|done].
  destruct (Buffer.readUInt32BE data 1); [|done].
  destruct (if Ascii.eqb _ _ then _ else _) as [e|text]; [done|].
  destruct (parseCapabilitiesAndEncoding text) as [e|[caps enc]]; [done|].
  set (s3 := with_this (set_negotiated caps enc) s0).
  assert (H3 : procs s3 !! p = Some (set_listeners Orphaned c)
               ∧ serverProcess (this s3) = serverProcess (this s)
               ∧ starting (this s3) = false) by done.
  clearbody s3.
  set (s4 := if bool_decide _ then s3 else _).
  assert (H4 : procs s4 !! p = Some (set_listeners Orphaned c)
               ∧ serverProcess (this s4) = serverProcess (this s)
               ∧ starting (this s4) = false).
  { unfold s4. destruct (bool_decide _); [done|].
    destruct H3 as (H3 & ? & ?). split; [|done]. cbn.
    rewrite list_lookup_alter_eq, H3. cbn. unfold settle_started. cbn.
    by destruct (started c). }
  clearbody s4. destruct H4 as (H4 & ? & ?). rewrite H4. cbn.
  by destruct (started c).
Qed.

(** When the child writes to its stderr before its first stdout burst, the
    promise of [start] is rejected with what it wrote.  A first burst that
    arrives afterwards is still read - it clears [starting] and may store
    capabilities and encoding - but it cannot fulfil the promise any more:
    the child does not become the server process and no listener of
    [attachListeners] is registered on it. *)
Theorem stderr_before_the_first_burst_rejects_start (p : nat) (data burst : Buffer.t)
    (s : System) (c : ChildProcess) :
  procs s !! p = Some c → listeners c = Spawned → started c = Pending →
  starting (this s) = true →
  let s1 := onStderr p data s in
  let s2 := onStdout p burst s1 in
  started <$> procs s1 !! p = Some (Rejected (string_of_list_byte data))
  ∧ started <$> procs s2 !! p = Some (Rejected (string_of_list_byte data))
  ∧ listeners <$> procs s2 !! p = Some Orphaned
  ∧ serverProcess (this s2) = serverProcess (this s)
  ∧ starting (this s2) = false.
Proof.
  intros Hc Hl Hst Hs s1 s2.
  set (c1 := set_started (Rejected (string_of_list_byte data)) c).
  assert (Es1 : s1 = on_proc p (settle_started (Rejected (string_of_list_byte data))) s).
  { unfold s1, onStderr. by rewrite Hc; simpl; rewrite Hl, Hs. }
  assert (Hc1 : procs s1 !! p = Some c1).
  { rewrite Es1. simpl. rewrite list_lookup_alter_eq, Hc. simpl.
    unfold settle_started. by rewrite Hst. }
  split; [by rewrite Hc1|].
  assert (Es2 : s2 = fst (firstBurst p burst s1)).
  { unfold s2, onStdout. rewrite Hc1. simpl. by rewrite Hl. }
  destruct (firstBurst_settled p burst s1 c1 Hc1) as (H2 & H3 & H4); [done|].
  rewrite <- Es2 in H2, H3, H4. rewrite H2, H3, H4. by rewrite Es1.
Qed.

(** When the server process exits unexpectedly, the exit listener logs the
    exit, releases the old child and spawns a new one with the same
    arguments; until the first burst of the new child has been read the
    instance has no server process, and a command that is enqueued in the
    meantime gets a promise that is rejected with ["HGCommandServer is not
    started"] instead of being queued for the new child. *)
Theorem crash_spawns_a_new_child (p : nat) (code : string) (args : list string)
    (s : System) :
  attached p s →
  let crashed := onExit p code s in
  let child := length (procs s) in
  serverProcess (this crashed) = None
  ∧ starting (this crashed) = true
  ∧ logged crashed
    = logged s ++ ["hg command server was closed unexpectedly: " ++ code ++ LF]%string
  ∧ listeners <$> procs crashed !! p = Some Detached
  ∧ listeners <$> procs crashed !! child = Some Spawned
  ∧ started <$> procs crashed !! child = Some Pending
  ∧ spawnArgs <$> procs crashed !! child = Some (hgOpts (this s))
  ∧ promises (snd (runcommand args crashed)) !! fst (runcommand args crashed)
    = Some (Rejected "HGCommandServer is not started")
  ∧ commandQueue (this (snd (runcommand args crashed))) = commandQueue (this s).
Proof.
  intros (H1 & (c & Hc & Hl) & H3) crashed child.
  assert (Hlt : (p < length (procs s))%nat) by by eapply lookup_lt_Some.
  assert (Ec : crashed
               = start process_env process_cwd (hgPath (this s))
                   (with_this (set_serverProcess None)
                      (on_proc p (fun c => write_stdin StdinEnd (set_listeners Detached c))
                         (log ("hg command server was closed unexpectedly: " ++ code ++ LF) s)))).
  { unfold crashed, onExit. rewrite Hc. simpl. rewrite Hl.
    unfold stop. simpl. rewrite H1. by rewrite andb_false_r. }
  assert (Hnone : serverProcess (this crashed) = None) by by rewrite Ec.
  assert (Hprocs : procs crashed
                   = alter (fun c => write_stdin StdinEnd (set_listeners Detached c)) p (procs s)
                     ++ [set_listeners Spawned
                           (spawnHgServer process_env process_cwd
                              (set_starting true (set_hgPath (hgPath (this s))
                                 (set_serverProcess None (this s))))
                              (hgPath (this s)))]).
  { by rewrite Ec. }
  assert (Hchild : procs crashed !! child
                   = Some (set_listeners Spawned
                           (spawnHgServer process_env process_cwd
                              (set_starting true (set_hgPath (hgPath (this s))
                                 (set_serverProcess None (this s))))
                              (hgPath (this s))))).
  { rewrite Hprocs. unfold child.
    rewrite lookup_app_r by (rewrite length_alter; lia).
    by rewrite length_alter, Nat.sub_diag. }
  split_and!; try (by rewrite Ec); try (by rewrite Hchild).
  - rewrite Hprocs, lookup_app_l by (by rewrite length_alter).
    by rewrite list_lookup_alter_eq, Hc.
  - unfold runcommand, enqueueCommand. rewrite Hnone. simpl.
    by rewrite lookup_app_r, Nat.sub_diag.
Qed.

(** ** [errorBuffers] is only written *)

Lemma erase_idemp (s : System) : erase (erase s) = erase s.
Proof.
  unfold erase, with_procs. cbn. f_equal.
  rewrite <- list_fmap_compose. by apply list_fmap_ext.
Qed.

Lemma erase_on_proc (p : nat) (f g : ChildProcess → ChildProcess) (s : System) :
  (∀ c, eraseChild (f c) = g (eraseChild c)) →
  erase (on_proc p f s) = on_proc p g (erase s).
Proof.
  intros H. unfold erase, on_proc, with_procs. cbn. f_equal.
  apply list_fmap_alter, Forall_forall. intros c _. apply H.
Qed.

Lemma erase_on_proc_absorb (p : nat) (f : ChildProcess → ChildProcess) (s : System) :
  (∀ c, eraseChild (f c) = eraseChild c) →
  erase (on_proc p f s) = erase s.
Proof.
  intros H. rewrite (erase_on_proc p f id) by done.
  unfold on_proc, erase, with_procs. cbn. f_equal. by apply list_alter_id.
Qed.

Lemma erase_lookup (p : nat) (s : System) :
  procs (erase s) !! p = eraseChild <$> procs s !! p.
Proof. apply list_lookup_fmap. Qed.

Lemma erase_stop (force : bool) (s : System) :
  erase (stop force s) = stop force (erase s).
Proof.
  unfold stop. change (this (erase s)) with (this s).
  destruct (serverProcess (this s)); [|done].
  destruct (_ && _); [done|].
  change (erase (with_this ?f ?x)) with (with_this f (erase x)).
  by rewrite (erase_on_proc _ _ (fun c => write_stdin StdinEnd (set_listeners Detached c))).
Qed.

Lemma erase_resolve (d : nat) (c : IExecutionResult) (s : System) :
  erase (resolve d c s) = resolve d c (erase s).
Proof.
  unfold resolve. change (promises (erase s)) with (promises s).
  by destruct (promises s !! d) as [[]|].
Qed.

Lemma erase_finishFrame (offset : Z) (s : System) (v : Closure) :
  eraseStep (finishFrame offset s v) = finishFrame offset (erase s) (eraseVars v).
Proof.
  unfold finishFrame. change (exitCodeVar (eraseVars v)) with (exitCodeVar v).
  destruct (exitCodeVar v) as [code|]; [|done].
  change (outputBodies (eraseVars v)) with (outputBodies v).
  change (errorBodies (eraseVars v)) with (errorBodies v).
  unfold dequeueCommand. change (this (erase s)) with (this s).
  destruct (commandQueue (this s)) as [|command rest].
  - change (this (erase s)) with (this s).
    destruct (_ && _); cbn [eraseStep]; by rewrite ?erase_stop.
  - change (with_this ?f (erase s)) with (erase (with_this f s)).
    rewrite <- erase_resolve.
    set (s1 := resolve _ _ _). change (this (erase s1)) with (this s1).
    destruct (_ && _); cbn [eraseStep]; by rewrite ?erase_stop.
Qed.

Lemma erase_iteration (data : Buffer.t) (offset : Z) (s : System) (v : Closure) :
  eraseStep (iteration data offset s v) = iteration data offset (erase s) (eraseVars v).
Proof.
  unfold iteration. change (this (erase s)) with (this s).
  destruct (Buffer.readUInt8 data offset); [|done].
  destruct (Buffer.readUInt32BE data (offset + 1)); [|done].
  destruct (Ascii.eqb _ RESULT_CHANNEL).
  { destruct (Buffer.readUInt32BE data (offset + 5)); [|done].
    by rewrite erase_finishFrame. }
  destruct (Ascii.eqb _ LINE_CHANNEL); [done|].
  destruct (toString _ _); [|done].
  rewrite erase_finishFrame. f_equal. unfold accumulate.
  by repeat case_match.
Qed.

Lemma erase_loop (fuel p : nat) (data : Buffer.t) :
  ∀ (offset : Z) (s : System) (v : Closure),
  eraseOutcome (loop fuel p data offset s v)
  = loop fuel p data offset (erase s) (eraseVars v).
Proof.
  induction fuel as [|fuel IH]; intros offset s v.
  - cbn [loop]. by destruct (_ <? _).
  - rewrite !loop_unfold. destruct (_ <? _); [|done].
    rewrite <- erase_iteration.
    destruct (iteration data offset s v); cbn [proceed eraseStep eraseOutcome];
      first [done | apply IH].
Qed.

Lemma erase_resume (k : Suspension) (r : string) (s : System) (v : Closure) :
  eraseOutcome (resume k r s v) = resume k r (erase s) (eraseVars v).
Proof.
  unfold resume, afterAwait.
  change (this (erase s)) with (this s).
  unfold serverSendLineInput.
  rewrite <- (erase_on_proc _ (write_stdin (SendLineInput (encoding (this s)) r))) by done.
  rewrite <- erase_finishFrame.
  destruct (finishFrame _ _ _); cbn [proceed eraseStep eraseOutcome];
    first [done | apply erase_loop].
Qed.

Lemma erase_park (p : nat) (o : Outcome) :
  erase (park p o) = park p (eraseOutcome o).
Proof.
  assert (H : ∀ v s, erase (on_proc p (set_vars v) s)
                     = on_proc p (set_vars (eraseVars v)) (erase s)).
  { intros v s. by apply erase_on_proc. }
  destruct o; cbn [park eraseOutcome]; rewrite <- ?H; done.
Qed.

Lemma erase_firstBurst (p : nat) (data : Buffer.t) (s : System) :
  erase (fst (firstBurst p data s)) = fst (firstBurst p data (erase s)).
Proof.
  unfold firstBurst.
  change (with_this (set_starting false) (on_proc p (set_listeners Orphaned) (erase s)))
    with (with_this (set_starting false)
            (on_proc p (set_listeners Orphaned) (erase s))).
  rewrite <- (erase_on_proc p (set_listeners Orphaned) (set_listeners Orphaned) s) by done.
  set (s0 := on_proc p (set_listeners Orphaned) s).
  change (with_this (set_starting false) (erase s0))
    with (erase (with_this (set_starting false) s0)).
  set (s1 := with_this (set_starting false) s0). clearbody s1.
  change (this (erase s1)) with (this s1).
  destruct (Buffer.readUInt8 data 0); [|done].
  destruct (Buffer.readUInt32BE data 1); [|done].
  destruct (if Ascii.eqb _ _ then _ else _) as [e|text]; [done|].
  destruct (parseCapabilitiesAndEncoding text) as [e|[caps enc]]; [done|].
  change (with_this (set_negotiated caps enc) (erase s1))
    with (erase (with_this (set_negotiated caps enc) s1)).
  set (s2 := with_this (set_negotiated caps enc) s1). clearbody s2.
  set (s3 := if bool_decide _ then s2 else _).
  set (s3' := if bool_decide _ then erase s2 else _).
  assert (E3 : s3' = erase s3).
  { unfold s3, s3'. destruct (bool_decide _); [done|].
    symmetry. apply erase_on_proc. intros c. unfold settle_started.
    change (started (eraseChild c)) with (started c). by destruct (started c). }
  rewrite E3. clearbody s3. clear s3' E3.
  rewrite erase_lookup. destruct (procs s3 !! p) as [c|]; [|done]. cbn.
  destruct (started c); try done. cbn [fst].
  unfold attachListeners. change (this (with_this ?f ?x)) with (f (this x)).
  cbn [serverProcess set_serverProcess].
  rewrite <- (erase_on_proc p (set_started (Fulfilled ())) (set_started (Fulfilled ()))) by done.
  change (with_this ?f (erase ?x)) with (erase (with_this f x)).
  by apply erase_on_proc.
Qed.

Lemma erase_onStdout (p : nat) (data : Buffer.t) (s : System) :
  erase (onStdout p data s) = onStdout p data (erase s).
Proof.
  unfold onStdout. rewrite erase_lookup.
  destruct (procs s !! p) as [c|]; [|done]. cbn [fmap option_fmap option_map].
  change (listeners (eraseChild c)) with (listeners c).
  destruct (listeners c); try done.
  - apply erase_firstBurst.
  - rewrite erase_park. f_equal. apply erase_loop.
Qed.

Lemma erase_onAnswer (r : string) (s : System) :
  erase (onAnswer r s) = onAnswer r (erase s).
Proof.
  unfold onAnswer. change (awaiting (erase s)) with (awaiting s).
  destruct (awaiting s) as [|k rest]; [done|].
  change (with_awaiting ?f (erase s)) with (erase (with_awaiting f s)).
  set (s1 := with_awaiting _ s). clearbody s1.
  rewrite erase_lookup. destruct (procs s1 !! k_proc k) as [c|]; [|done].
  cbn [fmap option_fmap option_map].
  rewrite erase_park. f_equal. apply erase_resume.
Qed.

Lemma erase_runcommand (args : list string) (s : System) :
  erase (snd (runcommand args s)) = snd (runcommand args (erase s)).
Proof.
  unfold runcommand, enqueueCommand. change (this (erase s)) with (this s).
  destruct (serverProcess (this s)) as [p|]; [|done].
  cbn [defer snd]. unfold serverSendCommand. by apply erase_on_proc.
Qed.

Lemma erase_start (path : option string) (s : System) :
  erase (start process_env process_cwd path s)
  = start process_env process_cwd path (erase s).
Proof.
  unfold start, spawnCommandServerProcess, erase, with_procs. cbn. f_equal.
  by rewrite fmap_app.
Qed.

Lemma erase_onExit (p : nat) (code : string) (s : System) :
  erase (onExit p code s) = onExit p code (erase s).
Proof.
  unfold onExit. rewrite erase_lookup.
  destruct (procs s !! p) as [c|]; [|done]. cbn [fmap option_fmap option_map].
  change (listeners (eraseChild c)) with (listeners c).
  destruct (listeners c); try done.
  rewrite erase_start.
  change (log ?t (erase s)) with (erase (log t s)).
  rewrite <- erase_stop. done.
Qed.

(** The stderr listener of [spawnCommandServerProcess] does not look at
    [errorBuffers]; the one of [attachListeners] only appends to it. *)
Lemma erase_onStderr (p : nat) (data : Buffer.t) (s : System) :
  erase (onStderr p data s)
  = erase (if starting (this s)
           then match listeners <$> procs s !! p with
                | Some Spawned | Some Orphaned | Some Listening =>
                    on_proc p (settle_started (Rejected (string_of_list_byte data))) s
                | _ => s
                end
           else match listeners <$> procs s !! p with
                | Some Spawned | Some Orphaned | Some Listening =>
                    handleServerError data s
                | _ => s
                end).
Proof.
  unfold onStderr.
  destruct (procs s !! p) as [c|]; [|by destruct (starting _)].
  cbn [fmap option_fmap option_map].
  destruct (listeners c); try (by destruct (starting _)).
  rewrite erase_on_proc_absorb by done. by destruct (starting _).
Qed.

Lemma erase_step (e : Event) (s : System) :
  erase (step s e) = erase (step (erase s) e).
Proof.
  destruct e as [args|force|p data|p data|p code|r]; cbn [step].
  - by rewrite erase_runcommand, <- erase_runcommand, erase_idemp.
  - by rewrite erase_stop, <- erase_stop, erase_idemp.
  - by rewrite erase_onStdout, <- erase_onStdout, erase_idemp.
  - rewrite !erase_onStderr. change (this (erase s)) with (this s).
    rewrite erase_lookup.
    destruct (procs s !! p) as [c|];
      [|destruct (starting _); cbn [fmap option_fmap option_map]; by rewrite erase_idemp].
    cbn [fmap option_fmap option_map].
    change (listeners (eraseChild c)) with (listeners c).
    assert (Hs : ∀ r, erase (on_proc p (settle_started r) (erase s))
                      = erase (on_proc p (settle_started r) s)).
    { intros r.
      assert (Hc : ∀ c, eraseChild (settle_started r c) = settle_started r (eraseChild c)).
      { intros c'. unfold settle_started. change (started (eraseChild c')) with (started c').
        by destruct (started c'). }
      by rewrite !(erase_on_proc p _ _ _ Hc), erase_idemp. }
    unfold handleServerError.
    change (log ?t (erase s)) with (erase (log t s)).
    destruct (starting _), (listeners c); by rewrite ?Hs, ?erase_idemp.
  - by rewrite erase_onExit, <- erase_onExit, erase_idemp.
  - by rewrite erase_onAnswer, <- erase_onAnswer, erase_idemp.
Qed.

Lemma erase_run (events : list Event) :
  ∀ s, erase (run s events) = erase (run (erase s) events).
Proof.
  induction events as [|e events IH]; intros s.
  - cbn [run foldl]. by rewrite erase_idemp.
  - cbn [run foldl]. fold (run (step s e) events). fold (run (step (erase s) e) events).
    rewrite IH, erase_step, <- IH. done.
Qed.

(** What the stderr listener of [attachListeners] stores in [errorBuffers]
    is read nowhere: two systems that differ only in the contents of
    [errorBuffers] stay so under every sequence of events - same promises,
    same queue, same writes to the server, same log. *)
Theorem errorBuffers_are_never_read (events : list Event) (s s' : System) :
  erase s = erase s' →
  erase (run s events) = erase (run s' events).
Proof.
  intros H. by rewrite erase_run, H, <- erase_run.
Qed.

(** A chunk on the stderr of the running server is printed by
    [handleServerError] and pushed on [errorBuffers], and that is all:
    whatever happens afterwards, the promises, their order of settlement,
    the fields of the instance, the log and what is written to each child
    are as if the chunk had only been printed.  It is not part of the
    [stderr] of any result. *)
Theorem server_stderr_is_only_printed (p : nat) (data : Buffer.t) (events : list Event)
    (s : System) (c : ChildProcess) :
  procs s !! p = Some c → listeners c = Listening → starting (this s) = false →
  vars <$> procs (onStderr p data s) !! p
  = Some {| errorBuffers := errorBuffers (vars c) ++ [data];
            outputBodies := outputBodies (vars c);
            errorBodies := errorBodies (vars c);
            exitCodeVar := exitCodeVar (vars c) |}
  ∧ let a := run s (Stderr p data :: events) in
    let b := run (handleServerError data s) events in
    promises a = promises b
    ∧ resolved a = resolved b
    ∧ this a = this b
    ∧ logged a = logged b
    ∧ stdin <$> procs a = stdin <$> procs b.
Proof.
  intros Hc Hl Hs. split.
  - unfold onStderr. rewrite Hc. cbn [fmap option_fmap option_map]. rewrite Hl, Hs.
    cbn [procs on_proc with_procs handleServerError log].
    by rewrite list_lookup_alter_eq, Hc.
  - intros a b.
    assert (E : erase a = erase b).
    { unfold a, b. cbn [run foldl step]. fold (run (onStderr p data s) events).
      fold (run (handleServerError data s) events).
      rewrite erase_run, erase_onStderr, Hc. cbn [fmap option_fmap option_map].
      rewrite Hl, Hs. by rewrite <- erase_run. }
    split_and!.
    + exact (f_equal promises E).
    + exact (f_equal resolved E).
    + exact (f_equal this E).
    + exact (f_equal logged E).
    + apply (f_equal procs) in E. cbn in E.
      apply (f_equal (fmap stdin)) in E.
      by rewrite <- !list_fmap_compose in E.
Qed.

(** ** The handshake: the second pattern and the failure *)

Lemma hasLF_app (a b : string) : hasLF (a ++ b) = hasLF a || hasLF b.
Proof.
  induction a as [|c a IH]; [done|].
  rewrite string_app_cons. cbn [hasLF]. by rewrite IH, orb_assoc.
Qed.

Lemma isLineText_hasLF (text : string) : isLineText text = true → hasLF text = false.
Proof.
  induction text as [|c text IH]; [done|].
  unfold isLineText in *. cbn [allChars hasLF]. intros H.
  apply andb_true_iff in H as [Hc H]. apply negb_true_iff in Hc.
  unfold lineTerminator in Hc. apply orb_false_iff in Hc as [Hc _].
  by rewrite Hc, IH.
Qed.

Lemma lastLine_app (before line : string) :
  hasLF line = false → lastLine (before ++ String "010" line) = line.
Proof.
  intros H. induction before as [|c before IH].
  - rewrite string_app_nil_l. cbn [lastLine]. by rewrite H.
  - rewrite string_app_cons. cbn [lastLine].
    rewrite hasLF_app. cbn [hasLF]. change (Ascii.eqb "010" "010") with true.
    by rewrite orb_true_r.
Qed.

Lemma stripPrefix_inv (prefix input rest : string) :
  stripPrefix prefix input = Some rest → input = (prefix ++ rest)%string.
Proof.
  revert input. induction prefix as [|c prefix IH]; intros input H.
  - simpl in H. by inversion H.
  - destruct input as [|d input]; [done|]. cbn [stripPrefix] in H.
    destruct (Ascii.eqb c d) eqn:E; [|done]. apply Ascii.eqb_eq in E. subst d.
    rewrite string_app_cons. f_equal. by apply IH.
Qed.

(** What a lazy group has taken when the match succeeds. *)
Lemma lazyDot_inv (pats : list Pat) (groups : list string) (r : list string) :
  ∀ input taken,
  lazyDot pats groups taken input = Some r →
  ∃ x rest, input = (x ++ rest)%string ∧ isLineText x = true
            ∧ matchHere pats rest (groups ++ [(taken ++ x)%string]) = Some r.
Proof.
  induction input as [|c input IH]; intros taken H; rewrite lazyDot_unfold in H.
  - destruct (matchHere pats "" (groups ++ [taken])) eqn:E; [|done].
    exists ""%string, ""%string. by rewrite (string_app_nil_r taken), E.
  - destruct (matchHere pats (String c input) (groups ++ [taken])) eqn:E.
    + exists ""%string, (String c input). by rewrite (string_app_nil_r taken), E.
    + destruct (lineTerminator c) eqn:Ec; [done|].
      destruct (IH _ H) as (x & rest & -> & Hx & Hm).
      exists (String c x), rest. rewrite string_app_cons. split; [done|].
      split.
      * unfold isLineText in *. cbn [allChars]. by rewrite Ec, Hx.
      * by rewrite string_app_assoc in Hm.
Qed.

Lemma exec_none (pats : list Pat) (input : string) :
  (∀ before u, input = (before ++ u)%string → matchHere pats u [] = None) →
  exec pats input = None.
Proof.
  induction input as [|c input IH]; intros H.
  - cbn [exec]. by rewrite (H ""%string ""%string).
  - cbn [exec]. rewrite (H ""%string (String c input)) by done.
    apply IH. intros before u ->. by apply (H (String c before)).
Qed.

(** A match of the first pattern ends with a line that starts with
    ["encoding: "]. *)
Lemma first_pattern_inv (u : string) (r : list string) :
  matchHere [Lit "capabilities: "; LazyDot; Lit (LF ++ "encoding: "); LazyDot; EndOfInput]
    u [] = Some r →
  ∃ before y, u = (before ++ String "010" ("encoding: " ++ y))%string
              ∧ isLineText y = true.
Proof.
  intros H. cbn [matchHere] in H.
  destruct (stripPrefix "capabilities: " u) as [u1|] eqn:E1; [|done].
  apply stripPrefix_inv in E1. subst u.
  change ((fix lazy (taken input : string) {struct input} := _) "" ?i)
    with (lazyDot [Lit (LF ++ "encoding: "); LazyDot; EndOfInput] [] "" i) in H.
  apply lazyDot_inv in H as (x & u2 & -> & _ & H).
  cbn [matchHere] in H.
  destruct (stripPrefix (LF ++ "encoding: ") u2) as [u3|] eqn:E3; [|done].
  apply stripPrefix_inv in E3. subst u2.
  change ((fix lazy (taken input : string) {struct input} := _) "" ?i)
    with (lazyDot [EndOfInput] ([] ++ [("" ++ x)%string]) "" i) in H.
  apply lazyDot_inv in H as (y & u4 & -> & Hy & H).
  cbn [matchHere] in H. destruct u4; [|done].
  exists ("capabilities: " ++ x)%string, y. split; [|done].
  rewrite string_app_nil_r.
  change (LF ++ "encoding: ")%string with (String "010" "encoding: ").
  by rewrite !string_app_assoc.
Qed.

(** A match of the second pattern ends with a line that starts with
    ["encoding: "] and one more line. *)
Lemma second_pattern_inv (u : string) (r : list string) :
  matchHere [Lit "capabilities: "; LazyDot; Lit (LF ++ "encoding: "); LazyDot;
             Lit LF; LazyDot; EndOfInput] u [] = Some r →
  ∃ before y z, u = (before ++ String "010" ("encoding: " ++ y ++ String "010" z))%string.
Proof.
  intros H. cbn [matchHere] in H.
  destruct (stripPrefix "capabilities: " u) as [u1|] eqn:E1; [|done].
  apply stripPrefix_inv in E1. subst u.
  change ((fix lazy (taken input : string) {struct input} := _) "" ?i)
    with (lazyDot [Lit (LF ++ "encoding: "); LazyDot; Lit LF; LazyDot; EndOfInput]
            [] "" i) in H.
  apply lazyDot_inv in H as (x & u2 & -> & _ & H).
  cbn [matchHere] in H.
  destruct (stripPrefix (LF ++ "encoding: ") u2) as [u3|] eqn:E3; [|done].
  apply stripPrefix_inv in E3. subst u2.
  change ((fix lazy (taken input : string) {struct input} := _) "" ?i)
    with (lazyDot [Lit LF; LazyDot; EndOfInput] ([] ++ [("" ++ x)%string]) "" i) in H.
  apply lazyDot_inv in H as (y & u4 & -> & Hy & H).
  cbn [matchHere] in H.
  destruct (stripPrefix LF u4) as [u5|] eqn:E5; [|done].
  apply stripPrefix_inv in E5. subst u4.
  exists ("capabilities: " ++ x)%string, y, u5.
  change (LF ++ "encoding: ")%string with (String "010" "encoding: ").
  change (LF ++ u5)%string with (String "010" u5).
  by rewrite !string_app_assoc.
Qed.

(** The second pattern matches a hello message with a third line at its
    first character. *)
Lemma hello_with_a_third_line_matches (caps : list string) (enc extra : string) :
  forallb isToken caps = true →
  isLineText enc = true →
  isLineText extra = true →
  exec [Lit "capabilities: "; LazyDot; Lit (LF ++ "encoding: "); LazyDot;
        Lit LF; LazyDot; EndOfInput]
    (handshakeText caps enc ++ LF ++ extra)
  = Some [String.concat " " caps; enc; extra].
Proof.
  intros Ht He Hx. apply exec_here. unfold handshakeText.
  set (text := String.concat " " caps).
  rewrite !string_app_assoc.
  cbn [matchHere]. rewrite stripPrefix_app.
  change ((fix lazy (taken input : string) {struct input} := _) "" ?i)
    with (lazyDot [Lit (LF ++ "encoding: "); LazyDot; Lit LF; LazyDot; EndOfInput]
            [] "" i).
  rewrite lazyDot_skip; cycle 1.
  { intros c u g Hc. change (LF ++ "encoding: ")%string with (String "010" "encoding: ").
    cbn [matchHere stripPrefix].
    destruct (Ascii.eqb "010" c) eqn:E; [|done].
    apply Ascii.eqb_eq in E. subst c. done. }
  { by apply isLineText_concat. }
  rewrite lazyDot_unfold, string_app_nil_l. cbn [app].
  rewrite <- (string_app_assoc LF "encoding: ").
  cbn [matchHere]. rewrite stripPrefix_app.
  change ((fix lazy (taken input : string) {struct input} := _) "" ?i)
    with (lazyDot [Lit LF; LazyDot; EndOfInput] [text] "" i).
  rewrite lazyDot_skip; cycle 1.
  { intros c u g Hc. change LF with (String "010" "").
    cbn [matchHere stripPrefix].
    destruct (Ascii.eqb "010" c) eqn:E; [|done].
    apply Ascii.eqb_eq in E. subst c. done. }
  { done. }
  rewrite lazyDot_unfold, string_app_nil_l. cbn [app].
  cbn [matchHere]. rewrite stripPrefix_app.
  change ((fix lazy (taken input : string) {struct input} := _) "" ?i)
    with (lazyDot [EndOfInput] [text; enc] "" i).
  rewrite <- (string_app_nil_r extra) at 1.
  rewrite lazyDot_skip; [|by intros|done].
  by rewrite lazyDot_unfold.
Qed.

(** A hello message with one more line - as servers send that also report
    a process id - is read by the second pattern: the first one does not
    match, because [$] is the end of the text and a group does not run over
    a line feed.  The third line is dropped.  It must not start with
    ["encoding: "]. *)
Theorem parse_drops_a_third_line (caps : list string) (enc extra : string) :
  caps ≠ [] →
  forallb isToken caps = true →
  isLineText enc = true →
  isLineText extra = true →
  stripPrefix "encoding: " extra = None →
  parseCapabilitiesAndEncoding (handshakeText caps enc ++ LF ++ extra) = inr (caps, enc).
Proof.
  intros Hne Ht He Hx Hs. unfold parseCapabilitiesAndEncoding.
  rewrite exec_none.
  - rewrite hello_with_a_third_line_matches by done. cbv iota.
    by rewrite split_spaces_concat.
  - intros before u E.
    destruct (matchHere _ u []) as [r|] eqn:Em; [|done].
    apply first_pattern_inv in Em as (mid & y & -> & Hy).
    apply (f_equal lastLine) in E.
    change (LF ++ extra)%string with (String "010" extra) in E.
    rewrite <- string_app_assoc in E.
    rewrite !lastLine_app in E; cycle 1.
    { rewrite hasLF_app. by rewrite (isLineText_hasLF y). }
    { by apply isLineText_hasLF. }
    subst extra. by rewrite stripPrefix_app in Hs.
Qed.

(** A text without a line feed is no hello message: both patterns fail at
    every position and [parseCapabilitiesAndEncoding] throws. *)
Theorem parse_throws_without_line_feed (data : string) :
  hasLF data = false →
  parseCapabilitiesAndEncoding data
  = inl (Error ("Unable to parse capabilities: " ++ data)).
Proof.
  intros H. unfold parseCapabilitiesAndEncoding.
  rewrite !exec_none; [done| |].
  - intros before u ->. rewrite hasLF_app in H. apply orb_false_iff in H as [_ H].
    destruct (matchHere _ u []) as [r|] eqn:Em; [|done].
    apply second_pattern_inv in Em as (mid & y & z & ->).
    rewrite hasLF_app in H. cbn [hasLF] in H.
    change (Ascii.eqb "010" "010") with true in H. by rewrite orb_true_r in H.
  - intros before u ->. rewrite hasLF_app in H. apply orb_false_iff in H as [_ H].
    destruct (matchHere _ u []) as [r|] eqn:Em; [|done].
    apply first_pattern_inv in Em as (mid & y & -> & _).
    rewrite hasLF_app in H. cbn [hasLF] in H.
    change (Ascii.eqb "010" "010") with true in H. by rewrite orb_true_r in H.
Qed.

(** ** One server at a time *)

Lemma sameListeners_refl (s : System) : sameListeners s s.
Proof. done. Qed.

Lemma sameListeners_trans (s1 s2 s3 : System) :
  sameListeners s1 s2 → sameListeners s2 s3 → sameListeners s1 s3.
Proof.
  intros (E1 & S1 & H1) (E2 & S2 & H2). split_and!; [congruence|congruence|].
  intros p. by rewrite H2, H1.
Qed.

Lemma coherent_same (s s' : System) : sameListeners s s' → coherent s → coherent s'.
Proof.
  intros (E & S & H) (HA & HB & HC). split_and!.
  - intros p q. rewrite !H. apply HA.
  - intros p. rewrite E, H. apply HB.
  - rewrite S, HC. by setoid_rewrite H.
Qed.

Lemma listenersOf_on_proc (p q : nat) (f : ChildProcess → ChildProcess) (s : System) :
  listenersOf (on_proc p f s) q
  = if decide (p = q) then (fun c => listeners (f c)) <$> procs s !! p
    else listenersOf s q.
Proof.
  unfold listenersOf, on_proc, with_procs. cbn [procs].
  case_decide as E.
  - subst q. rewrite list_lookup_alter_eq. by destruct (procs s !! p).
  - by rewrite list_lookup_alter_ne.
Qed.

Lemma sameListeners_on_proc (p : nat) (f : ChildProcess → ChildProcess) (s : System) :
  (∀ c, listeners (f c) = listeners c) → sameListeners s (on_proc p f s).
Proof.
  intros H. split_and!; [done|done|]. intros q. rewrite listenersOf_on_proc.
  case_decide as E; [|done]. subst q. unfold listenersOf.
  destruct (procs s !! p); [|done]. cbn. by rewrite H.
Qed.

Lemma sameListeners_settle (p : nat) (r : Promise unit) (s : System) :
  sameListeners s (on_proc p (settle_started r) s).
Proof.
  apply sameListeners_on_proc. intros c. unfold settle_started. by destruct (started c).
Qed.

Lemma sameListeners_deliverResult (answer : IExecutionResult) (s : System) :
  sameListeners s (deliverResult answer s).
Proof.
  unfold deliverResult, dequeueCommand.
  destruct (commandQueue (this s)) as [|c rest]; [done|].
  unfold resolve. cbn [promises with_this].
  by destruct (promises s !! result c) as [[| |]|].
Qed.

Lemma sameListeners_runcommand (args : list string) (s : System) :
  sameListeners s (snd (runcommand args s)).
Proof.
  unfold runcommand, enqueueCommand.
  destruct (serverProcess (this s)) as [p|]; [|done].
  cbn [defer snd]. unfold serverSendCommand.
  eapply sameListeners_trans; [|by apply sameListeners_on_proc]. done.
Qed.

Lemma sameListeners_onStderr (p : nat) (data : Buffer.t) (s : System) :
  sameListeners s (onStderr p data s).
Proof.
  unfold onStderr.
  assert (He : sameListeners s
                 (if starting (this s)
                  then on_proc p (settle_started (Rejected (string_of_list_byte data))) s
                  else handleServerError data s)).
  { destruct (starting (this s)); [apply sameListeners_settle|done]. }
  destruct (listeners <$> procs s !! p) as [[| | |]|]; try done.
  eapply sameListeners_trans; [apply He|]. by apply sameListeners_on_proc.
Qed.

(** [stop] releases the server process, if it does anything. *)
Lemma coherent_stop (force : bool) (s : System) : coherent s → coherent (stop force s).
Proof.
  intros H. pose proof H as (HA & HB & HC).
  unfold stop. destruct (serverProcess (this s)) as [p|] eqn:Ep; [|done].
  destruct (_ && _).
  { eapply coherent_same; [|apply H]. done. }
  set (f := fun c => write_stdin StdinEnd (set_listeners Detached c)).
  assert (Hp : listenersOf s p = Some Listening) by by apply HB.
  assert (Hl : ∀ q, listenersOf (with_this (set_serverProcess None) (on_proc p f s)) q
                    = if decide (p = q) then Some Detached else listenersOf s q).
  { intros q. change (listenersOf (with_this ?g ?x) q) with (listenersOf x q).
    rewrite listenersOf_on_proc. case_decide; [|done].
    unfold listenersOf in Hp. by destruct (procs s !! p). }
  split_and!.
  - intros q1 q2. rewrite !Hl. intros H1 H2.
    destruct (decide (p = q1)) as [->|]; [by destruct H1|].
    destruct (decide (p = q2)) as [->|]; [by destruct H2|].
    by apply HA.
  - intros q. rewrite Hl. cbn. split; [done|].
    destruct (decide (p = q)) as [->|Hne]; [done|].
    intros Hq. apply HB in Hq. congruence.
  - change (starting (this (with_this ?g (on_proc p f s)))) with (starting (this s)).
    rewrite HC. split; intros [q Hq]; exists q.
    + rewrite Hl. case_decide; [|done]. subst q. congruence.
    + rewrite Hl in Hq. by case_decide.
Qed.

Section Listening.

(** A property of who listens that [stop] preserves is preserved by the
    stdout listener of [attachListeners]. *)
Variable P : System → Prop.
Hypothesis P_same : ∀ s s', sameListeners s s' → P s → P s'.
Hypothesis P_stop : ∀ force s, P s → P (stop force s).

Lemma finishFrame_listening (next : Z) (s : System) (v : Closure) :
  P s → P (stateOf (finishFrame next s v)).
Proof.
  intros H. destruct (exitCodeVar v) as [code|] eqn:Ev.
  - rewrite (finishFrame_result next s v code Ev). cbv zeta.
    set (s2 := deliverResult _ s).
    assert (H2 : P s2) by (eapply P_same; [apply sameListeners_deliverResult|done]).
    destruct (_ && _); simpl; [|done]. by apply P_stop.
  - by rewrite finishFrame_none.
Qed.

Lemma iteration_listening (data : Buffer.t) (offset : Z) (s : System) (v : Closure) :
  P s → P (stateOf (iteration data offset s v)).
Proof.
  intros H. unfold iteration.
  destruct (Buffer.readUInt8 _ _); [|done].
  destruct (Buffer.readUInt32BE data (offset + 1)); [|done].
  destruct (Ascii.eqb _ RESULT_CHANNEL).
  { destruct (Buffer.readUInt32BE data (offset + 5)); [|done].
    by apply finishFrame_listening. }
  destruct (Ascii.eqb _ LINE_CHANNEL); [done|].
  destruct (toString _ _); [|done]. by apply finishFrame_listening.
Qed.

Lemma loop_listening (fuel p : nat) (data : Buffer.t) :
  ∀ (offset : Z) (s : System) (v : Closure),
  P s → P (outcomeState (loop fuel p data offset s v)).
Proof.
  induction fuel as [|fuel IH]; intros offset s v H.
  - simpl. by destruct (offset <? Buffer.len data).
  - rewrite loop_unfold. destruct (offset <? Buffer.len data); [|done].
    pose proof (iteration_listening data offset s v H) as Hi.
    destruct (iteration data offset s v); cbn [proceed outcomeState stateOf] in *;
      try done. by apply IH.
Qed.

Lemma park_listening (p : nat) (o : Outcome) : P (outcomeState o) → P (park p o).
Proof.
  intros H.
  assert (Hv : ∀ v s, P s → P (on_proc p (set_vars v) s)).
  { intros v s Hs. eapply P_same; [|apply Hs]. by apply sameListeners_on_proc. }
  destruct o; cbn [park outcomeState] in *; try by apply Hv.
  eapply P_same; [|by apply Hv, H]. done.
Qed.

Lemma onAnswer_listening (r : string) (s : System) : P s → P (onAnswer r s).
Proof.
  intros H. unfold onAnswer.
  destruct (awaiting s) as [|k rest]; [done|].
  set (s1 := with_awaiting _ s). assert (H1 : P s1) by (by eapply P_same; [|apply H]).
  destruct (procs s1 !! k_proc k) as [c|]; [|done].
  apply park_listening. unfold resume.
  assert (Ha : P (stateOf (afterAwait (k_proc k) r (k_offset k) s1 (vars c)))).
  { unfold afterAwait. apply finishFrame_listening.
    eapply P_same; [|apply H1]. by apply sameListeners_on_proc. }
  destruct (afterAwait _ _ _ _ _); cbn [proceed outcomeState stateOf] in *; try done.
  by apply loop_listening.
Qed.

End Listening.

(** A state without a child that is starting up or serving. *)
Lemma coherent_idle (s : System) :
  serverProcess (this s) = None → starting (this s) = false →
  (∀ q, ¬ isActive (listenersOf s q)) → coherent s.
Proof.
  intros Hn Hs Hq. split_and!.
  - intros p q H. by destruct (Hq p).
  - intros p. rewrite Hn. split; [done|]. intros H. destruct (Hq p). by right.
  - rewrite Hs. split; [done|]. intros [p H]. destruct (Hq p). by left.
Qed.

(** A state in which child [p] alone is starting up or serving. *)
Lemma coherent_single (p : nat) (s : System) :
  (∀ q, isActive (listenersOf s q) → q = p) →
  (serverProcess (this s) = Some p ∧ starting (this s) = false
   ∧ listenersOf s p = Some Listening)
  ∨ (serverProcess (this s) = None ∧ starting (this s) = true
     ∧ listenersOf s p = Some Spawned) →
  coherent s.
Proof.
  intros Hq H. split_and!.
  - intros q1 q2 H1 H2. by rewrite (Hq q1), (Hq q2).
  - intros q. destruct H as [(E1 & _ & E2)|(E1 & _ & E2)]; rewrite E1.
    + split; [by intros [= <-]|]. intros Hl. f_equal. symmetry. apply Hq. by right.
    + split; [done|]. intros Hl. assert (q = p) by (apply Hq; by right).
      subst q. congruence.
  - destruct H as [(_ & E1 & E2)|(_ & E1 & E2)]; rewrite E1.
    + split; [done|]. intros [q Hl]. assert (q = p) by (apply Hq; by left).
      subst q. congruence.
    + split; [|done]. intros _. by exists p.
Qed.

Lemma coherent_start (path : option string) (s : System) :
  serverProcess (this s) = None → (∀ q, ¬ isActive (listenersOf s q)) →
  coherent (start process_env process_cwd path s).
Proof.
  intros Hn Hq. apply (coherent_single (length (procs s))).
  - intros q Ha. unfold listenersOf, start, spawnCommandServerProcess in Ha. cbn in Ha.
    destruct (decide (q < length (procs s))%nat) as [Hlt|Hge].
    + rewrite lookup_app_l in Ha by done. by destruct (Hq q).
    + destruct (decide (q = length (procs s))) as [->|Hne]; [done|].
      rewrite lookup_ge_None_2 in Ha; [by destruct Ha|].
      rewrite length_app. simpl. lia.
  - right. split_and!; [done|done|].
    unfold listenersOf, start, spawnCommandServerProcess. cbn.
    by rewrite lookup_app_r, Nat.sub_diag.
Qed.

Lemma coherent_onExit (p : nat) (code : string) (s : System) :
  coherent s → coherent (onExit p code s).
Proof.
  intros H. unfold onExit.
  destruct (listeners <$> procs s !! p) as [[| | |]|] eqn:El; try done.
  set (s1 := log _ s).
  assert (H1 : coherent s1) by (by eapply coherent_same; [|apply H]).
  assert (El1 : listenersOf s1 p = Some Listening) by done.
  destruct H1 as (HA1 & HB1 & _). pose proof El1 as Ep. apply HB1 in Ep.
  assert (Hstop : stop true s1
                  = with_this (set_serverProcess None)
                      (on_proc p (fun c => write_stdin StdinEnd (set_listeners Detached c)) s1)).
  { unfold stop. rewrite Ep. by rewrite andb_false_r. }
  apply coherent_start; [by rewrite Hstop|].
  intros q Hq. rewrite Hstop in Hq.
  change (listenersOf (with_this ?g ?x) q) with (listenersOf x q) in Hq.
  rewrite listenersOf_on_proc in Hq. case_decide as E.
  - subst q. unfold listenersOf in El1. destruct (procs s1 !! p); [|done].
    by destruct Hq.
  - apply E. apply HA1; [by right|done].
Qed.

Lemma coherent_firstBurst (p : nat) (data : Buffer.t) (s : System) :
  listenersOf s p = Some Spawned → coherent s → coherent (fst (firstBurst p data s)).
Proof.
  intros Hp (HA & HB & _).
  assert (Hsp : serverProcess (this s) = None).
  { destruct (serverProcess (this s)) as [q|] eqn:E; [|done].
    assert (Hq : listenersOf s q = Some Listening) by by apply HB.
    assert (p = q) by (apply HA; [by left|by right]). congruence. }
  set (s0 := with_this (set_starting false) (on_proc p (set_listeners Orphaned) s)).
  assert (H0 : ∀ q, listenersOf s0 q = if decide (p = q) then Some Orphaned
                                       else listenersOf s q).
  { intros q. unfold s0. change (listenersOf (with_this ?g ?x) q) with (listenersOf x q).
    rewrite listenersOf_on_proc. case_decide as E; [|done].
    unfold listenersOf in Hp. by destruct (procs s !! p). }
  assert (Hidle : ∀ q, ¬ isActive (listenersOf s0 q)).
  { intros q. rewrite H0. case_decide as E; [by intros [|]|].
    intros Hq. apply E. apply HA; [by left|done]. }
  assert (Hn0 : serverProcess (this s0) = None) by done.
  assert (Hs0 : starting (this s0) = false) by done.
  assert (Hc0 : coherent s0) by by apply coherent_idle.
  unfold firstBurst. fold s0. clearbody s0.
  destruct (Buffer.readUInt8 data 0); [|done].
  destruct (Buffer.readUInt32BE data 1); [|done].
  destruct (if Ascii.eqb _ _ then _ else _) as [e|text]; [done|].
  destruct (parseCapabilitiesAndEncoding text) as [e|[caps enc]]; [done|].
  set (s3 := with_this (set_negotiated caps enc) s0).
  set (s4 := if bool_decide _ then s3 else _).
  assert (H4 : sameListeners s0 s4).
  { unfold s4. destruct (bool_decide _); [done|].
    eapply sameListeners_trans; [|apply sameListeners_settle]. done. }
  clearbody s4. pose proof H4 as (E4 & S4 & L4).
  destruct (started <$> procs s4 !! p) as [[| |]|] eqn:Es;
    cbn [fst]; try (by apply (coherent_same s0)).
  apply (coherent_single p).
  - intros q Hq. unfold attachListeners in Hq.
    change (this (with_this ?f ?x)) with (f (this x)) in Hq.
    cbn [serverProcess set_serverProcess] in Hq.
    rewrite listenersOf_on_proc in Hq. case_decide as E; [done|].
    change (listenersOf (with_this ?g ?x) q) with (listenersOf x q) in Hq.
    rewrite listenersOf_on_proc in Hq. case_decide; [done|].
    rewrite L4 in Hq. by destruct (Hidle q).
  - left. unfold attachListeners.
    change (this (with_this ?f ?x)) with (f (this x)).
    cbn [serverProcess set_serverProcess].
    split_and!.
    + by change (this (on_proc ?a ?b ?x)) with (this x).
    + change (starting (this (on_proc ?a ?b (with_this ?g (on_proc ?c ?d ?x)))))
        with (starting (this x)). congruence.
    + rewrite listenersOf_on_proc. case_decide; [|done].
      cbn [procs with_this on_proc with_procs]. rewrite list_lookup_alter_eq.
      destruct (procs s4 !! p); [done|]. done.
Qed.

Lemma coherent_step (e : Event) (s : System) : coherent s → coherent (step s e).
Proof.
  intros H. destruct e as [args|force|p data|p data|p code|r]; cbn [step].
  - eapply coherent_same; [apply sameListeners_runcommand|done].
  - by apply coherent_stop.
  - unfold onStdout. destruct (procs s !! p) as [c|] eqn:Ec; [|done].
    destruct (listeners c) eqn:El; try done.
    + apply coherent_firstBurst; [|done]. unfold listenersOf. by rewrite Ec; cbn; rewrite El.
    + apply (park_listening coherent coherent_same).
      by apply (loop_listening coherent coherent_same coherent_stop).
  - eapply coherent_same; [apply sameListeners_onStderr|done].
  - by apply coherent_onExit.
  - by apply (onAnswer_listening coherent coherent_same coherent_stop).
Qed.

(** In every state that an instance made by [HgCommandServer.start]
    reaches, at most one child process is starting up or serving,
    [serverProcess] is set exactly when a child carries the listeners of
    [attachListeners], and is that child, and [starting] is set exactly
    while a child waits for its first burst: a restart after a crash never
    leaves two servers, commands are never written to a child whose output
    is not read, and what the running server writes on its stderr is never
    taken for a failure of the start. *)
Theorem one_server_at_a_time (path repository : string) (events : list Event) :
  coherent (run (launch process_env process_cwd path repository) events).
Proof.
  assert (H : coherent (launch process_env process_cwd path repository)).
  { apply coherent_start; [done|]. intros q [H|H]; by destruct q. }
  revert H. generalize (launch process_env process_cwd path repository).
  induction events as [|e events IH]; intros s H; [done|].
  cbn [run foldl]. apply IH. by apply coherent_step.
Qed.

(** ** A first burst that cannot be read *)

Lemma firstBurst_throws (p : nat) (data : Buffer.t) (s : System) (e : Exception) :
  snd (firstBurst p data s) = Some e →
  fst (firstBurst p data s)
  = with_this (set_starting false) (on_proc p (set_listeners Orphaned) s).
Proof.
  unfold firstBurst.
  destruct (Buffer.readUInt8 data 0); [|done].
  destruct (Buffer.readUInt32BE data 1); [|done].
  destruct (if Ascii.eqb _ _ then _ else _) as [e'|text]; [done|].
  destruct (parseCapabilitiesAndEncoding text) as [e'|[caps enc]]; [done|].
  by destruct (started <$> _) as [[| |]|].
Qed.

Lemma stalled_stays (events : list Event) :
  ∀ s, stalled s → stalled (run s events).
Proof.
  induction events as [|ev events IH]; intros s H; [done|].
  cbn [run foldl]. apply IH.
  by destruct (stalled_step toString process_env process_cwd s ev H).
Qed.

(** When the listener of the first burst throws - the burst is shorter
    than a header, its body cannot be decoded, or it holds no hello
    message - the exception leaves the promise of [start] untouched, and
    nothing that happens afterwards settles it: [HgCommandServer.start]
    neither returns nor fails, the instance never has a server process and
    every command is refused. *)
Theorem failed_first_burst_never_settles_start (path repository : string)
    (data : Buffer.t) (e : Exception) (events : list Event) :
  snd (firstBurst 0 data (launch process_env process_cwd path repository)) = Some e →
  let s := run (launch process_env process_cwd path repository) (Stdout 0 data :: events) in
  started <$> procs s !! 0%nat = Some Pending
  ∧ serverProcess (this s) = None
  ∧ ∀ args, promises (snd (runcommand args s)) !! fst (runcommand args s)
            = Some (Rejected "HGCommandServer is not started").
Proof.
  intros He s.
  set (s0 := with_this (set_starting false)
               (on_proc 0 (set_listeners Orphaned)
                  (launch process_env process_cwd path repository))).
  assert (Es : s = run s0 events).
  { unfold s. cbn [run foldl step]. fold (run s0 events).
    unfold onStdout.
    change (procs (launch process_env process_cwd path repository) !! 0%nat)
      with (Some (set_listeners Spawned
                    (spawnHgServer process_env process_cwd
                       (this (launch process_env process_cwd path repository))
                       (Some path)))).
    cbn [listeners set_listeners]. by rewrite (firstBurst_throws _ _ _ e He). }
  assert (H0 : stalled s0).
  { split_and!; try done. by repeat constructor. }
  pose proof (stalled_stays events s0 H0) as (Hn & _).
  pose proof (stalled_run toString process_env process_cwd events s0 H0) as Hp.
  rewrite <- Es in Hn, Hp. split_and!.
  - by rewrite Hp.
  - done.
  - intros args. unfold runcommand, enqueueCommand. rewrite Hn. cbn.
    by rewrite lookup_app_r, Nat.sub_diag.
Qed.

End Extras.

(** ** Instances on the sample session *)

Lemma busy_pendingQueue : pendingQueue Sample.busy.
Proof.
  split.
  - apply NoDup_singleton.
  - intros c Hc. apply list_elem_of_singleton in Hc. by subst c.
Qed.

(** A forced stop while [hg status] is pending. *)
Lemma stop_detaches_witness :
  let s' := stop true Sample.busy in
  serverProcess (this s') = None
  ∧ listeners <$> procs s' !! 0%nat = Some Detached
  ∧ (∀ data, onStdout Sample.toString 0 data s' = s')
  ∧ commandQueue (this s') = commandQueue (this Sample.busy).
Proof.
  cbv zeta.
  edestruct (stop_detaches Sample.toString Sample.env Sample.cwd 0 true Sample.busy)
    as (H1 & H2 & _ & H4 & _ & _ & _ & H8).
  - reflexivity.
  - reflexivity.
  - left. reflexivity.
  - split_and!; assumption.
Defined.

(** The pending [hg status] stays pending over an exit and a stderr chunk. *)
Lemma queued_promises_stay_pending_witness :
  pendingQueue (run_sample Sample.busy [Stderr 0 (Sample.bytes "warning"); Exit 0 "1"]).
Proof.
  apply (queued_promises_stay_pending Sample.toString Sample.env Sample.cwd).
  exact busy_pendingQueue.
Defined.

(** Three bytes of a header. *)
Lemma cut_header_throws_witness :
  loop Sample.toString 1 0 (take 3 (encode (outputFrame (Sample.bytes "hello")))) 0
    Sample.busy Sample.idle
  = Threw RangeError Sample.busy Sample.idle.
Proof.
  apply (cut_header_throws Sample.toString 0 0
           (take 3 (encode (outputFrame (Sample.bytes "hello")))) 0).
  - by vm_compute.
  - by vm_compute.
Defined.

(** A result frame of which two body bytes have arrived. *)
Lemma cut_result_throws_witness :
  loop Sample.toString 1 0
    (encode {| tag := RESULT_CHANNEL; size := 4; body := Sample.bytes "ab" |}) 0
    Sample.busy Sample.idle
  = Threw RangeError Sample.busy Sample.idle.
Proof.
  apply (cut_result_throws Sample.toString 0 0 [] (Sample.bytes "ab") 4).
  - by vm_compute.
  - by vm_compute.
Defined.

(** An output frame of five bytes of which two have arrived. *)
Lemma cut_output_is_appended_witness :
  loop Sample.toString 1 0
    (encode {| tag := OUTPUT_CHANNEL; size := 5; body := Sample.bytes "he" |}) 0
    Sample.busy Sample.idle
  = Finished Sample.busy (push_outputBodies "he" Sample.idle).
Proof.
  apply (cut_output_is_appended Sample.toString 0 0 [] (Sample.bytes "he") 5).
  - by vm_compute.
  - reflexivity.
  - reflexivity.
Defined.

(** A question between an output frame and the result. *)
Lemma line_request_waits_for_the_answer_witness :
  let pre := encode (outputFrame (Sample.bytes "keep (l)ocal or take (o)ther?")) in
  let post := encode (resultFrame 0) in
  let data := pre ++ encode (lineFrame 4096) ++ post in
  let k := {| k_proc := 0; k_data := data; k_offset := Buffer.len pre + 5;
              k_stdout := ""; k_length := 4096 |} in
  loop Sample.toString 1 0 data (Buffer.len pre) Sample.busy Sample.idle
  = Suspended k Sample.busy Sample.idle
  ∧ ∀ (r : string) (s' : System) (v' : Closure),
      exitCodeVar v' = None →
      resume Sample.toString k r s' v'
      = loop Sample.toString (S (length data)) 0 data (Buffer.len pre + 5)
          (serverSendLineInput 0 (encoding (this s')) r s') v'.
Proof.
  cbv zeta.
  apply (line_request_waits_for_the_answer Sample.toString 0 0
           (encode (outputFrame (Sample.bytes "keep (l)ocal or take (o)ther?")))
           (encode (resultFrame 0)) (lineFrame 4096) Sample.busy Sample.idle).
  - reflexivity.
  - reflexivity.
Defined.

(** The answer to [hg status]: two output frames, an error frame between
    them, and the result 1. *)
Lemma output_and_error_are_gathered_apart_witness :
  promises (run_sample Sample.busy
              [Stdout 0 (encodes [outputFrame (Sample.bytes "M a.txt");
                                  errorFrame (Sample.bytes "warning");
                                  outputFrame (Sample.bytes "? b.txt");
                                  resultFrame 1])]) !! 0%nat
  = Some (Fulfilled {| exitCode := 1; stdout := "M a.txt? b.txt"; stderr := "warning" |}).
Proof.
  edestruct (output_and_error_are_gathered_apart Sample.toString Sample.env Sample.cwd 0
               [outputFrame (Sample.bytes "M a.txt"); errorFrame (Sample.bytes "warning");
                outputFrame (Sample.bytes "? b.txt")] 1 Sample.busy) as (H1 & _).
  - reflexivity.
  - exact busy_decodes.
  - reflexivity.
  - reflexivity.
  - reflexivity.
  - reflexivity.
  - reflexivity.
  - by vm_compute.
  - exact H1.
Defined.

(** [stop()] while [hg status] is pending, then its result. *)
Lemma deferred_stop_drains_the_queue_witness :
  let stopping := stop false Sample.busy in
  let s' := run_sample stopping (arrival 0 [outputFrame (Sample.bytes "M a.txt");
                                            resultFrame 0] []) in
  stopping = with_this (set_stopWhenQueueEmpty true) Sample.busy
  ∧ ∃ results,
      map exitCode results = [0]
      ∧ resolved s' = resolved Sample.busy ++ zip [0%nat] results
      ∧ commandQueue (this s') = []
      ∧ serverProcess (this s') = None
      ∧ listeners <$> procs s' !! 0%nat = Some Detached.
Proof.
  cbv zeta.
  apply (deferred_stop_drains_the_queue Sample.toString Sample.env Sample.cwd 0
           [outputFrame (Sample.bytes "M a.txt"); resultFrame 0] [] Sample.busy).
  - reflexivity.
  - exact busy_decodes.
  - exact busy_pendingQueue.
  - by vm_compute.
  - reflexivity.
  - reflexivity.
  - reflexivity.
Defined.

(** The hello message of a server with two capabilities. *)
Lemma parse_reads_the_hello_message_witness :
  parseCapabilitiesAndEncoding
    ("capabilities: getencoding runcommand" ++ LF ++ "encoding: UTF-8")
  = inr (["getencoding"; "runcommand"]%string, "UTF-8"%string).
Proof.
  apply (parse_reads_the_hello_message ["getencoding"; "runcommand"]%string "UTF-8").
  - by vm_compute.
  - reflexivity.
  - reflexivity.
Defined.

(** The first burst of the sample server. *)
Lemma first_burst_negotiates_witness :
  this (onStdout Sample.toString 0 (Sample.hello ++ []) Sample.spawned)
  = set_serverProcess (Some 0%nat)
      (set_negotiated ["getencoding"; "runcommand"]%string "UTF-8"
         (set_starting false (this Sample.spawned))).
Proof.
  edestruct (first_burst_negotiates Sample.toString 0
               (outputFrame (list_byte_of_string
                  ("capabilities: getencoding runcommand" ++ LF ++ "encoding: UTF-8")))
               [] Sample.spawned) as (_ & _ & H).
  - reflexivity.
  - reflexivity.
  - reflexivity.
  - reflexivity.
  - reflexivity.
  - reflexivity.
  - reflexivity.
  - instantiate (1 := "UTF-8"%string).
    instantiate (1 := ["getencoding"; "runcommand"]%string). reflexivity.
  - by vm_compute.
  - reflexivity.
  - reflexivity.
  - exact (proj1 H).
Defined.

(** The sample child complains before it has said hello. *)
Lemma stderr_before_the_first_burst_rejects_start_witness :
  let s1 := onStderr 0 (Sample.bytes "abort: no repository") Sample.spawned in
  let s2 := onStdout Sample.toString 0 Sample.hello s1 in
  started <$> procs s1 !! 0%nat = Some (Rejected "abort: no repository")
  ∧ started <$> procs s2 !! 0%nat = Some (Rejected "abort: no repository")
  ∧ listeners <$> procs s2 !! 0%nat = Some Orphaned
  ∧ serverProcess (this s2) = None
  ∧ starting (this s2) = false.
Proof.
  cbv zeta.
  eapply (stderr_before_the_first_burst_rejects_start Sample.toString 0
            (Sample.bytes "abort: no repository") Sample.hello Sample.spawned).
  - reflexivity.
  - reflexivity.
  - reflexivity.
  - reflexivity.
Defined.

(** The sample server exits with code 1 while [hg status] is pending. *)
Lemma crash_spawns_a_new_child_witness :
  let crashed := onExit Sample.env Sample.cwd 0 "1" Sample.busy in
  serverProcess (this crashed) = None
  ∧ listeners <$> procs crashed !! 1%nat = Some Spawned
  ∧ promises (snd (runcommand ["log"%string] crashed)) !! 1%nat
    = Some (Rejected "HGCommandServer is not started").
Proof.
  cbv zeta.
  destruct (crash_spawns_a_new_child Sample.env Sample.cwd 0 "1" ["log"%string]
              Sample.busy busy_attached) as (H1 & _ & _ & _ & H5 & _ & _ & H8 & _).
  split_and!; [exact H1 | exact H5 | exact H8].
Defined.

(** A stderr chunk of the sample server against its print-out alone, before
    the result of [hg status]. *)
Lemma errorBuffers_are_never_read_witness :
  erase (run_sample (onStderr 0 (Sample.bytes "warning") Sample.busy)
           [Stdout 0 (encodes [resultFrame 0])])
  = erase (run_sample (handleServerError (Sample.bytes "warning") Sample.busy)
             [Stdout 0 (encodes [resultFrame 0])]).
Proof.
  apply (errorBuffers_are_never_read Sample.toString Sample.env Sample.cwd).
  reflexivity.
Defined.

(** The sample server warns on its stderr while it answers [hg status]. *)
Lemma server_stderr_is_only_printed_witness :
  let events := [Stdout 0 (encodes [errorFrame (Sample.bytes "abort"); resultFrame 255])] in
  let a := run_sample Sample.busy (Stderr 0 (Sample.bytes "warning") :: events) in
  let b := run_sample (handleServerError (Sample.bytes "warning") Sample.busy) events in
  promises a = promises b
  ∧ resolved a = resolved b
  ∧ this a = this b
  ∧ logged a = logged b
  ∧ stdin <$> procs a = stdin <$> procs b.
Proof.
  cbv zeta.
  edestruct (server_stderr_is_only_printed Sample.toString Sample.env Sample.cwd 0
               (Sample.bytes "warning")
               [Stdout 0 (encodes [errorFrame (Sample.bytes "abort"); resultFrame 255])]
               Sample.busy) as [_ H].
  - reflexivity.
  - reflexivity.
  - reflexivity.
  - exact H.
Defined.

(** The hello message of a server that also reports its process id. *)
Lemma parse_drops_a_third_line_witness :
  parseCapabilitiesAndEncoding
    ("capabilities: getencoding runcommand" ++ LF ++ "encoding: UTF-8" ++ LF ++ "pid: 4711")
  = inr (["getencoding"; "runcommand"]%string, "UTF-8"%string).
Proof.
  apply (parse_drops_a_third_line ["getencoding"; "runcommand"]%string "UTF-8" "pid: 4711").
  - by vm_compute.
  - reflexivity.
  - reflexivity.
  - reflexivity.
  - reflexivity.
Defined.

(** An error message instead of the hello message. *)
Lemma parse_throws_without_line_feed_witness :
  parseCapabilitiesAndEncoding "abort: no repository found"
  = inl (Error "Unable to parse capabilities: abort: no repository found").
Proof.
  apply (parse_throws_without_line_feed "abort: no repository found").
  reflexivity.
Defined.

(** The first burst of the sample child is three bytes long. *)
Lemma failed_first_burst_never_settles_start_witness :
  let s := run_sample Sample.spawned
             [Stdout 0 (Sample.bytes "abo"); Stdout 0 Sample.hello; Stop true] in
  started <$> procs s !! 0%nat = Some Pending
  ∧ serverProcess (this s) = None
  ∧ ∀ args, promises (snd (runcommand args s)) !! fst (runcommand args s)
            = Some (Rejected "HGCommandServer is not started").
Proof.
  cbv zeta.
  apply (failed_first_burst_never_settles_start Sample.toString Sample.env Sample.cwd
           "/usr/bin/hg" "/repo" (Sample.bytes "abo") RangeError
           [Stdout 0 Sample.hello; Stop true]).
  reflexivity.
Defined.
